(** * Streaming chat session of community-chatbot

    A shallow embedding of the streaming chat session: the Go producer
    ([backend/internal/handlers/chat.go]), the React consumer
    ([frontend/src/hooks/agui/useAGUIChat.ts], both revisions present in the
    repository, with the zustand chat store it drives) and the
    [SafeEventSource] utility ([frontend/src/utils/eventSource.ts]).

    Texts are byte strings ([string], UTF-8 as Go stores them); instants are
    integers ([Z]); every handler is a pure function on an explicit state.
    The dedup table is a finite map where it is read by value, and a list of
    entries whose keys may share their bytes with the buffers of the
    requests where the handler is run inside the server, with the requests
    of several connections interleaved.  The stream writer runs against a
    connection that may refuse a write, a context that may have been
    released and a text generator that may panic. *)

From Stdlib Require Import ZArith NArith Ascii String List Bool Lia DecimalString.
From stdpp Require Import base option list gmap strings.

Local Open Scope string_scope.
Local Open Scope list_scope.
Local Open Scope Z_scope.

(* ===================================================================== *)
(** * Text helpers: the library functions the code calls on strings        *)
(* ===================================================================== *)

Module Text.

(** [fmt.Sprintf("%d", n)] and JavaScript's rendering of an integer inside a
    template literal. *)
Definition itoa (n : Z) : string :=
  NilEmpty.string_of_int (Z.to_int n).

(** [s.startsWith(p)] / [strings.HasPrefix(s, p)]. *)
Definition startsWith (s p : string) : bool := String.prefix p s.

(** Width in bytes of the white-space rune that starts [s], 0 when [s] does
    not start with one.  The runes are those of Go's [unicode.IsSpace]:
    U+0009..U+000D, U+0020, U+0085, U+00A0, U+1680, U+2000..U+200A, U+2028,
    U+2029, U+202F, U+205F and U+3000, in their UTF-8 encoding. *)
Definition spaceWidth (s : string) : nat :=
  match s with
  | EmptyString => 0%nat
  | String c s1 =>
    let b0 := N_of_ascii c in
    if ((9 <=? b0) && (b0 <=? 13) || (b0 =? 32))%N then 1%nat
    else
      match s1 with
      | EmptyString => 0%nat
      | String c1 s2 =>
        let b1 := N_of_ascii c1 in
        if ((b0 =? 194) && ((b1 =? 133) || (b1 =? 160)))%N then 2%nat
        else
          match s2 with
          | EmptyString => 0%nat
          | String c2 _ =>
            let b2 := N_of_ascii c2 in
            if ((b0 =? 225) && (b1 =? 154) && (b2 =? 128))%N then 3%nat
            else if ((b0 =? 226) && (b1 =? 128)
                     && ((128 <=? b2) && (b2 <=? 138)
                         || (b2 =? 168) || (b2 =? 169) || (b2 =? 175)))%N
                 then 3%nat
            else if ((b0 =? 226) && (b1 =? 129) && (b2 =? 159))%N then 3%nat
            else if ((b0 =? 227) && (b1 =? 128) && (b2 =? 128))%N then 3%nat
            else 0%nat
          end
      end
  end.

(** The field collected so far, closed when a separator or the end of the
    text is met: an empty one is no field. *)
Definition flush (cur : string) : list string :=
  match cur with
  | EmptyString => []
  | _ => [cur]
  end.

(** [strings.Fields]: the maximal runs of bytes between white-space runes.
    [skip] counts the bytes of the current white-space rune still to pass,
    [cur] is the field being collected. *)
Fixpoint fieldsFrom (skip : nat) (cur : string) (s : string) : list string :=
  match s with
  | EmptyString => flush cur
  | String c s' =>
    match skip with
    | S k => fieldsFrom k cur s'
    | O =>
      match spaceWidth s with
      | O => fieldsFrom 0 (cur +:+ String c EmptyString) s'
      | S k => flush cur ++ fieldsFrom k EmptyString s'
      end
    end
  end.

Definition Fields (s : string) : list string := fieldsFrom 0 EmptyString s.

(** [strings.Join(words, sep)]. *)
Fixpoint Join (words : list string) (sep : string) : string :=
  match words with
  | [] => EmptyString
  | [w] => w
  | w :: rest => w +:+ sep +:+ Join rest sep
  end.

(** Concatenation of a list of texts, in order. *)
Definition concat (l : list string) : string :=
  fold_right String.append EmptyString l.

End Text.

(* ===================================================================== *)
(** * Percent-coding of the query parameter                                *)
(* ===================================================================== *)

(** The query text travels in the URL's [message] parameter.  Four library
    functions touch it, modelled here on bytes:
    - [encodeURIComponent] (consumer, first revision only),
    - the serializer of [URLSearchParams] ([url.searchParams.set] followed by
      [url.toString()]),
    - the query-argument decoder behind Fiber's [c.Query],
    - Go's [url.QueryUnescape]. *)

Module Codec.

Definition isAlnum (c : ascii) : bool :=
  let n := N_of_ascii c in
  ((48 <=? n) && (n <=? 57) || (65 <=? n) && (n <=? 90)
   || (97 <=? n) && (n <=? 122))%N.

Definition inSet (c : ascii) (set : string) : bool :=
  existsb (Ascii.eqb c) (list_ascii_of_string set).

(** Upper-case hexadecimal digit of a nibble. *)
Definition hexdigit (n : N) : ascii :=
  if (n <? 10)%N then ascii_of_N (48 + n) else ascii_of_N (55 + n).

(** Value of a hexadecimal digit, either case. *)
Definition unhex (c : ascii) : option N :=
  let n := N_of_ascii c in
  if ((48 <=? n) && (n <=? 57))%N then Some (n - 48)%N
  else if ((65 <=? n) && (n <=? 70))%N then Some (n - 55)%N
  else if ((97 <=? n) && (n <=? 102))%N then Some (n - 87)%N
  else None.

(** [%XX] for one byte. *)
Definition percent (c : ascii) (rest : string) : string :=
  let n := N_of_ascii c in
  String "%" (String (hexdigit (n / 16)) (String (hexdigit (n mod 16)) rest)).

Definition byte_of_hex (hi lo : N) : ascii := ascii_of_N (16 * hi + lo).

(** JavaScript's [encodeURIComponent] on the UTF-8 bytes of a well-formed
    text: letters, digits and [-_.!~*'()] stay, every other byte becomes
    [%XX]. *)
Fixpoint encodeURIComponent (s : string) : string :=
  match s with
  | EmptyString => EmptyString
  | String c s' =>
    if isAlnum c || inSet c "-_.!~*'()"
    then String c (encodeURIComponent s')
    else percent c (encodeURIComponent s')
  end.

(** The value of a parameter as [URLSearchParams] serializes it
    (application/x-www-form-urlencoded): letters, digits and [*-._] stay, a
    space becomes [+], every other byte becomes [%XX]. *)
Fixpoint formEncode (s : string) : string :=
  match s with
  | EmptyString => EmptyString
  | String c s' =>
    if isAlnum c || inSet c "*-._" then String c (formEncode s')
    else if Ascii.eqb c " " then String "+" (formEncode s')
    else percent c (formEncode s')
  end.

(** The decoder applied to a query argument before [c.Query] returns it:
    [+] is a space, [%XX] with two hexadecimal digits is a byte, a [%] with
    other followers stays, and a [%] within the last two bytes ends the
    decoding, the rest being copied as it is. *)
Fixpoint decodeArg (s : string) : string :=
  match s with
  | EmptyString => EmptyString
  | String c s' =>
    if Ascii.eqb c "%" then
      match s' with
      | String h (String l rest) =>
        match unhex h, unhex l with
        | Some a, Some b => String (byte_of_hex a b) (decodeArg rest)
        | _, _ => String c (decodeArg s')
        end
      | _ => s
      end
    else if Ascii.eqb c "+" then String " " (decodeArg s')
    else String c (decodeArg s')
  end.

(** Go's [url.QueryUnescape]: [None] is its [EscapeError], returned when a
    [%] is not followed by two hexadecimal digits. *)
Fixpoint QueryUnescape (s : string) : option string :=
  match s with
  | EmptyString => Some EmptyString
  | String c s' =>
    if Ascii.eqb c "%" then
      match s' with
      | String h (String l rest) =>
        match unhex h, unhex l with
        | Some a, Some b =>
          match QueryUnescape rest with
          | Some r => Some (String (byte_of_hex a b) r)
          | None => None
          end
        | _, _ => None
        end
      | _ => None
      end
    else
      match QueryUnescape s' with
      | Some r => Some (String (if Ascii.eqb c "+" then " "%char else c) r)
      | None => None
      end
  end.

End Codec.

(* ===================================================================== *)
(** * The endpoint: frontend/src/lib/env.ts                                *)
(* ===================================================================== *)

Module Env.

(** The configuration when the environment sets neither variable. *)
Definition apiBaseUrl : string := "http://localhost:8080".
Definition apiChatEndpoint : string := "/api/v1/chat/stream".

Definition getApiUrl (endpoint : string) : string :=
  let cleanEndpoint :=
    if Text.startsWith endpoint "/" then endpoint else "/" +:+ endpoint in
  apiBaseUrl +:+ cleanEndpoint.

Definition getChatStreamUrl : string := getApiUrl apiChatEndpoint.

End Env.

(* ===================================================================== *)
(** * The producer: backend/internal/handlers/chat.go                      *)
(* ===================================================================== *)

Module Producer.

(** Instants and durations are nanosecond counts, as [time.Duration]. *)
Definition Second : Z := 1000000000.
Definition Window : Z := 10 * Second.

(** [ChatHandler]: the dedup table, read as a map from the text of a key
    to its instant.  Each method below is one critical section of the
    mutex.  How the methods of several requests interleave, and what a key
    shares with the request it came from, is in [Server] below. *)
Record ChatHandler : Type := mkChatHandler {
  recentMessages : gmap string Z
}.

Definition NewChatHandler : ChatHandler := mkChatHandler ∅.

(** [isRecentMessage], [now] being the clock read by [time.Since]. *)
Definition isRecentMessage (h : ChatHandler) (now : Z) (message : string) : bool :=
  match recentMessages h !! message with
  | Some lastTime => bool_decide (now - lastTime < Window)
  | None => false
  end.

(** [recordMessage], [now] being the clock read by [time.Now]. *)
Definition recordMessage (h : ChatHandler) (now : Z) (message : string) : ChatHandler :=
  mkChatHandler (<[message := now]> (recentMessages h)).


(** The events of the protocol, as the handler's structs; [EventType] is
    the constant each one carries in its [Type] field. *)
Inductive Event : Type :=
| StreamingStartEvent (MessageID : string)
| TextMessageEvent (Content : string) (IsComplete : bool)
| StreamingEndEvent
| ErrorEvent (Message : string).

Definition EventType (e : Event) : string :=
  match e with
  | StreamingStartEvent _ => "STREAMING_START"
  | TextMessageEvent _ _ => "TEXT_MESSAGE_CONTENT"
  | StreamingEndEvent => "STREAMING_END"
  | ErrorEvent _ => "ERROR"
  end.

(** The buffer of a [bufio.Writer] made by [bufio.NewWriter], which is how
    the server makes the writer it hands to the body stream writer. *)
Definition defaultBufSize : nat := 4096.

(** That [bufio.Writer], over the client's connection, at the grain of
    frames.  [buffered] holds the frames whose last byte lies in the buffer,
    [used] is the number of bytes the buffer holds, [delivered] holds the
    frames the connection has taken to their last byte, [failed] is the
    writer's sticky error, [writes] counts the writes the connection has
    taken. *)
Record Writer : Type := mkWriter {
  buffered : list Event;
  used : nat;
  delivered : list Event;
  failed : bool;
  writes : nat
}.

Definition newWriter : Writer := mkWriter [] 0 [] false 0.

(** [bufio.Writer.Write] of the frame [p] of the event [e].  [conn k] tells
    whether the connection takes its [k]-th write; a write is taken whole or
    refused.  A frame that fits what is left of the buffer is copied into
    it.  One that does not goes straight to the connection when the buffer
    is empty; otherwise the buffer is filled with the head of the frame and
    flushed, and the rest of the frame is written in the same way.  The
    boolean is [err == nil]. *)
Definition Write (conn : nat -> bool) (w : Writer) (e : Event) (p : string)
  : Writer * bool :=
  let n := String.length p in
  let available := (defaultBufSize - used w)%nat in
  if failed w then (w, false)
  else if (n <=? available)%nat then
    (mkWriter (buffered w ++ [e]) (used w + n) (delivered w) false (writes w), true)
  else if (used w =? 0)%nat then
    if conn (writes w)
    then (mkWriter [] 0 (delivered w ++ [e]) false (S (writes w)), true)
    else (mkWriter [] 0 (delivered w) true (writes w), false)
  else if conn (writes w) then
    let rest := (n - available)%nat in
    let delivered' := delivered w ++ buffered w in
    if (rest <=? defaultBufSize)%nat then
      (mkWriter [e] rest delivered' false (S (writes w)), true)
    else if conn (S (writes w))
    then (mkWriter [] 0 (delivered' ++ [e]) false (S (S (writes w))), true)
    else (mkWriter [] 0 delivered' true (S (writes w)), false)
  else (mkWriter (buffered w) defaultBufSize (delivered w) true (writes w), false).

(** The frame [fmt.Fprintf(w, "data: %s\n\n", data)] writes. *)
Definition frame (data : string) : string :=
  "data: " +:+ data +:+ String "010" (String "010" "").

(** [writeEvent].  [Marshal] is [json.Marshal], which returns no error on
    the structs of the handler (strings and a boolean); the frame is written
    by one call of [Write]. *)
Definition writeEvent (Marshal : Event -> string) (conn : nat -> bool)
  (w : Writer) (event : Event) : Writer * bool :=
  Write conn w event (frame (Marshal event)).

(** [w.Flush()], its error dropped as in the source. *)
Definition Flush (conn : nat -> bool) (w : Writer) : Writer :=
  if failed w then w
  else if (used w =? 0)%nat then w
  else if conn (writes w)
       then mkWriter [] 0 (delivered w ++ buffered w) false (S (writes w))
       else mkWriter (buffered w) (used w) (delivered w) true (writes w).

(** A writer between two events when nothing has failed: the buffer is
    empty. *)
Definition clear (w : Writer) : Prop :=
  failed w = false /\ buffered w = [] /\ used w = 0%nat.

(** The word loop of the stream writer: [i] is the index of the next word,
    [n] is [len(words)]. *)
Definition textEvent (n i : Z) (word : string) : Event :=
  let content := if i <? n - 1 then word +:+ " " else word in
  TextMessageEvent content (i =? n - 1).

Fixpoint streamWords (Marshal : Event -> string) (conn : nat -> bool) (n i : Z)
  (words : list string) (w : Writer) : Writer :=
  match words with
  | [] => w
  | word :: rest =>
    let '(w1, ok) := writeEvent Marshal conn w (textEvent n i word) in
    if ok then streamWords Marshal conn n (i + 1) rest (Flush conn w1)
    else w1
  end.

(** How a run of the body stream writer ends. *)
Inductive Ending : Type :=
| Crashed      (* a panic raised before the deferred function is in place *)
| Recovered    (* a panic caught by the deferred function, which logs it *)
| Returned.

(** The body stream writer set by [StreamChat].  The server runs it in a
    goroutine of its own, started when the handler sets it; the handler
    returns at once, and Fiber then releases the context [c].

    [clientIP] is what [c.IP()] returns in the first statement of the
    writer: [None] stands for the panic of that call on a context already
    released (a nil pointer is dereferenced).  The deferred function that
    recovers panics is installed by the statement after it, so nothing
    catches this one and the writer has written nothing.

    [generate] is [generateResponse]; [None] stands for a panic of the text
    generator, which the deferred function catches and logs: the writer
    ends there.  [now] is the clock read for the message id.  When the
    writer has returned the server flushes the buffer once more. *)
Definition streamWriter (clientIP : option string) (Marshal : Event -> string)
  (generate : string -> option string) (conn : nat -> bool)
  (now : Z) (decodedMessage : string) : Ending * Writer :=
  match clientIP with
  | None => (Crashed, newWriter)
  | Some _ =>
    let messageID := "msg-" +:+ Text.itoa now in
    let '(w1, ok) := writeEvent Marshal conn newWriter (StreamingStartEvent messageID) in
    if negb ok then (Returned, Flush conn w1)
    else
      let w2 := Flush conn w1 in
      match generate decodedMessage with
      | None => (Recovered, Flush conn w2)
      | Some response =>
        let words := Text.Fields response in
        let w3 := streamWords Marshal conn (Z.of_nat (length words)) 0 words w2 in
        let '(w4, _) := writeEvent Marshal conn w3 StreamingEndEvent in
        (Returned, Flush conn (Flush conn w4))
      end
  end.

(** The events the word loop writes for [words] from index [i] on, and the
    whole sequence the stream writer writes when nothing fails. *)
Fixpoint textEvents (n i : Z) (words : list string) : list Event :=
  match words with
  | [] => []
  | word :: rest => textEvent n i word :: textEvents n (i + 1) rest
  end.

Definition fullStream (generate : string -> string) (now : Z)
  (decodedMessage : string) : list Event :=
  let words := Text.Fields (generate decodedMessage) in
  StreamingStartEvent ("msg-" +:+ Text.itoa now)
  :: textEvents (Z.of_nat (length words)) 0 words ++ [StreamingEndEvent].

(** The same sequence, for an answer already at hand. *)
Definition streamOf (now : Z) (response : string) : list Event :=
  fullStream (fun _ => response) now "".

Definition Content (e : Event) : string :=
  match e with
  | TextMessageEvent c _ => c
  | _ => ""
  end.

(** What [StreamChat] answers. *)
Inductive Response : Type :=
| JSON (status : Z) (error : string)
| EventStream (status : Z) (headers : list (string * string))
    (decodedMessage : string).

Definition StatusOK : Z := 200.
Definition StatusBadRequest : Z := 400.
Definition StatusTooManyRequests : Z := 429.

Definition sseHeaders : list (string * string) :=
  [ ("Content-Type", "text/event-stream");
    ("Cache-Control", "no-cache");
    ("Connection", "keep-alive");
    ("Access-Control-Allow-Origin", "*");
    ("Access-Control-Allow-Headers", "Cache-Control");
    ("Access-Control-Expose-Headers", "Content-Type,Cache-Control,Connection") ].

(** [url.QueryUnescape(message)] with the fallback to the parameter. *)
Definition decodeMessage (message : string) : string :=
  match Codec.QueryUnescape message with
  | Some decoded => decoded
  | None => message
  end.

(** [StreamChat] up to the point where the body stream writer is set, run
    on its own against the table read as a map from texts to instants.
    [message] is the text of [c.Query("message")]; [tcheck] and [trecord]
    are the clock at the dedup check and at the recording.  The handler
    inside the server, where requests interleave and the keys of the table
    share their bytes with the request buffers, is [Server] below. *)
Definition StreamChat (h : ChatHandler) (tcheck trecord : Z) (message : string)
  : ChatHandler * Response :=
  if String.eqb message "" then
    (h, JSON StatusBadRequest "message parameter is required")
  else
    let decodedMessage := decodeMessage message in
    if isRecentMessage h tcheck decodedMessage then
      (h, JSON StatusTooManyRequests
            "Duplicate message sent too quickly. Please wait before sending the same message again.")
    else
      (recordMessage h trecord decodedMessage,
       EventStream StatusOK sseHeaders decodedMessage).

(** The events a response puts on the connection. *)
Definition eventsOf (clientIP : option string) (Marshal : Event -> string)
  (generate : string -> option string) (conn : nat -> bool)
  (now : Z) (r : Response) : list Event :=
  match r with
  | JSON _ _ => []
  | EventStream _ _ decodedMessage =>
    delivered (streamWriter clientIP Marshal generate conn now decodedMessage).2
  end.

Definition opensStream (r : Response) : bool :=
  match r with
  | JSON _ _ => false
  | EventStream _ _ _ => true
  end.

(** Lower-casing of the ASCII letters. *)
Definition lowerAscii (c : ascii) : ascii :=
  let n := N_of_ascii c in
  if ((65 <=? n) && (n <=? 90))%N then ascii_of_N (n + 32) else c.

Fixpoint lowerASCII (s : string) : string :=
  match s with
  | EmptyString => EmptyString
  | String c s' => String (lowerAscii c) (lowerASCII s')
  end.

(** A text all of whose bytes are below [utf8.RuneSelf]. *)
Definition isASCII (s : string) : bool :=
  forallb (fun c => (N_of_ascii c <? 128)%N) (list_ascii_of_string s).

(** [strings.ToLower]: a text of ASCII bytes has its letters lowered byte
    by byte; any other text is mapped rune by rune through
    [unicode.ToLower], whose tables are the library's: [lowerRunes] is
    [strings.Map(unicode.ToLower, s)]. *)
Definition ToLower (lowerRunes : string -> string) (s : string) : string :=
  if isASCII s then lowerASCII s else lowerRunes s.

(** [strings.Contains]. *)
Fixpoint Contains (s sub : string) : bool :=
  String.prefix sub s ||
  match s with
  | EmptyString => false
  | String _ s' => Contains s' sub
  end.

(** [generateResponse], the rule-based stand-in for the text generator. *)
Definition generateResponse (lowerRunes : string -> string) (message : string)
  : string :=
  let message := ToLower lowerRunes message in
  if Contains message "hiking" || Contains message "trail" then
    "I found some great hiking trails in your area! Here are a few popular options: Bear Mountain Trail (moderate difficulty, 3.2 miles), Sunset Ridge Loop (easy, 1.8 miles), and Eagle Peak Summit (challenging, 5.7 miles). Would you like more details about any of these trails?"
  else if Contains message "cycling" || Contains message "bike" then
    "There are several excellent cycling routes nearby! I recommend the Riverside Path (easy, 8 miles of paved trail), Mountain Loop Road (moderate, 12 miles with scenic views), and the Advanced Hill Circuit (challenging, 15 miles with steep climbs). Which type of cycling experience are you looking for?"
  else if Contains message "restaurant" || Contains message "food"
          || Contains message "eat" then
    "Here are some great local restaurants: The Mountain View Café (farm-to-table, outdoor seating), Trailhead Grill (burgers and craft beer), and Summit Bistro (fine dining with valley views). What type of cuisine are you in the mood for?"
  else
    "Thanks for your message! I'm here to help you discover outdoor activities, restaurants, and local attractions. You can ask me about hiking trails, cycling routes, places to eat, or any other activities you're interested in. What would you like to explore today?".

End Producer.

(* ===================================================================== *)
(** * The consumer: frontend/src/hooks/agui/useAGUIChat.ts and the store   *)
(* ===================================================================== *)

Module Consumer.

(** The repository holds two revisions of the hook [useAGUIChat]: the first
    leaves the connection to the transport after a terminal event and
    encodes the query before setting the parameter, the second closes the
    connection itself and sets the parameter as typed. *)
Inductive Version : Type := V1 | V2.

(** ** Types of the chat (frontend/src/types) *)

(** Payloads are carried, never read, by the handlers: they are kept by
    their identifier. *)
Record Activity : Type := mkActivity { activity_id : string }.
Record ActivityImage : Type := mkActivityImage { image_id : string }.

Inductive MessageType : Type := user | assistant | system | error_type.

Record MessageMetadata : Type := mkMetadata {
  totalCount : option Z;
  searchQuery : option string;
  activityId : option string
}.

(** [Message].  [msg_timestamp] is the instant whose ISO rendering the
    source stores. *)
Record Message : Type := mkMessage {
  msg_id : string;
  msg_type : MessageType;
  msg_content : string;
  msg_timestamp : Z;
  msg_isStreaming : option bool;
  msg_activities : option (list Activity);
  msg_images : option (list ActivityImage);
  msg_metadata : option MessageMetadata
}.

(** [Partial<Message>]: [None] is an absent key. *)
Record Updates : Type := mkUpdates {
  upd_id : option string;
  upd_type : option MessageType;
  upd_content : option string;
  upd_timestamp : option Z;
  upd_isStreaming : option (option bool);
  upd_activities : option (option (list Activity));
  upd_images : option (option (list ActivityImage));
  upd_metadata : option (option MessageMetadata)
}.

Definition noUpdates : Updates :=
  mkUpdates None None None None None None None None.

(** [{ ...msg, ...updates }]. *)
Definition merge (msg : Message) (u : Updates) : Message :=
  mkMessage
    (default (msg_id msg) (upd_id u))
    (default (msg_type msg) (upd_type u))
    (default (msg_content msg) (upd_content u))
    (default (msg_timestamp msg) (upd_timestamp u))
    (default (msg_isStreaming msg) (upd_isStreaming u))
    (default (msg_activities msg) (upd_activities u))
    (default (msg_images msg) (upd_images u))
    (default (msg_metadata msg) (upd_metadata u)).

(** The events of the protocol as the consumer types them.  [OTHER] is a
    value whose [type] is none of the known ones, or is missing. *)
Inductive AGUIEvent : Type :=
| STREAMING_START (messageId : option string)
| TEXT_MESSAGE_CONTENT (content : string) (isComplete : option bool)
| ACTIVITIES_FOUND (found : list Activity) (total : Z) (query : option string)
| IMAGES_LOADED (activity : string) (loaded : list ActivityImage)
| TOOL_EXECUTION_START (toolName : string)
| TOOL_EXECUTION_END (toolName : string)
| STREAMING_END
| ERROR (message : string)
| OTHER (type : option string).

Definition terminal (e : AGUIEvent) : bool :=
  match e with
  | STREAMING_END | ERROR _ => true
  | _ => false
  end.

(** What [JSON.parse] makes of a frame's data.  The parser is the
    platform's: a frame is given by its outcome.  [Falsy] is a parsed value
    that JavaScript takes for false ([null], [false], [0], the empty
    string). *)
Inductive JSValue : Type :=
| Falsy
| Parsed (e : AGUIEvent).

Inductive Frame : Type :=
| Garbage (data : string)            (* JSON.parse throws *)
| Batch (events : list JSValue)      (* data starts with a bracket and parses *)
| Single (v : JSValue).              (* any other data that parses *)

(** ** The chat store (zustand) *)

Record ChatState : Type := mkChatState {
  messages : list Message;
  isStreaming : bool;
  activities : list Activity;
  currentActivity : option Activity;
  error : option string
}.

Definition initialChatState : ChatState := mkChatState [] false [] None None.

(** ** The platform's EventSource objects *)

Inductive ReadyState : Type := CONNECTING | OPEN | CLOSED.

(** [requests] counts the HTTP requests made for the object: one when it is
    constructed, one more each time the user agent re-establishes a dropped
    connection.  [retrying] holds between a drop and that re-request. *)
Record EventSource : Type := mkEventSource {
  url : string;
  readyState : ReadyState;
  retrying : bool;
  requests : nat
}.

(** Calls of the callbacks the component passes to the hook. *)
Inductive Callback : Type :=
| onError (text : string)
| onToolExecution (toolName : string) (isStart : bool).

(** ** The hook's own state: [useState] cells and refs *)

Record Hook : Type := mkHook {
  isConnected : bool;
  connectionError : option string;          (* second revision *)
  reconnectAttempts : Z;                    (* second revision *)
  eventSourceRef : option nat;              (* index into the sources *)
  currentMessageRef : string;
  currentMessageIdRef : string;
  isManuallyDisconnected : bool;            (* second revision *)
  reconnectTimeoutRef : option nat          (* second revision *)
}.

Definition initialHook : Hook :=
  mkHook false None 0 None "" "" false None.

Record World : Type := mkWorld {
  store : ChatState;
  hook : Hook;
  sources : list EventSource;
  calls : list Callback
}.

Definition initialWorld : World := mkWorld initialChatState initialHook [] [].

(** The props of the hook.  [endpointParses] tells whether the platform's
    URL parser accepts [endpoint], that is whether [new URL(endpoint)]
    returns. *)
Record Props : Type := mkProps {
  endpoint : string;
  endpointParses : bool
}.

(** The props the pages pass: the chat page gives the hook the URL of
    [getChatStreamUrl], which the URL parser accepts; the default of the
    chat component is a path, which [new URL] refuses. *)
Definition pageProps : Props := mkProps Env.getChatStreamUrl true.
Definition defaultProps : Props := mkProps "/api/chat/stream" false.

(** ** Store actions *)

Definition onStore (f : ChatState -> ChatState) (w : World) : World :=
  mkWorld (f (store w)) (hook w) (sources w) (calls w).

Definition onHook (f : Hook -> Hook) (w : World) : World :=
  mkWorld (store w) (f (hook w)) (sources w) (calls w).

Definition call (c : Callback) (w : World) : World :=
  mkWorld (store w) (hook w) (sources w) (calls w ++ [c]).

Definition addMessage (message : Message) : World -> World :=
  onStore (fun s => mkChatState (messages s ++ [message]) (isStreaming s)
                      (activities s) (currentActivity s) (error s)).

Definition updateMessages (id : string) (updates : Updates)
  (l : list Message) : list Message :=
  (fun msg => if String.eqb (msg_id msg) id then merge msg updates else msg) <$> l.

Definition updateMessage (id : string) (updates : Updates) : World -> World :=
  onStore (fun s => mkChatState (updateMessages id updates (messages s))
                      (isStreaming s) (activities s) (currentActivity s) (error s)).

Definition setStreaming (b : bool) : World -> World :=
  onStore (fun s => mkChatState (messages s) b (activities s)
                      (currentActivity s) (error s)).

Definition setActivities (l : list Activity) : World -> World :=
  onStore (fun s => mkChatState (messages s) (isStreaming s) l
                      (currentActivity s) (error s)).

Definition setError (e : option string) : World -> World :=
  onStore (fun s => mkChatState (messages s) (isStreaming s) (activities s)
                      (currentActivity s) e).

(** ** Hook cells and refs *)

Definition setIsConnected (b : bool) : World -> World :=
  onHook (fun h => mkHook b (connectionError h) (reconnectAttempts h)
                     (eventSourceRef h) (currentMessageRef h)
                     (currentMessageIdRef h) (isManuallyDisconnected h)
                     (reconnectTimeoutRef h)).

Definition setConnectionError (e : option string) : World -> World :=
  onHook (fun h => mkHook (isConnected h) e (reconnectAttempts h)
                     (eventSourceRef h) (currentMessageRef h)
                     (currentMessageIdRef h) (isManuallyDisconnected h)
                     (reconnectTimeoutRef h)).

Definition setReconnectAttempts (n : Z) : World -> World :=
  onHook (fun h => mkHook (isConnected h) (connectionError h) n
                     (eventSourceRef h) (currentMessageRef h)
                     (currentMessageIdRef h) (isManuallyDisconnected h)
                     (reconnectTimeoutRef h)).

Definition setEventSourceRef (r : option nat) : World -> World :=
  onHook (fun h => mkHook (isConnected h) (connectionError h)
                     (reconnectAttempts h) r (currentMessageRef h)
                     (currentMessageIdRef h) (isManuallyDisconnected h)
                     (reconnectTimeoutRef h)).

Definition setCurrentMessage (s : string) : World -> World :=
  onHook (fun h => mkHook (isConnected h) (connectionError h)
                     (reconnectAttempts h) (eventSourceRef h) s
                     (currentMessageIdRef h) (isManuallyDisconnected h)
                     (reconnectTimeoutRef h)).

Definition setCurrentMessageId (s : string) : World -> World :=
  onHook (fun h => mkHook (isConnected h) (connectionError h)
                     (reconnectAttempts h) (eventSourceRef h)
                     (currentMessageRef h) s (isManuallyDisconnected h)
                     (reconnectTimeoutRef h)).

Definition setManuallyDisconnected (b : bool) : World -> World :=
  onHook (fun h => mkHook (isConnected h) (connectionError h)
                     (reconnectAttempts h) (eventSourceRef h)
                     (currentMessageRef h) (currentMessageIdRef h) b
                     (reconnectTimeoutRef h)).

Definition setReconnectTimeout (t : option nat) : World -> World :=
  onHook (fun h => mkHook (isConnected h) (connectionError h)
                     (reconnectAttempts h) (eventSourceRef h)
                     (currentMessageRef h) (currentMessageIdRef h)
                     (isManuallyDisconnected h) t).

(** ** EventSource operations *)

Definition onSources (f : list EventSource -> list EventSource) (w : World) : World :=
  mkWorld (store w) (hook w) (f (sources w)) (calls w).

(** [new EventSource(url)]: a new object, connecting, its first request
    made. *)
Definition newEventSource (u : string) (w : World) : World * nat :=
  (onSources (fun l => (l ++ [mkEventSource u CONNECTING false 1])%list) w,
   length (sources w)).

(** [es.close()]. *)
Definition closed (es : EventSource) : EventSource :=
  mkEventSource (url es) CLOSED false (requests es).

Definition close (i : nat) : World -> World :=
  onSources (alter closed i).

Definition stateOf (w : World) (i : nat) : option ReadyState :=
  readyState <$> (sources w !! i).

(** The number of connection attempts made so far, over all sources. *)
Definition attempts (w : World) : nat :=
  foldr (fun es n => (requests es + n)%nat) 0%nat (sources w).

(** A source that is not closed. *)
Definition live (es : EventSource) : bool :=
  match readyState es with
  | CLOSED => false
  | _ => true
  end.


(** ** The hook's functions *)

(** [parseAGUIEvent]: [None] is [null] or [undefined]. *)
Definition parseAGUIEvent (f : Frame) : option JSValue :=
  match f with
  | Garbage _ => None
  | Batch events => head events
  | Single v => Some v
  end.

(** [a || b] on a string that may be missing. *)
Definition orElse (a : option string) (b : string) : string :=
  match a with
  | Some s => if String.eqb s "" then b else s
  | None => b
  end.

(** The closing of the connection that the second revision adds to the
    terminal cases. *)
Definition closeOnTerminal (v : Version) (w : World) : World :=
  match v with
  | V1 => w
  | V2 =>
    let w := setManuallyDisconnected true w in
    match eventSourceRef (hook w) with
    | Some i => setIsConnected false (setEventSourceRef None (close i w))
    | None => w
    end
  end.

(** [handleAGUIEvent]; [now] is the clock read by [Date.now()]. *)
Definition handleAGUIEvent (v : Version) (now : Z) (event : AGUIEvent)
  (w : World) : World :=
  match event with
  | STREAMING_START messageId =>
    let w := setStreaming true w in
    let id := orElse messageId ("msg-" +:+ Text.itoa now) in
    let w := setCurrentMessageId id w in
    let w := setCurrentMessage "" w in
    addMessage (mkMessage id assistant "" now (Some true) None None None) w
  | TEXT_MESSAGE_CONTENT content isComplete =>
    let w := setCurrentMessage (currentMessageRef (hook w) +:+ content) w in
    updateMessage (currentMessageIdRef (hook w))
      (mkUpdates None None (Some (currentMessageRef (hook w))) None
         (Some (Some (negb (default false isComplete)))) None None None) w
  | ACTIVITIES_FOUND found total query =>
    let w := setActivities found w in
    updateMessage (currentMessageIdRef (hook w))
      (mkUpdates None None None None None (Some (Some found)) None
         (Some (Some (mkMetadata (Some total) query None)))) w
  | IMAGES_LOADED activity loaded =>
    updateMessage (currentMessageIdRef (hook w))
      (mkUpdates None None None None None None (Some (Some loaded))
         (Some (Some (mkMetadata None None (Some activity))))) w
  | TOOL_EXECUTION_START toolName => call (onToolExecution toolName true) w
  | TOOL_EXECUTION_END toolName => call (onToolExecution toolName false) w
  | STREAMING_END =>
    let w := setStreaming false w in
    let w := updateMessage (currentMessageIdRef (hook w))
               (mkUpdates None None None None (Some (Some false)) None None None) w in
    let w := setCurrentMessage "" w in
    let w := setCurrentMessageId "" w in
    closeOnTerminal v w
  | ERROR message =>
    let w := setError (Some message) w in
    let w := setStreaming false w in
    let w := call (onError message) w in
    let w := addMessage (mkMessage ("error-" +:+ Text.itoa now) error_type
                           message now None None None None) w in
    closeOnTerminal v w
  | OTHER _ => w
  end.

(** The text of the exception [new URL] throws. *)
Definition invalidURL : string := "Invalid URL".

(** The URL of the stream: the endpoint with its [message] parameter set
    (the endpoint is taken to carry no query of its own). *)
Definition streamURL (p : Props) (value : string) : string :=
  endpoint p +:+ "?message=" +:+ Codec.formEncode value.

(** The value [setupEventSource] hands to [url.searchParams.set]. *)
Definition messageParam (v : Version) (messageContent : string) : string :=
  match v with
  | V1 => Codec.encodeURIComponent messageContent
  | V2 => messageContent
  end.

(** [setupEventSource]: the world after it, and the message of the
    exception it lets escape, if any. *)
Definition setupEventSource (v : Version) (p : Props) (messageContent : string)
  (w : World) : World * option string :=
  match v with
  | V1 =>
    if endpointParses p then
      let '(w, i) := newEventSource (streamURL p (messageParam V1 messageContent)) w in
      (setEventSourceRef (Some i) w, None)
    else (w, Some invalidURL)
  | V2 =>
    let w := setConnectionError None w in
    let w := setError None w in
    if negb (Text.startsWith (endpoint p) "http://")
       && negb (Text.startsWith (endpoint p) "https://") then
      (setConnectionError
         (Some "Invalid endpoint URL format. Must be a full URL including protocol and host.") w,
       None)
    else if negb (endpointParses p) then
      (setConnectionError
         (Some ("Failed to create URL from endpoint: " +:+ endpoint p)) w, None)
    else
      let '(w, i) := newEventSource (streamURL p (messageParam V2 messageContent)) w in
      (setEventSourceRef (Some i) w, None)
  end.

(** [sendMessage]. *)
Definition sendMessage (v : Version) (p : Props) (now : Z) (message : string)
  (w : World) : World :=
  if isStreaming (store w) then w
  else
    let w :=
      match eventSourceRef (hook w) with
      | Some i =>
        match v with
        | V1 => setEventSourceRef None (close i w)
        | V2 =>
          setIsConnected false
            (setEventSourceRef None (close i (setManuallyDisconnected true w)))
        end
      | None => w
      end in
    let w := match v with
             | V1 => w
             | V2 => setReconnectTimeout None w
             end in
    let w := addMessage (mkMessage ("user-" +:+ Text.itoa now) user message
                           now None None None None) w in
    match setupEventSource v p message w with
    | (w, None) => w
    | (w, Some errorMsg) => call (onError errorMsg) (setError (Some errorMsg) w)
    end.

(** [reconnect]. *)
Definition reconnect (v : Version) (w : World) : World :=
  match v with
  | V1 =>
    let w := match eventSourceRef (hook w) with
             | Some i => setEventSourceRef None (close i w)
             | None => w
             end in
    setError None (setIsConnected false w)
  | V2 =>
    let w := match eventSourceRef (hook w) with
             | Some i =>
               setEventSourceRef None (close i (setManuallyDisconnected true w))
             | None => w
             end in
    let w := setReconnectTimeout None w in
    setReconnectAttempts 0
      (setError None (setConnectionError None (setIsConnected false w)))
  end.

(** The cleanup effect, run when the component unmounts (second revision
    only). *)
Definition cleanup (v : Version) (w : World) : World :=
  match v with
  | V1 => w
  | V2 =>
    let w := setReconnectTimeout None w in
    match eventSourceRef (hook w) with
    | Some i =>
      setEventSourceRef None (close i (setManuallyDisconnected true w))
    | None => w
    end
  end.

(** [eventSource.onopen]. *)
Definition onopen (v : Version) (w : World) : World :=
  match v with
  | V1 => setError None (setIsConnected true w)
  | V2 => setError None (setConnectionError None (setIsConnected true w))
  end.

(** [eventSource.onmessage]. *)
Definition onmessage (v : Version) (now : Z) (f : Frame) (w : World) : World :=
  match parseAGUIEvent f with
  | Some (Parsed aguiEvent) => handleAGUIEvent v now aguiEvent w
  | _ => w
  end.

(** [eventSource.onerror] of the source of index [i]. *)
Definition onerror (v : Version) (i : nat) (w : World) : World :=
  match v with
  | V1 =>
    let w := setIsConnected false w in
    let w :=
      match stateOf w i with
      | Some CLOSED =>
        call (onError "Connection lost. Please try again.")
          (setError (Some "Connection closed unexpectedly") w)
      | _ =>
        call (onError "Failed to connect to server")
          (setError (Some "Connection error occurred") w)
      end in
    setEventSourceRef None (close i w)
  | V2 =>
    let w := setIsConnected false w in
    let w := setEventSourceRef None (close i w) in
    match stateOf w i with
    | Some CLOSED =>
      setConnectionError (Some "Connection closed unexpectedly")
        (call (onError "Connection lost. Please try again.") w)
    | _ =>
      setConnectionError (Some "Connection error occurred")
        (call (onError "Failed to connect to server") w)
    end
  end.

(** The [error] the hook returns: the store's in the first revision,
    [error || connectionError] in the second. *)
Definition returnedError (v : Version) (w : World) : option string :=
  match v with
  | V1 => error (store w)
  | V2 =>
    match error (store w) with
    | Some s => if String.eqb s "" then connectionError (hook w) else Some s
    | None => connectionError (hook w)
    end
  end.

(** ** The consumer driven by its environment *)

(** What can happen to a mounted hook: calls by the component, and what
    the user agent dispatches on the sources.  A closed source dispatches
    nothing; a message comes from an open one. *)
Inductive Input : Type :=
| SendMessage (text : string)
| Reconnect
| Unmount
| Opened (i : nat)
| Received (i : nat) (f : Frame)
| Failed (i : nat) (fatal : bool)
| Reestablish (i : nat).

Definition setReadyState (rs : ReadyState) (retry : bool) (es : EventSource)
  : EventSource :=
  mkEventSource (url es) rs retry (requests es).

Definition rerequest (es : EventSource) : EventSource :=
  mkEventSource (url es) CONNECTING false (S (requests es)).

Definition step (v : Version) (p : Props) (w : World) (timed : Z * Input) : World :=
  let '(now, input) := timed in
  match input with
  | SendMessage text => sendMessage v p now text w
  | Reconnect => reconnect v w
  | Unmount => cleanup v w
  | Opened i =>
    match sources w !! i with
    | Some es =>
      match readyState es, retrying es with
      | CONNECTING, false => onopen v (onSources (alter (setReadyState OPEN false) i) w)
      | _, _ => w
      end
    | None => w
    end
  | Received i f =>
    match stateOf w i with
    | Some OPEN => onmessage v now f w
    | _ => w
    end
  | Failed i fatal =>
    match stateOf w i with
    | Some CLOSED | None => w
    | Some _ =>
      onerror v i
        (onSources
           (alter (setReadyState (if fatal then CLOSED else CONNECTING) (negb fatal)) i) w)
    end
  | Reestablish i =>
    match sources w !! i with
    | Some es =>
      match readyState es, retrying es with
      | CONNECTING, true => onSources (alter rerequest i) w
      | _, _ => w
      end
    | None => w
    end
  end.

Definition run (v : Version) (p : Props) (ins : list (Z * Input)) (w : World) : World :=
  fold_left (step v p) ins w.

(** The frames of one connection handled in order, each at its instant. *)
Definition receive (v : Version) (frames : list (Z * Frame)) (w : World) : World :=
  fold_left (fun w tf => onmessage v tf.1 tf.2 w) frames w.

Definition textFrame (chunk : Z * string * option bool) : Z * Frame :=
  (chunk.1.1, Single (Parsed (TEXT_MESSAGE_CONTENT chunk.1.2 chunk.2))).

(** The message being assembled: the last one of the log. *)
Definition assembling (w : World) : option Message := last (messages (store w)).

Definition assembled (w : World) : option string :=
  msg_content <$> assembling w.

(** The hook accumulates into [m]: [m] is the last message of the log and
    the two refs hold its id and its content. *)
Definition accumulating (w : World) (m : Message) : Prop :=
  assembling w = Some m
  /\ currentMessageIdRef (hook w) = msg_id m
  /\ currentMessageRef (hook w) = msg_content m.

(** [m] after one more chunk of text. *)
Definition withText (m : Message) (content : string) (isComplete : option bool)
  : Message :=
  mkMessage (msg_id m) (msg_type m) (msg_content m +:+ content) (msg_timestamp m)
    (Some (negb (default false isComplete)))
    (msg_activities m) (msg_images m) (msg_metadata m).

(** [m] with its streaming flag lowered. *)
Definition completed (m : Message) : Message :=
  mkMessage (msg_id m) (msg_type m) (msg_content m) (msg_timestamp m)
    (Some false) (msg_activities m) (msg_images m) (msg_metadata m).

Definition isSend (timed : Z * Input) : bool :=
  match snd timed with
  | SendMessage _ => true
  | _ => false
  end.

(** The endpoints for which [setupEventSource] reaches the constructor of
    the EventSource. *)
Definition validEndpoint (v : Version) (p : Props) : bool :=
  match v with
  | V1 => endpointParses p
  | V2 =>
    (Text.startsWith (endpoint p) "http://" || Text.startsWith (endpoint p) "https://")
    && endpointParses p
  end.

(** The sources once what the hook holds, if anything, is closed. *)
Definition staleClosed (w : World) : list EventSource :=
  match eventSourceRef (hook w) with
  | Some i => alter closed i (sources w)
  | None => sources w
  end.

(** The worlds a mounted hook can be in. *)
Definition reachable (v : Version) (p : Props) (w : World) : Prop :=
  exists ins, w = run v p ins initialWorld.

(** What holds of the sources between two steps: a source that is not
    closed is the one the hook holds, no source waits for a re-request, and
    the hook's reference points into the sources. *)
Definition consistent (srcs : list EventSource) (ref : option nat) : Prop :=
  (forall i es, srcs !! i = Some es -> live es = true -> ref = Some i)
  /\ (forall i es, srcs !! i = Some es -> retrying es = false)
  /\ (forall i, ref = Some i -> (i < length srcs)%nat).

Definition wellFormed (w : World) : Prop :=
  consistent (sources w) (eventSourceRef (hook w)).

Definition allClosed (srcs : list EventSource) : Prop :=
  forall i es, srcs !! i = Some es -> readyState es = CLOSED /\ retrying es = false.


End Consumer.

(* ===================================================================== *)
(** * SafeEventSource: frontend/src/utils/eventSource.ts                   *)
(* ===================================================================== *)

Module SafeEventSource.

Import Consumer.

(** [EventSourceConfig]: [None] is a key left out. *)
Record EventSourceConfig : Type := mkConfig {
  maxReconnectAttempts : option Z;
  reconnectDelay : option Z;
  debug : option bool
}.

(** The constructor's merge of the defaults with the given configuration. *)
Definition withDefaults (c : EventSourceConfig) : EventSourceConfig :=
  mkConfig (Some (default 3 (maxReconnectAttempts c)))
           (Some (default 1000 (reconnectDelay c)))
           (Some (default false (debug c))).

(** [n || d] on a number that may be missing: zero counts as missing. *)
Definition numberOr (n : option Z) (d : Z) : Z :=
  match n with
  | Some x => if x =? 0 then d else x
  | None => d
  end.

(** The object: its private fields.  [eventSource] is an index into the
    platform's sources, [reconnectTimeout] a timer handle. *)
Record t : Type := mkSafe {
  safe_url : string;
  config : EventSourceConfig;
  eventSource : option nat;
  isManuallyDisconnected : bool;
  reconnectAttempts : Z;
  reconnectTimeout : option nat
}.

(** The object with the platform around it: the sources constructed so far
    and the timers pending, each with its handle and delay. *)
Record Env : Type := mkEnv {
  self : t;
  sources : list EventSource;
  timers : list (nat * Z);
  nextTimer : nat
}.

Definition create (u : string) (c : EventSourceConfig) : Env :=
  mkEnv (mkSafe u (withDefaults c) None false 0 None) [] [] 1.

Definition onSelf (f : t -> t) (e : Env) : Env :=
  mkEnv (f (self e)) (sources e) (timers e) (nextTimer e).

(** [clearReconnectTimeout]. *)
Definition clearReconnectTimeout (e : Env) : Env :=
  match reconnectTimeout (self e) with
  | Some handle =>
    let s := self e in
    mkEnv (mkSafe (safe_url s) (config s) (eventSource s)
             (isManuallyDisconnected s) (reconnectAttempts s) None)
          (sources e)
          (filter (fun tm => tm.1 ≠ handle) (timers e))
          (nextTimer e)
  | None => e
  end.

Definition closeSource (e : Env) : Env :=
  match eventSource (self e) with
  | Some i =>
    let s := self e in
    mkEnv (mkSafe (safe_url s) (config s) None (isManuallyDisconnected s)
             (reconnectAttempts s) (reconnectTimeout s))
          (alter closed i (sources e)) (timers e) (nextTimer e)
  | None => e
  end.

Definition setManual (b : bool) : Env -> Env :=
  onSelf (fun s => mkSafe (safe_url s) (config s) (eventSource s) b
                     (reconnectAttempts s) (reconnectTimeout s)).

(** [close()]. *)
Definition close (e : Env) : Env :=
  closeSource (clearReconnectTimeout (setManual true e)).

(** [connect()]; the URL is taken to be well formed, so that the
    constructor of the platform's EventSource returns.  The handler of
    [setupEventHandlers] is [onerror] below. *)
Definition connect (e : Env) : Env :=
  let e := match eventSource (self e) with
           | Some _ => close e
           | None => e
           end in
  let e := setManual false e in
  let s := self e in
  mkEnv (mkSafe (safe_url s) (config s) (Some (length (sources e)))
           (isManuallyDisconnected s) (reconnectAttempts s) (reconnectTimeout s))
        (sources e ++ [mkEventSource (safe_url s) CONNECTING false 1])
        (timers e) (nextTimer e).

(** [scheduleReconnect]. *)
Definition scheduleReconnect (e : Env) : Env :=
  let e := clearReconnectTimeout e in
  let s := self e in
  let delay := numberOr (reconnectDelay (config s)) 1000
               * 2 ^ (reconnectAttempts s - 1) in
  mkEnv (mkSafe (safe_url s) (config s) (eventSource s)
           (isManuallyDisconnected s) (reconnectAttempts s) (Some (nextTimer e)))
        (sources e) (timers e ++ [(nextTimer e, delay)]) (S (nextTimer e)).

(** The error handler installed by [setupEventHandlers]; the source is
    new when it is installed, so there is no earlier handler to call. *)
Definition onerror (e : Env) : Env :=
  let e := closeSource e in
  if isManuallyDisconnected (self e) then e
  else
    let e := onSelf (fun s => mkSafe (safe_url s) (config s) (eventSource s)
                                (isManuallyDisconnected s)
                                (reconnectAttempts s + 1) (reconnectTimeout s)) e in
    if reconnectAttempts (self e)
       <=? numberOr (maxReconnectAttempts (config (self e))) 3
    then scheduleReconnect e
    else e.

(** The callback of the timer set by [scheduleReconnect]. *)
Definition onTimeout (e : Env) : Env :=
  if isManuallyDisconnected (self e) then e else connect e.

(** [destroy()]. *)
Definition destroy (e : Env) : Env := clearReconnectTimeout (close e).

(** What can happen to the object: calls by its owner, and what the
    platform dispatches.  A message is handled by the owner's own handler on
    the source, never by the object. *)
Inductive Input : Type :=
| Connect
| Close
| Destroy
| Message (i : nat) (event : AGUIEvent)
| Error (i : nat) (fatal : bool)
| Reestablish (i : nat)
| Timeout (handle : nat).

Definition step (e : Env) (input : Input) : Env :=
  match input with
  | Connect => connect e
  | Close => close e
  | Destroy => destroy e
  | Message _ _ => e
  | Error i fatal =>
    match readyState <$> (sources e !! i) with
    | Some CLOSED | None => e
    | Some _ =>
      onerror
        (mkEnv (self e)
           (alter (setReadyState (if fatal then CLOSED else CONNECTING) (negb fatal)) i
              (sources e))
           (timers e) (nextTimer e))
    end
  | Reestablish i =>
    match sources e !! i with
    | Some es =>
      match readyState es, retrying es with
      | CONNECTING, true =>
        mkEnv (self e) (alter rerequest i (sources e)) (timers e) (nextTimer e)
      | _, _ => e
      end
    | None => e
    end
  | Timeout handle =>
    if bool_decide (handle ∈ (timers e).*1) then
      onTimeout (mkEnv (self e) (sources e)
                   (filter (fun tm => tm.1 ≠ handle) (timers e)) (nextTimer e))
    else e
  end.

Definition run (ins : list Input) (e : Env) : Env := fold_left step ins e.

(** Connection attempts made so far. *)
Definition attempts (e : Env) : nat :=
  foldr (fun es n => (requests es + n)%nat) 0%nat (sources e).

Definition isConnect (input : Input) : bool :=
  match input with
  | Connect => true
  | _ => false
  end.

(** The number of explicit calls of [connect()] among the inputs. *)
Fixpoint explicitConnects (ins : list Input) : nat :=
  match ins with
  | [] => 0
  | input :: rest => ((if isConnect input then 1 else 0) + explicitConnects rest)%nat
  end.

(** The bound [onerror] compares the attempts with. *)
Definition attemptsAllowed (c : EventSourceConfig) : Z :=
  numberOr (maxReconnectAttempts (withDefaults c)) 3.

(** The budget of automatic reconnections: with [k] explicit connects so
    far, the requests made and the timer pending fit in [k] plus the
    attempts counted, capped by the configured maximum. *)
Definition within (c : EventSourceConfig) (k : nat) (e : Env) : Prop :=
  config (self e) = withDefaults c
  /\ 0 <= reconnectAttempts (self e)
  /\ (attempts e + length (timers e)
      <= k + Z.to_nat (Z.min (reconnectAttempts (self e)) (attemptsAllowed c)))%nat.

(** The environments an object can be in. *)
Definition reachable (u : string) (c : EventSourceConfig) (e : Env) : Prop :=
  exists ins, e = run ins (create u c).

(** What holds between two steps: the sources are consistent with the
    object's reference, and a pending timer is the one the object holds. *)
Definition wellFormed (e : Env) : Prop :=
  consistent (sources e) (eventSource (self e))
  /\ (forall tm, tm ∈ timers e -> reconnectTimeout (self e) = Some tm.1).

(** The object at rest after [close()]. *)
Definition quiet (e : Env) : Prop :=
  isManuallyDisconnected (self e) = true
  /\ eventSource (self e) = None
  /\ timers e = []
  /\ allClosed (sources e).

(** The source the object holds is live, and the object was not closed by
    its owner since it took it. *)
Definition holding (e : Env) : Prop :=
  forall i, eventSource (self e) = Some i ->
    isManuallyDisconnected (self e) = false
    /\ exists es, sources e !! i = Some es /\ live es = true.

(** The delay [scheduleReconnect] waits after the [n]-th error counted. *)
Definition backoff (c : EventSourceConfig) (n : Z) : Z :=
  numberOr (reconnectDelay (withDefaults c)) 1000 * 2 ^ (n - 1).

End SafeEventSource.

(* ===================================================================== *)
(** * The query text from the consumer to the producer                     *)
(* ===================================================================== *)

Module Transport.

(** The value of the [message] parameter in the URL the consumer requests. *)
Definition onWire (v : Consumer.Version) (text : string) : string :=
  Codec.formEncode (Consumer.messageParam v text).

(** [c.Query("message")] for that URL. *)
Definition queryParam (v : Consumer.Version) (text : string) : string :=
  Codec.decodeArg (onWire v text).

(** [decodedMessage], the text [StreamChat] checks, records and hands to
    [generateResponse]. *)
Definition decodedMessage (v : Consumer.Version) (text : string) : string :=
  Producer.decodeMessage (queryParam v text).

(** The frame the consumer's [JSON.parse] makes of an event the producer
    marshals: field for field. *)
Definition frameOf (e : Producer.Event) : Consumer.Frame :=
  Consumer.Single (Consumer.Parsed
    match e with
    | Producer.StreamingStartEvent id => Consumer.STREAMING_START (Some id)
    | Producer.TextMessageEvent c b => Consumer.TEXT_MESSAGE_CONTENT c (Some b)
    | Producer.StreamingEndEvent => Consumer.STREAMING_END
    | Producer.ErrorEvent m => Consumer.ERROR m
    end).

(** The frames of a sequence of events, handled at the instants [clock k],
    [clock (k + 1)], ... *)
Fixpoint timedFrames (clock : nat -> Z) (k : nat) (events : list Producer.Event)
  : list (Z * Consumer.Frame) :=
  match events with
  | [] => []
  | e :: rest => (clock k, frameOf e) :: timedFrames clock (S k) rest
  end.

End Transport.

(* ===================================================================== *)
(** * Bytes of a text                                                      *)
(* ===================================================================== *)

Module Bytes.

(** The white-space runes of one byte: tab, line feed, vertical tab, form
    feed, carriage return and space. *)
Definition asciiSpace (c : ascii) : bool :=
  let n := N_of_ascii c in
  ((9 <=? n) && (n <=? 13) || (n =? 32))%N.

(** A text none of whose bytes is one of them. *)
Definition spaceFree (s : string) : bool :=
  forallb (fun c => negb (asciiSpace c)) (list_ascii_of_string s).

(** A text all of whose bytes are. *)
Definition blank (s : string) : bool :=
  forallb asciiSpace (list_ascii_of_string s).

(** A text with neither [+] nor [%]. *)
Definition plain (s : string) : bool :=
  forallb (fun c => negb (Ascii.eqb c "+" || Ascii.eqb c "%"))
    (list_ascii_of_string s).

(** A byte that starts no white-space rune: it is no white-space byte and
    none of the first bytes C2, E1, E2 and E3 of the longer ones. *)
Definition startsNoSpace (c : ascii) : bool :=
  let n := N_of_ascii c in
  negb (asciiSpace c)
  && negb ((n =? 194) || (n =? 225) || (n =? 226) || (n =? 227))%N.

(** A text made of such bytes. *)
Definition solid (s : string) : bool :=
  forallb startsNoSpace (list_ascii_of_string s).

End Bytes.

(* ===================================================================== *)
(** * The stream writer between two events                                 *)
(* ===================================================================== *)

Module Stream.

Import Producer.

(** What holds of the writer between two events: every event delivered
    took one write of the connection, and the buffer is empty unless the
    connection refused a write, in which case it holds at most the one
    event that write carried. *)
Definition flushedEach (conn : nat -> bool) (w : Writer) : Prop :=
  writes w = length (delivered w)
  /\ (if failed w
      then conn (writes w) = false /\ (length (buffered w) <= 1)%nat
      else buffered w = [] /\ used w = 0%nat).

End Stream.

(* ===================================================================== *)
(** * The handler inside the server                                        *)
(* ===================================================================== *)

(** [StreamChat] is called by Fiber on fasthttp, once per request, in the
    goroutine of the request's connection: requests of several connections
    are handled at once, and the dedup check of line 128 and the recording
    of line 136 are two critical sections of the mutex, between which
    another request may run its own.

    The application is made with Fiber's defaults ([Immutable] is not set):
    the string [c.Query] returns shares its bytes with the array into which
    the server decoded the value of the argument, and the server decodes
    the argument of the next request it reads for the same connection into
    that array again ([append(kv.value[:0], ...)]).  [url.QueryUnescape]
    returns its argument itself when it holds neither [%] nor [+], and a
    string of its own otherwise.  The key the table keeps is that string. *)

Module Server.

Import Producer.

(** A Go string: bytes of its own, which nothing writes again, or the first
    [len] bytes of the array [buf] of a request context. *)
Inductive GoString : Type :=
| Fresh (s : string)
| Arg (buf : nat) (len : nat).

(** The bytes an array holds; one that has held no argument yet is empty. *)
Definition contents (memory : gmap nat string) (buf : nat) : string :=
  default "" (memory !! buf).

(** What a string reads. *)
Definition bytes (memory : gmap nat string) (s : GoString) : string :=
  match s with
  | Fresh s => s
  | Arg buf len => String.substring 0 len (contents memory buf)
  end.

(** The array after [value] has been decoded into it from its first byte:
    the bytes past the end of [value] stay as they were. *)
Fixpoint overwrite (value old : string) : string :=
  match value with
  | EmptyString => old
  | String c value' =>
    String c (overwrite value' match old with
                                | EmptyString => EmptyString
                                | String _ old' => old'
                                end)
  end.

(** An entry of [recentMessages].  [moved] tells that the bytes of its key
    have changed since it was stored: the runtime placed the entry by the
    hash of the text the key read then. *)
Record Entry : Type := mkEntry {
  key : GoString;
  lastTime : Z;
  moved : bool
}.

(** Whether a key of the table reads the array [buf]. *)
Definition aliased (buf : nat) (l : list Entry) : bool :=
  existsb (fun e => match key e with
                    | Arg b _ => Nat.eqb b buf
                    | Fresh _ => false
                    end) l.

(** [url.QueryUnescape(message)] with the fallback to the parameter. *)
Definition decodeMessage (memory : gmap nat string) (message : GoString) : GoString :=
  let text := bytes memory message in
  match Codec.QueryUnescape text with
  | Some decoded => if Bytes.plain text then message else Fresh decoded
  | None => message
  end.

(** A request between two steps of its handler: before the dedup check, or
    between the check and the recording. *)
Inductive Request : Type :=
| Arrived (message : GoString)
| Checked (decodedMessage : GoString).

(** The handler, the arrays of the request contexts and the requests being
    handled, each named by the array that holds its argument. *)
Record State : Type := mkState {
  memory : gmap nat string;
  entries : list Entry;
  inflight : gmap nat Request
}.

Definition initial : State := mkState ∅ [] ∅.

(** The entries whose key reads [q], with their places. *)
Fixpoint readers (memory : gmap nat string) (q : string) (i : nat)
  (l : list Entry) : list (nat * Entry) :=
  match l with
  | [] => []
  | e :: l' =>
    (if String.eqb (bytes memory (key e)) q then [(i, e)] else [])
    ++ readers memory q (S i) l'
  end.

(** A lookup of the Go map for [q].  It finds no entry whose key does not
    read [q]; it finds the entry whose key reads [q] when there is one only
    and its key has read [q] ever since it was stored.  What it finds among
    entries whose keys were overwritten hangs on how the runtime lays the
    map out, and is left open. *)
Inductive Found : Type :=
| Absent
| Present (i : nat) (e : Entry)
| Unknown.

Definition find (memory : gmap nat string) (l : list Entry) (q : string) : Found :=
  match readers memory q 0 l with
  | [] => Absent
  | [(i, e)] => if moved e then Unknown else Present i e
  | _ => Unknown
  end.

(** An entry after the arrays have changed from [before] to [after]. *)
Definition mark (before after : gmap nat string) (e : Entry) : Entry :=
  mkEntry (key e) (lastTime e)
    (moved e || negb (String.eqb (bytes after (key e)) (bytes before (key e)))).

(** One tick of [cleanupOldMessages]: each entry older than the cutoff is
    deleted by the text its key reads.  The outcome is settled when each of
    them is found by that lookup. *)
Definition isOld (cutoff : Z) (e : Entry) : bool := bool_decide (lastTime e < cutoff).

Definition sweep (memory : gmap nat string) (l : list Entry) (now : Z)
  : option (list Entry) :=
  let cutoff := now - Window in
  if forallb (fun e => negb (isOld cutoff e)
                       || match find memory l (bytes memory (key e)) with
                          | Present _ _ => true
                          | _ => false
                          end) l
  then Some (List.filter (fun e => negb (isOld cutoff e)) l)
  else None.

(** What happens in the server: a request is read into the array [buf] and
    its handler is called; the handler of the request in [buf] runs up to
    the end of the dedup check (lines 112 to 133), or from the recording on
    (line 136 to the return); the sweeper ticks.  An array takes the next
    request once the one before has been answered.

    A value no longer than what the array has held is decoded in place.  A
    longer one is decoded in place or into a new array, as the capacity
    [append] left allows: the step is left open when a key of the table
    reads the array, and is the same either way when none does. *)
Inductive Step : Type :=
| Arrive (buf : nat) (message : string)
| Dedup (buf : nat) (now : Z)
| Accept (buf : nat) (now : Z)
| Tick (now : Z).

Definition duplicate : Response :=
  JSON StatusTooManyRequests
    "Duplicate message sent too quickly. Please wait before sending the same message again.".

(** One step, with the responses it sends, each with the array of its
    request; [None] when the outcome of a lookup is left open. *)
Definition step (s : State) (x : Step) : option (State * list (nat * Response)) :=
  match x with
  | Arrive buf message =>
    match inflight s !! buf with
    | Some _ => Some (s, [])
    | None =>
      let after := <[buf := overwrite message (contents (memory s) buf)]> (memory s) in
      if (String.length (contents (memory s) buf) <? String.length message)%nat
         && aliased buf (entries s)
      then None
      else
        Some (mkState after (mark (memory s) after <$> entries s)
                (<[buf := Arrived (Arg buf (String.length message))]> (inflight s)),
              [])
    end
  | Dedup buf now =>
    match inflight s !! buf with
    | Some (Arrived message) =>
      if String.eqb (bytes (memory s) message) "" then
        Some (mkState (memory s) (entries s) (delete buf (inflight s)),
              [(buf, JSON StatusBadRequest "message parameter is required")])
      else
        let decodedMessage := decodeMessage (memory s) message in
        let proceed :=
          Some (mkState (memory s) (entries s)
                  (<[buf := Checked decodedMessage]> (inflight s)), []) in
        match find (memory s) (entries s) (bytes (memory s) decodedMessage) with
        | Unknown => None
        | Absent => proceed
        | Present _ e =>
          if bool_decide (now - lastTime e < Window)
          then Some (mkState (memory s) (entries s) (delete buf (inflight s)),
                     [(buf, duplicate)])
          else proceed
        end
    | _ => Some (s, [])
    end
  | Accept buf now =>
    match inflight s !! buf with
    | Some (Checked decodedMessage) =>
      let q := bytes (memory s) decodedMessage in
      let stream := [(buf, EventStream StatusOK sseHeaders q)] in
      match find (memory s) (entries s) q with
      | Unknown => None
      | Absent =>
        Some (mkState (memory s) (entries s ++ [mkEntry decodedMessage now false])
                (delete buf (inflight s)), stream)
      | Present i _ =>
        Some (mkState (memory s) (<[i := mkEntry decodedMessage now false]> (entries s))
                (delete buf (inflight s)), stream)
      end
    | _ => Some (s, [])
    end
  | Tick now =>
    match sweep (memory s) (entries s) now with
    | Some l => Some (mkState (memory s) l (inflight s), [])
    | None => None
    end
  end.

Fixpoint run (s : State) (steps : list Step) : option (State * list (nat * Response)) :=
  match steps with
  | [] => Some (s, [])
  | x :: rest =>
    match step s x with
    | Some (s1, r1) =>
      match run s1 rest with
      | Some (s2, r2) => Some (s2, r1 ++ r2)
      | None => None
      end
    | None => None
    end
  end.

(** The responses of a run. *)
Definition responses (s : State) (steps : list Step) : option (list (nat * Response)) :=
  snd <$> run s steps.

(** A request handled with no other step in between: [message] is read
    into the array [buf], the check reads the clock at [tcheck] and the
    recording at [trecord]. *)
Record Call : Type := mkCall {
  call_buf : nat;
  call_check : Z;
  call_record : Z;
  call_message : string
}.

Definition alone (c : Call) : list Step :=
  [ Arrive (call_buf c) (call_message c);
    Dedup (call_buf c) (call_check c);
    Accept (call_buf c) (call_record c) ].

(** Requests handled one after the other. *)
Definition sequential (cs : list Call) : list Step := cs ≫= alone.

(** A parameter that [url.QueryUnescape] rewrites into [d]: it holds a [+]
    or a [%], and the decoded text is a string of its own. *)
Definition rewritten (d : string) (c : Call) : Prop :=
  Codec.QueryUnescape (call_message c) = Some d /\ Bytes.plain (call_message c) = false.

(** An entry whose key has bytes of its own, and the text it reads. *)
Definition owns (e : Entry) : bool :=
  match key e with
  | Fresh _ => negb (moved e)
  | Arg _ _ => false
  end.

Definition keyText (e : Entry) : string := bytes ∅ (key e).

(** A table all of whose keys have bytes of their own, and the map from
    texts to instants it then is. *)
Definition owned (s : State) : Prop :=
  Forall (fun e => owns e = true) (entries s) /\ NoDup (keyText <$> entries s).

Definition table (s : State) : ChatHandler :=
  mkChatHandler (list_to_map ((fun e => (keyText e, lastTime e)) <$> entries s)).

End Server.

(* ===================================================================== *)
(** * The stores' other actions: frontend/src/stores                       *)
(* ===================================================================== *)

Module ChatStore.

Import Consumer.

(** [clearChat]: the store back to its initial state.  The hook's refs and
    its EventSource are not the store's: they stay as they are. *)
Definition clearChat : World -> World :=
  onStore (fun _ => initialChatState).

(** The combination of two [Partial<Message>], the later one winning:
    [{ ...first, ...second }]. *)
Definition override {A : Type} (first second : option A) : option A :=
  match second with
  | Some x => Some x
  | None => first
  end.

Definition both (first second : Updates) : Updates :=
  mkUpdates
    (override (upd_id first) (upd_id second))
    (override (upd_type first) (upd_type second))
    (override (upd_content first) (upd_content second))
    (override (upd_timestamp first) (upd_timestamp second))
    (override (upd_isStreaming first) (upd_isStreaming second))
    (override (upd_activities first) (upd_activities second))
    (override (upd_images first) (upd_images second))
    (override (upd_metadata first) (upd_metadata second)).

End ChatStore.

(* ===================================================================== *)
(** * More on the hook's environment                                       *)
(* ===================================================================== *)

Module Session.

Import Consumer.

(** The inputs that come from the user agent, not from the component. *)
Definition fromTransport (timed : Z * Input) : bool :=
  match snd timed with
  | Opened _ | Received _ _ | Failed _ _ | Reestablish _ => true
  | SendMessage _ | Reconnect | Unmount => false
  end.

(** The value the consumer's [JSON.parse] makes of an event the producer
    marshals, as an element of a batch. *)
Definition valueOf (e : Producer.Event) : JSValue :=
  match Transport.frameOf e with
  | Single v => v
  | _ => Falsy
  end.

(** Every message of the log has an id. *)
Definition identified (w : World) : Prop :=
  Forall (fun m => msg_id m <> "") (messages (store w)).

(** What the second revision keeps between two steps: a source exists only
    for an endpoint that passes the checks of [setupEventSource], and while
    [isConnected] is raised the hook returns no error. *)
Definition connectedClean (p : Props) (w : World) : Prop :=
  (sources w <> [] -> validEndpoint V2 p = true)
  /\ (isConnected (hook w) = true ->
      returnedError V2 w = None /\ sources w <> []).

End Session.

Module UserStore.

(** [l.slice(-n)]: the last [n] elements, all of them when there are
    fewer. *)
Definition sliceLast {A : Type} (n : nat) (l : list A) : list A :=
  drop (length l - n) l.

(** [addToChatHistory]: the history keeps its last hundred ids. *)
Definition addToChatHistory (messageId : string) (chatHistory : list string)
  : list string :=
  sliceLast 100 (chatHistory ++ [messageId]).

End UserStore.

(* ===================================================================== *)
(** * The reconnection budget of SafeEventSource                           *)
(* ===================================================================== *)

Module Budget.

Import SafeEventSource.

(** The object has used up its automatic reconnections and none is
    pending. *)
Definition exhausted (e : Env) : Prop :=
  numberOr (maxReconnectAttempts (config (self e))) 3 <= reconnectAttempts (self e)
  /\ timers e = [].

End Budget.

(* ===================================================================== *)
(** * detectEventSourceLoop: frontend/src/utils/eventSource.ts             *)
(* ===================================================================== *)

Module Loop.

(** [s.endsWith(suffix)]. *)
Fixpoint endsWith (s suffix : string) : bool :=
  String.eqb s suffix ||
  match s with
  | EmptyString => false
  | String _ s' => endsWith s' suffix
  end.

(** The text of [Math.floor(now / timeWindow)] in a template literal, on
    integers: the quotient rounded down; a division by zero gives an
    infinity, and no number when [now] is zero too. *)
Definition bucket (timeWindow now : Z) : string :=
  if timeWindow =? 0 then
    if now =? 0 then "NaN" else if 0 <? now then "Infinity" else "-Infinity"
  else Text.itoa (now / timeWindow).

Definition defaultTimeWindow : Z := 10000.

(** The key of a URL in the window [now] falls in. *)
Definition keyOf (url : string) (timeWindow now : Z) : string :=
  url +:+ "_" +:+ bucket timeWindow now.

(** [detectEventSourceLoop]: the map after the call, and the answer. *)
Definition detectEventSourceLoop (eventCounts : gmap string Z) (url : string)
  (timeWindow now : Z) : gmap string Z * bool :=
  let key := keyOf url timeWindow now in
  let count := default 0 (eventCounts !! key) in
  let eventCounts := <[key := count + 1]> eventCounts in
  let eventCounts :=
    filter (fun kv => endsWith kv.1 ("_" +:+ bucket timeWindow now) = true)
      eventCounts in
  (eventCounts, bool_decide (5 < count)).

(** The answers of successive calls for one URL, at the instants [nows]. *)
Fixpoint detections (eventCounts : gmap string Z) (url : string)
  (timeWindow : Z) (nows : list Z) : list bool :=
  match nows with
  | [] => []
  | now :: rest =>
    let '(eventCounts, answer) := detectEventSourceLoop eventCounts url timeWindow now in
    answer :: detections eventCounts url timeWindow rest
  end.

End Loop.

(* ===================================================================== *)
(** * The chat component: frontend/src/components/chat                     *)
(* ===================================================================== *)

Module ChatUI.

Import Consumer.

(** What [ErrorDisplay] shows; the pictograph is left out. *)
Record ErrorDetails : Type := mkErrorDetails {
  title : string;
  message : string;
  action : option string
}.

(** [a || b] on two strings that may be missing. *)
Definition orUndefined (a b : option string) : option string :=
  match a with
  | Some s => if String.eqb s "" then b else Some s
  | None => b
  end.

(** [!!a]. *)
Definition truthy (a : option string) : bool :=
  match a with
  | Some s => negb (String.eqb s "")
  | None => false
  end.

(** [error?.includes(sub)]. *)
Definition includes (error : option string) (sub : string) : bool :=
  match error with
  | Some s => Producer.Contains s sub
  | None => false
  end.

(** [getErrorDetails] of [ErrorDisplay]. *)
Definition getErrorDetails (isConnected : bool) (error : option string)
  : ErrorDetails :=
  if negb isConnected then
    mkErrorDetails "Connection Issue"
      "Unable to connect to server. Please ensure the backend is running on port 8080."
      (Some "Retry Connection")
  else if includes error "Duplicate message" then
    mkErrorDetails "Duplicate Message"
      "Please wait a moment before sending the same message again." None
  else if includes error "Too Many Requests" then
    mkErrorDetails "Rate Limited"
      "Too many requests. Please wait a moment before trying again." None
  else
    mkErrorDetails "Error" (orElse error "An unexpected error occurred")
      (Some "Retry").

(** [ErrorDisplay]: [None] is nothing rendered. *)
Definition ErrorDisplay (hasError isConnected : bool) (error : option string)
  : option ErrorDetails :=
  if negb hasError then None else Some (getErrorDetails isConnected error).

(** What [ChatInterface] hands to [ErrorDisplay]: [chatError] is the
    store's error, [connectionError] the error the hook returns. *)
Definition errorShown (v : Version) (w : World) : option ErrorDetails :=
  let chatError := error (store w) in
  let connectionError := returnedError v w in
  let hasError := orUndefined chatError connectionError in
  ErrorDisplay (truthy hasError) (isConnected (hook w)) hasError.

(** The updater [ChatInterface] passes to [setToolExecutions] from its
    [onToolExecution]: the set of the names of the tools at work. *)
Definition toolExecution (toolName : string) (isStart : bool) (prev : gset string)
  : gset string :=
  if isStart then {[toolName]} ∪ prev else prev ∖ {[toolName]}.

(** The set after the calls the hook has made of its callbacks. *)
Definition toolExecutions (calls : list Callback) : gset string :=
  fold_left
    (fun prev c =>
       match c with
       | onToolExecution toolName isStart => toolExecution toolName isStart prev
       | onError _ => prev
       end)
    calls ∅.

(** [hasActiveTools]: [toolExecutions.size > 0]. *)
Definition hasActiveTools (calls : list Callback) : bool :=
  bool_decide (toolExecutions calls <> ∅).

(** Whether the last call made for a tool was a start; [None] when there
    was none. *)
Fixpoint lastTool (toolName : string) (calls : list Callback) : option bool :=
  match calls with
  | [] => None
  | c :: rest =>
    match lastTool toolName rest with
    | Some b => Some b
    | None =>
      match c with
      | onToolExecution n b => if String.eqb n toolName then Some b else None
      | onError _ => None
      end
    end
  end.

(** One rune that [String.prototype.trim] strips, taken off the front of
    [s]: the rest of [s], or [None] when [s] does not start with one.  The
    runes are ECMAScript's WhiteSpace and LineTerminator, in UTF-8: U+0009
    to U+000D, U+0020, U+00A0, U+1680, U+2000 to U+200A, U+2028, U+2029,
    U+202F, U+205F, U+3000 and U+FEFF. *)
Definition dropSpace (s : string) : option string :=
  match s with
  | EmptyString => None
  | String c0 s1 =>
    let b0 := N_of_ascii c0 in
    if ((9 <=? b0) && (b0 <=? 13) || (b0 =? 32))%N then Some s1
    else
      match s1 with
      | EmptyString => None
      | String c1 s2 =>
        let b1 := N_of_ascii c1 in
        if ((b0 =? 194) && (b1 =? 160))%N then Some s2
        else
          match s2 with
          | EmptyString => None
          | String c2 s3 =>
            let b2 := N_of_ascii c2 in
            if ((b0 =? 225) && (b1 =? 154) && (b2 =? 128))%N then Some s3
            else if ((b0 =? 226) && (b1 =? 128)
                     && ((128 <=? b2) && (b2 <=? 138)
                         || (b2 =? 168) || (b2 =? 169) || (b2 =? 175)))%N
                 then Some s3
            else if ((b0 =? 226) && (b1 =? 129) && (b2 =? 159))%N then Some s3
            else if ((b0 =? 227) && (b1 =? 128) && (b2 =? 128))%N then Some s3
            else if ((b0 =? 239) && (b1 =? 187) && (b2 =? 191))%N then Some s3
            else None
          end
      end
  end.

(** [s.trimStart()]: at most [n] runes stripped; a text has no more runes
    than bytes. *)
Fixpoint trimStartN (n : nat) (s : string) : string :=
  match n with
  | O => s
  | S n' =>
    match dropSpace s with
    | Some rest => trimStartN n' rest
    | None => s
    end
  end.

Definition trimStart (s : string) : string := trimStartN (String.length s) s.

(** [s.trimEnd()]: [s] cut where what remains is white space only. *)
Fixpoint trimEnd (s : string) : string :=
  match s with
  | EmptyString => EmptyString
  | String c s' =>
    if String.eqb (trimStart s) "" then EmptyString else String c (trimEnd s')
  end.

(** [s.trim()]. *)
Definition trim (s : string) : string := trimEnd (trimStart s).

(** [handleSubmit] of [ChatInput]: what it passes to [onSendMessage], if
    anything, and the text left in the input. *)
Definition handleSubmit (disabled : bool) (message : string)
  : option string * string :=
  if String.eqb (trim message) "" || disabled then (None, message)
  else (Some (trim message), "").

(** [handleSendMessage] of [ChatInterface]. *)
Definition handleSendMessage (v : Version) (p : Props) (now : Z)
  (message : string) (w : World) : World :=
  if String.eqb (trim message) "" || isStreaming (store w) then w
  else sendMessage v p now (trim message) w.

(** The input of the chat component: [ChatInput], disabled while
    streaming, with [handleSendMessage] as its [onSendMessage]. *)
Definition submit (v : Version) (p : Props) (now : Z) (message : string)
  (w : World) : World * string :=
  match handleSubmit (isStreaming (store w)) message with
  | (Some text, input) => (handleSendMessage v p now text w, input)
  | (None, input) => (w, input)
  end.

End ChatUI.

(* ===================================================================== *)
(** * Facts: percent-coding                                                *)
(* ===================================================================== *)

Section CodecFacts.

Import Codec.

Lemma decodeArg_formEncode_cons (c : ascii) (s : string) :
  decodeArg (formEncode (String c s)) = String c (decodeArg (formEncode s)).
Proof. destruct c as [[] [] [] [] [] [] [] []]; reflexivity. Qed.

(** The query-argument decoder undoes the serializer of [URLSearchParams]. *)
Lemma decodeArg_formEncode (s : string) : decodeArg (formEncode s) = s.
Proof.
  induction s as [|c s IH]; [reflexivity|].
  rewrite decodeArg_formEncode_cons, IH. reflexivity.
Qed.

Lemma QueryUnescape_encodeURIComponent_cons (c : ascii) (s : string) :
  QueryUnescape (encodeURIComponent (String c s)) =
  match QueryUnescape (encodeURIComponent s) with
  | Some r => Some (String c r)
  | None => None
  end.
Proof. destruct c as [[] [] [] [] [] [] [] []]; reflexivity. Qed.

(** [url.QueryUnescape] undoes [encodeURIComponent], without error. *)
Lemma QueryUnescape_encodeURIComponent (s : string) :
  QueryUnescape (encodeURIComponent s) = Some s.
Proof.
  induction s as [|c s IH]; [reflexivity|].
  rewrite QueryUnescape_encodeURIComponent_cons, IH. reflexivity.
Qed.

(** A text with neither [+] nor [%] is left as it is by [QueryUnescape]. *)
Lemma QueryUnescape_plain (s : string) :
  forallb (fun c => negb (Ascii.eqb c "+" || Ascii.eqb c "%"))
    (list_ascii_of_string s) = true ->
  QueryUnescape s = Some s.
Proof.
  induction s as [|c s IH]; [reflexivity|].
  cbn [list_ascii_of_string forallb]. intros [Hc Hs]%andb_prop.
  apply negb_true_iff, orb_false_elim in Hc as [Hplus Hpct].
  cbn [QueryUnescape]. rewrite Hpct, Hplus, (IH Hs). reflexivity.
Qed.

End CodecFacts.

(* ===================================================================== *)
(** * Facts: the dedup table                                               *)
(* ===================================================================== *)

Section ProducerFacts.
Import Producer.

Lemma isRecentMessage_true (h : ChatHandler) (now : Z) (q : string) :
  isRecentMessage h now q = true <->
  exists t, recentMessages h !! q = Some t /\ now - t < Window.
Proof.
  unfold isRecentMessage. destruct (recentMessages h !! q) as [t|].
  - rewrite bool_decide_eq_true. split; [eauto|]. intros (t' & [= <-] & ?). done.
  - split; [done|]. intros (t & [=] & _).
Qed.

Lemma isRecentMessage_recorded (h : ChatHandler) (tr now : Z) (q : string) :
  isRecentMessage (recordMessage h tr q) now q = bool_decide (now - tr < Window).
Proof.
  unfold isRecentMessage, recordMessage. cbn. by rewrite lookup_insert_eq.
Qed.



End ProducerFacts.

(* ===================================================================== *)
(** * Facts: the stream writer                                             *)
(* ===================================================================== *)

Section WriterFacts.
Import Producer.

Lemma length_textEvents (n i : Z) (words : list string) :
  length (textEvents n i words) = length words.
Proof. revert i. induction words as [|w words IH]; intros i; cbn; [done|]. by rewrite IH. Qed.

Lemma textEvents_lookup (n i : Z) (words : list string) (k : nat) (word : string) :
  words !! k = Some word ->
  textEvents n i words !! k = Some (textEvent n (i + Z.of_nat k) word).
Proof.
  revert i k. induction words as [|w words IH]; intros i k Hk; [done|].
  destruct k as [|k]; cbn in *.
  - injection Hk as ->. by rewrite Z.add_0_r.
  - rewrite (IH _ _ Hk). do 2 f_equal. lia.
Qed.

Lemma length_frame (data : string) : (6 <= String.length (frame data))%nat.
Proof.
  unfold frame.
  repeat change (String ?c ?a +:+ ?b) with (String c (a +:+ b)).
  cbn [String.length]. lia.
Qed.

Lemma not_ok_failed (Marshal : Event -> string) (conn : nat -> bool) (w : Writer) (e : Event) :
  (writeEvent Marshal conn w e).2 = false ->
  failed (writeEvent Marshal conn w e).1 = true.
Proof.
  unfold writeEvent, Write. destruct (failed w) eqn:Hf; [done|].
  repeat match goal with
         | |- context [if ?c then _ else _] => destruct c
         end; done.
Qed.

Lemma Flush_failed (conn : nat -> bool) (w : Writer) :
  failed w = true -> Flush conn w = w.
Proof. intros Hf. unfold Flush. by rewrite Hf. Qed.

Lemma Flush_Flush (conn : nat -> bool) (w : Writer) :
  Flush conn (Flush conn w) = Flush conn w.
Proof.
  unfold Flush. destruct (failed w) eqn:Hf; [by rewrite Hf|].
  destruct (used w =? 0)%nat eqn:Hu; [by rewrite Hf, Hu|].
  by destruct (conn (writes w)).
Qed.

(** An event written to a clear writer and flushed: the connection takes
    it in one write, or refuses it, which the writer remembers. *)
Lemma emit_taken (Marshal : Event -> string) (conn : nat -> bool) (w : Writer) (e : Event) :
  clear w -> conn (writes w) = true ->
  (writeEvent Marshal conn w e).2 = true
  /\ Flush conn (writeEvent Marshal conn w e).1
     = mkWriter [] 0 (delivered w ++ [e]) false (S (writes w)).
Proof.
  intros (Hf & Hb & Hu) Hc. unfold writeEvent, Write.
  pose proof (length_frame (Marshal e)) as Hlen.
  rewrite Hf, Hb, Hu, Nat.sub_0_r, Hc. cbn [Nat.eqb app Nat.add].
  destruct (String.length (frame (Marshal e)) <=? defaultBufSize)%nat; [|done].
  split; [done|]. unfold Flush. cbn [failed used writes delivered buffered fst].
  rewrite Hc. destruct (String.length (frame (Marshal e))); [lia|done].
Qed.

Lemma emit_refused (Marshal : Event -> string) (conn : nat -> bool) (w : Writer) (e : Event) :
  clear w -> conn (writes w) = false ->
  let w' := Flush conn (writeEvent Marshal conn w e).1 in
  failed w' = true /\ delivered w' = delivered w /\ writes w' = writes w
  /\ (length (buffered w') <= 1)%nat.
Proof.
  intros (Hf & Hb & Hu) Hc. unfold writeEvent, Write.
  pose proof (length_frame (Marshal e)) as Hlen.
  rewrite Hf, Hb, Hu, Nat.sub_0_r, Hc. cbn [Nat.eqb app Nat.add].
  destruct (String.length (frame (Marshal e)) <=? defaultBufSize)%nat; cbn zeta.
  - unfold Flush. cbn [failed used writes delivered buffered fst].
    rewrite Hc. destruct (String.length (frame (Marshal e))); [lia|]. cbn. auto.
  - cbn. auto.
Qed.

Lemma emit_failed (Marshal : Event -> string) (conn : nat -> bool) (w : Writer) (e : Event) :
  failed w = true -> Flush conn (writeEvent Marshal conn w e).1 = w.
Proof.
  intros Hf. unfold writeEvent, Write. rewrite Hf. by apply Flush_failed.
Qed.

(** The word loop, one event at a time: a write that returns an error
    leaves a failed writer, on which a flush does nothing. *)
Lemma streamWords_cons (Marshal : Event -> string) (conn : nat -> bool) (n i : Z)
  (word : string) (rest : list string) (w : Writer) :
  streamWords Marshal conn n i (word :: rest) w
  = streamWords Marshal conn n (i + 1) rest
      (Flush conn (writeEvent Marshal conn w (textEvent n i word)).1).
Proof.
  cbn [streamWords].
  pose proof (not_ok_failed Marshal conn w (textEvent n i word)) as Hno.
  destruct (writeEvent Marshal conn w (textEvent n i word)) as [w1 [|]]; [done|].
  cbn [fst snd] in *. rewrite Flush_failed by auto.
  destruct rest as [|word2 rest]; [done|]. cbn [streamWords].
  unfold writeEvent, Write. by rewrite Hno.
Qed.

Lemma streamWords_failed (Marshal : Event -> string) (conn : nat -> bool) (n i : Z)
  (words : list string) (w : Writer) :
  failed w = true -> streamWords Marshal conn n i words w = w.
Proof.
  intros Hf. destruct words as [|word rest]; [done|].
  cbn. unfold writeEvent, Write. by rewrite Hf.
Qed.

(** The word loop delivers a prefix of its events, one write each; the
    whole of them when the writer has not failed at the end. *)
Lemma streamWords_delivered (Marshal : Event -> string) (conn : nat -> bool) (n i : Z)
  (words : list string) (w : Writer) :
  clear w ->
  let w' := streamWords Marshal conn n i words w in
  exists k : nat,
    delivered w' = delivered w ++ take k (textEvents n i words)
    /\ writes w' = (writes w + k)%nat
    /\ (k <= length words)%nat
    /\ (forall j, (writes w <= j < writes w + k)%nat -> conn j = true)
    /\ (failed w' = false -> k = length words /\ clear w')
    /\ (failed w' = true -> conn (writes w') = false /\ (length (buffered w') <= 1)%nat).
Proof.
  revert i w. induction words as [|word rest IH]; intros i w Hw.
  - exists 0%nat. cbn. rewrite app_nil_r, Nat.add_0_r. pose proof Hw as (Hf & _).
    split; [done|]. split; [done|]. split; [done|]. split; [intros j; lia|].
    split; [by intros _|]. intros H. congruence.
  - cbn zeta. rewrite streamWords_cons. destruct (conn (writes w)) eqn:Hc.
    + destruct (emit_taken Marshal conn w (textEvent n i word) Hw Hc) as [_ ->].
      destruct (IH (i + 1) (mkWriter [] 0 (delivered w ++ [textEvent n i word]) false
                              (S (writes w))))
        as (k & Hd & Hn & Hk & Hj & Hok & Hko); [done|].
      exists (S k). cbn [take length textEvents]. cbn zeta in *.
      set (w3 := streamWords _ _ _ _ _ _) in *. cbn [delivered writes] in Hd, Hn, Hj.
      rewrite Hd, <- app_assoc. cbn [app].
      split; [done|]. split; [lia|]. split; [lia|]. split.
      { intros j Hjr. destruct (decide (j = writes w)) as [->|]; [done|].
        apply Hj. lia. }
      split; [|done].
      intros Hnf. destruct (Hok Hnf) as [-> ?]. done.
    + destruct (emit_refused Marshal conn w (textEvent n i word) Hw Hc)
        as (Hf & Hd & Hn & Hb).
      rewrite streamWords_failed by done. exists 0%nat. cbn [take].
      rewrite app_nil_r, Nat.add_0_r, Hf, Hn.
      split; [done|]. split; [done|]. split; [lia|]. split; [intros j; lia|].
      split; [done|]. auto.
Qed.

(** A run of the writer that gets past its first statement and whose
    generator returns, as a chain of events written and flushed. *)
Lemma streamWriter_eq (ip : string) (Marshal : Event -> string)
  (generate : string -> option string) (conn : nat -> bool) (now : Z)
  (q response : string) :
  generate q = Some response ->
  streamWriter (Some ip) Marshal generate conn now q
  = (Returned,
     Flush conn
       (writeEvent Marshal conn
          (streamWords Marshal conn (Z.of_nat (length (Text.Fields response))) 0
             (Text.Fields response)
             (Flush conn
                (writeEvent Marshal conn newWriter
                   (StreamingStartEvent ("msg-" +:+ Text.itoa now))).1))
          StreamingEndEvent).1).
Proof.
  intros Hg. unfold streamWriter. rewrite Hg.
  pose proof (not_ok_failed Marshal conn newWriter
                (StreamingStartEvent ("msg-" +:+ Text.itoa now))) as Hno.
  destruct (writeEvent Marshal conn newWriter _) as [w1 [|]]; cbn [negb fst snd] in *.
  - destruct (writeEvent Marshal conn _ StreamingEndEvent) as [w4 ok].
    cbn [fst]. by rewrite Flush_Flush.
  - rewrite (Flush_failed conn w1) by auto.
    rewrite streamWords_failed by auto. rewrite emit_failed by auto. done.
Qed.

(** Whatever the connection does, the client receives a prefix of the
    sequence, one write of the connection for each event; a proper prefix
    when a write was refused, the whole sequence otherwise. *)
Lemma streamWriter_prefix (ip : string) (Marshal : Event -> string)
  (generate : string -> option string) (conn : nat -> bool) (now : Z)
  (q response : string) :
  generate q = Some response ->
  let w := (streamWriter (Some ip) Marshal generate conn now q).2 in
  exists k : nat,
    delivered w = take k (streamOf now response)
    /\ writes w = k
    /\ (forall j, (j < k)%nat -> conn j = true)
    /\ (if failed w
        then (k < length (streamOf now response))%nat /\ conn k = false
             /\ (length (buffered w) <= 1)%nat
        else k = length (streamOf now response) /\ clear w).
Proof.
  intros Hg. cbn zeta. rewrite (streamWriter_eq _ _ _ _ _ _ _ Hg). cbn [snd].
  unfold streamOf, fullStream.
  set (words := Text.Fields response).
  set (n := Z.of_nat (length words)).
  set (start := StreamingStartEvent _).
  assert (clear newWriter) as Hnew by done.
  destruct (conn 0%nat) eqn:Hc0.
  - destruct (emit_taken Marshal conn newWriter start Hnew Hc0) as [_ ->].
    cbn [newWriter delivered writes app].
    destruct (streamWords_delivered Marshal conn n 0 words (mkWriter [] 0 [start] false 1))
      as (k & Hd & Hn & Hk & Hj & Hok & Hko); [done|].
    cbn zeta in *. set (w3 := streamWords Marshal conn n 0 words _) in *.
    cbn [delivered writes] in Hd, Hn, Hj.
    assert (forall j, (j < S k)%nat -> conn j = true) as Hjs.
    { intros j Hjk. destruct j as [|j]; [done|]. apply Hj. lia. }
    destruct (failed w3) eqn:Hf.
    + rewrite emit_failed by done. exists (S k). rewrite Hd, Hn, Hf.
      cbn [take app]. rewrite take_app_le by (by rewrite length_textEvents).
      destruct (Hko eq_refl) as [Hck Hb]. rewrite Hn in Hck.
      split; [done|]. split; [done|]. split; [done|]. split; [|done].
      cbn. rewrite length_app, length_textEvents. cbn. lia.
    + destruct (Hok eq_refl) as [-> Hclear].
      destruct (conn (writes w3)) eqn:Hc.
      * destruct (emit_taken Marshal conn w3 StreamingEndEvent Hclear Hc) as [_ ->].
        exists (S (length words + 1)). cbn [delivered writes failed take]. rewrite Hd, Hn.
        cbn [app].
        rewrite (take_ge (textEvents n 0 words ++ [StreamingEndEvent]))
          by (rewrite length_app, length_textEvents; cbn; lia).
        rewrite <- (length_textEvents n 0 words) at 1. rewrite firstn_all.
        split; [done|]. split; [lia|]. split.
        { intros j Hjk. destruct (decide (j = S (length words))) as [->|].
          - by rewrite Hn in Hc.
          - apply Hjs. lia. }
        split; [|done].
        cbn. by rewrite length_app, length_textEvents.
      * destruct (emit_refused Marshal conn w3 StreamingEndEvent Hclear Hc)
          as (Hf' & Hd' & Hn' & Hb').
        exists (S (length words)). rewrite Hf', Hd', Hn', Hd, Hn.
        cbn [take app]. split.
        { f_equal. by rewrite take_app_le by (by rewrite length_textEvents). }
        split; [lia|]. split; [done|]. split; [|split; [by rewrite Hn in Hc|done]].
        cbn. rewrite length_app, length_textEvents. cbn. lia.
  - destruct (emit_refused Marshal conn newWriter start Hnew Hc0) as (Hf & Hd & Hn & Hb).
    rewrite streamWords_failed by done. rewrite emit_failed by done.
    exists 0%nat. rewrite Hf, Hd, Hn. cbn.
    split; [done|]. split; [done|]. split; [intros j; lia|]. split; [lia|]. auto.
Qed.

(** With a connection that takes every write, the client receives the whole
    sequence. *)
Lemma streamWriter_ok (ip : string) (Marshal : Event -> string)
  (generate : string -> option string) (conn : nat -> bool) (now : Z)
  (q response : string) :
  generate q = Some response -> (forall k, conn k = true) ->
  let w := (streamWriter (Some ip) Marshal generate conn now q).2 in
  delivered w = streamOf now response /\ failed w = false.
Proof.
  intros Hg Hconn. cbn zeta.
  destruct (streamWriter_prefix ip Marshal generate conn now q response Hg)
    as (k & Hd & _ & _ & Hk). cbn zeta in *.
  destruct (failed _); [destruct Hk as (_ & Hc & _); by rewrite Hconn in Hc|].
  destruct Hk as [-> _]. by rewrite Hd, firstn_all.
Qed.

(** The two ways a run ends early: the panic of the first statement, which
    nothing catches, and a panic of the generator, which the deferred
    function catches after [StreamingStart] has been written. *)
Lemma streamWriter_crashed (Marshal : Event -> string)
  (generate : string -> option string) (conn : nat -> bool) (now : Z) (q : string) :
  streamWriter None Marshal generate conn now q = (Crashed, newWriter).
Proof. done. Qed.

Lemma streamWriter_recovered (ip : string) (Marshal : Event -> string)
  (generate : string -> option string) (conn : nat -> bool) (now : Z) (q : string) :
  generate q = None ->
  let r := streamWriter (Some ip) Marshal generate conn now q in
  let start := StreamingStartEvent ("msg-" +:+ Text.itoa now) in
  if conn 0%nat
  then r = (Recovered, mkWriter [] 0 [start] false 1)
  else r.1 = (if (writeEvent Marshal conn newWriter start).2 then Recovered else Returned)
       /\ failed r.2 = true /\ delivered r.2 = [].
Proof.
  intros Hg. cbn zeta. unfold streamWriter. rewrite Hg.
  set (start := StreamingStartEvent _).
  assert (clear newWriter) as Hnew by done.
  destruct (conn 0%nat) eqn:Hc0.
  - destruct (emit_taken Marshal conn newWriter start Hnew Hc0) as [Hok Hw].
    destruct (writeEvent Marshal conn newWriter start) as [w1 ok].
    cbn [fst snd] in *. subst ok. cbn [negb]. by rewrite Hw.
  - destruct (emit_refused Marshal conn newWriter start Hnew Hc0) as (Hf & Hd & _).
    destruct (writeEvent Marshal conn newWriter start) as [w1 [|]];
      cbn [fst snd negb] in *; rewrite ?Flush_Flush; done.
Qed.

Lemma textEvents_no_End (n i : Z) (words : list string) :
  StreamingEndEvent ∉ textEvents n i words.
Proof.
  revert i. induction words as [|w words IH]; intros i; cbn.
  - apply not_elem_of_nil.
  - apply not_elem_of_cons. split; [done|]. apply IH.
Qed.

(** [StreamingEndEvent] is the last event of the sequence and no other. *)
Lemma take_fullStream_no_End (generate : string -> string) (now : Z) (q : string) (k : nat) :
  (k < length (fullStream generate now q))%nat ->
  StreamingEndEvent ∉ take k (fullStream generate now q).
Proof.
  unfold fullStream. intros Hk. cbn in Hk. rewrite length_app in Hk. cbn in Hk.
  destruct k as [|k]; [apply not_elem_of_nil|]. cbn [take].
  apply not_elem_of_cons. split; [done|].
  rewrite take_app_le by lia. intros Hin%subseteq_take.
  by apply textEvents_no_End in Hin.
Qed.

Lemma textEvents_no_Error (n i : Z) (words : list string) (m : string) :
  ErrorEvent m ∉ textEvents n i words.
Proof.
  revert i. induction words as [|w words IH]; intros i; cbn.
  - apply not_elem_of_nil.
  - apply not_elem_of_cons. split; [done|]. apply IH.
Qed.

Lemma fullStream_no_Error (generate : string -> string) (now : Z) (q m : string) :
  ErrorEvent m ∉ fullStream generate now q.
Proof.
  unfold fullStream. apply not_elem_of_cons. split; [done|].
  apply not_elem_of_app. split; [apply textEvents_no_Error|].
  apply not_elem_of_cons. split; [done|]. apply not_elem_of_nil.
Qed.

End WriterFacts.

(* ===================================================================== *)
(** * Facts: the handler inside the server                                 *)
(* ===================================================================== *)

Section ServerFacts.
Import Producer Server.

Lemma bytes_decodeMessage (memory : gmap nat string) (message : GoString) :
  bytes memory (Server.decodeMessage memory message)
  = Producer.decodeMessage (bytes memory message).
Proof.
  unfold Server.decodeMessage, Producer.decodeMessage.
  destruct (Codec.QueryUnescape (bytes memory message)) as [decoded|] eqn:Hd; [|done].
  destruct (Bytes.plain (bytes memory message)) eqn:Hp; [|done].
  apply QueryUnescape_plain in Hp. congruence.
Qed.

Lemma readers_app (memory : gmap nat string) (q : string) (i : nat) (l1 l2 : list Entry) :
  readers memory q i (l1 ++ l2)
  = readers memory q i l1 ++ readers memory q (i + length l1) l2.
Proof.
  revert i. induction l1 as [|e l1 IH]; intros i; cbn [readers app length].
  - by rewrite Nat.add_0_r.
  - rewrite IH, <- app_assoc. do 3 f_equal. lia.
Qed.

(** Two requests for one text that the table does not hold, handled at
    once: each passes the check before the other records. *)
Lemma both_pass (s : State) (b1 b2 : nat) (m1 m2 : GoString) (t1 t2 t3 t4 : Z) :
  b1 <> b2 ->
  inflight s !! b1 = Some (Arrived m1) -> inflight s !! b2 = Some (Arrived m2) ->
  bytes (memory s) m1 <> "" -> bytes (memory s) m2 <> "" ->
  Producer.decodeMessage (bytes (memory s) m2)
  = Producer.decodeMessage (bytes (memory s) m1) ->
  readers (memory s) (Producer.decodeMessage (bytes (memory s) m1)) 0 (entries s) = [] ->
  responses s [Dedup b1 t1; Dedup b2 t2; Accept b1 t3; Accept b2 t4]
  = Some [ (b1, EventStream StatusOK sseHeaders
                  (Producer.decodeMessage (bytes (memory s) m1)));
           (b2, EventStream StatusOK sseHeaders
                  (Producer.decodeMessage (bytes (memory s) m1))) ].
Proof.
  intros Hb H1 H2 Hne1 Hne2 Hsame Hnew.
  apply String.eqb_neq in Hne1, Hne2.
  set (q := Producer.decodeMessage (bytes (memory s) m1)) in *.
  unfold responses. cbn [run].
  (* the check of the first *)
  cbn [step]. rewrite H1, Hne1. cbn zeta. rewrite bytes_decodeMessage. fold q.
  unfold find at 1. rewrite Hnew. cbn [memory entries inflight].
  (* the check of the second *)
  cbn [step memory entries inflight].
  rewrite lookup_insert_ne, H2, Hne2 by done. cbn zeta.
  rewrite bytes_decodeMessage, Hsame. fold q.
  unfold find at 1. rewrite Hnew. cbn [memory entries inflight].
  (* the recording of the first *)
  cbn [step memory entries inflight].
  rewrite lookup_insert_ne, lookup_insert_eq by done. cbn zeta.
  rewrite bytes_decodeMessage. fold q.
  unfold find at 1. rewrite Hnew. cbn [memory entries inflight].
  (* the recording of the second *)
  cbn [step memory entries inflight].
  rewrite lookup_delete_ne, lookup_insert_eq by done. cbn zeta.
  rewrite bytes_decodeMessage, Hsame. fold q.
  unfold find. rewrite readers_app, Hnew. cbn [app readers key].
  rewrite bytes_decodeMessage. fold q. rewrite String.eqb_refl.
  cbn [app moved fmap option_fmap option_map snd]. done.
Qed.

Lemma run_app (s : State) (l1 l2 : list Step) :
  run s (l1 ++ l2)
  = match run s l1 with
    | Some (s1, r1) =>
      match run s1 l2 with
      | Some (s2, r2) => Some (s2, r1 ++ r2)
      | None => None
      end
    | None => None
    end.
Proof.
  revert s. induction l1 as [|x l1 IH]; intros s; cbn [app run].
  - by destruct (run s l2) as [[s2 r2]|].
  - destruct (step s x) as [[s1 r1]|]; [|done]. rewrite IH.
    destruct (run s1 l1) as [[s2 r2]|]; [|done].
    destruct (run s2 l2) as [[s3 r3]|]; [|done]. by rewrite app_assoc.
Qed.

Lemma bytes_arrived (message old : string) :
  String.substring 0 (String.length message) (overwrite message old) = message.
Proof.
  revert old. induction message as [|c message IH]; intros old; cbn.
  - by destruct old.
  - by rewrite IH.
Qed.

Lemma bytes_owns (memory : gmap nat string) (e : Entry) :
  owns e = true -> bytes memory (key e) = keyText e.
Proof. unfold owns, keyText. by destruct (key e). Qed.

Lemma mark_owned (before after : gmap nat string) (l : list Entry) :
  Forall (fun e => owns e = true) l -> mark before after <$> l = l.
Proof.
  induction 1 as [|e l He _ IH]; [done|]. cbn [fmap list_fmap]. f_equal; [|exact IH].
  unfold mark. rewrite !(bytes_owns _ e He), String.eqb_refl.
  unfold owns in He. destruct e as [k t m]. cbn in *. destruct k; [|done].
  by destruct m.
Qed.

Lemma aliased_owned (buf : nat) (l : list Entry) :
  Forall (fun e => owns e = true) l -> aliased buf l = false.
Proof.
  induction 1 as [|e l He _ IH]; [done|]. cbn [aliased existsb].
  fold (aliased buf l). rewrite IH. unfold owns in He. by destruct (key e).
Qed.

(** In a table whose keys own their bytes the lookup is that of the map. *)
Lemma readers_owned (memory : gmap nat string) (q : string) (i : nat) (l : list Entry) :
  Forall (fun e => owns e = true) l -> NoDup (keyText <$> l) ->
  let tbl : gmap string Z := list_to_map ((fun e => (keyText e, lastTime e)) <$> l) in
  (tbl !! q = None /\ readers memory q i l = [])
  \/ (exists k e, l !! k = Some e /\ keyText e = q /\ moved e = false
                  /\ tbl !! q = Some (lastTime e)
                  /\ readers memory q i l = [((i + k)%nat, e)]).
Proof.
  intros Hown. revert i. induction Hown as [|e l He Hl IH]; intros i Hnd; [by left|].
  cbn [fmap list_fmap] in Hnd. apply NoDup_cons in Hnd as [Hnotin Hnd].
  cbn [fmap list_fmap readers]. rewrite list_to_map_cons, (bytes_owns _ e He).
  destruct (IH (S i) Hnd) as [[Hnone Hr]|(k & e' & Hk & Hq & Hm & Hsome & Hr)].
  - destruct (String.eqb_spec (keyText e) q) as [Heq|Hne].
    + right. exists 0%nat, e. rewrite Hr, Heq, lookup_insert_eq, Nat.add_0_r.
      split; [done|]. split; [done|]. split; [|done].
      unfold owns in He. destruct (key e); [|done]. by destruct (moved e).
    + left. by rewrite lookup_insert_ne.
  - destruct (String.eqb_spec (keyText e) q) as [Heq|Hne].
    + exfalso. apply Hnotin. rewrite Heq, <- Hq.
      apply list_elem_of_fmap. exists e'. split; [done|].
      by apply list_elem_of_lookup_2 in Hk.
    + right. exists (S k), e'. rewrite lookup_insert_ne, Hr by done.
      cbn. split; [done|]. split; [done|]. split; [done|]. split; [done|].
      do 3 f_equal. lia.
Qed.

Lemma find_owned (s : State) (memory : gmap nat string) (q : string) :
  owned s ->
  (recentMessages (table s) !! q = None /\ find memory (entries s) q = Absent)
  \/ (exists k e, entries s !! k = Some e /\ keyText e = q
                  /\ recentMessages (table s) !! q = Some (lastTime e)
                  /\ find memory (entries s) q = Present k e).
Proof.
  intros [Hown Hnd]. unfold find, table. cbn [recentMessages].
  destruct (readers_owned memory q 0 (entries s) Hown Hnd)
    as [[Hnone ->]|(k & e & Hk & Hq & Hm & Hsome & ->)]; [by left|].
  right. exists k, e. by rewrite Hm.
Qed.

Lemma list_to_map_rebind (l : list (string * Z)) (k : nat) (d : string) (t t' : Z) :
  NoDup l.*1 -> l !! k = Some (d, t) ->
  (list_to_map (<[k := (d, t')]> l) : gmap string Z) = <[d := t']> (list_to_map l).
Proof.
  revert k. induction l as [|[d0 t0] l IH]; intros k Hnd Hk; [done|].
  cbn [fmap list_fmap fst] in Hnd. apply NoDup_cons in Hnd as [Hnotin Hnd].
  destruct k as [|k]; cbn in Hk.
  - injection Hk as -> ->. cbn [insert list_insert].
    by rewrite !list_to_map_cons, insert_insert_eq.
  - change (<[S k := (d, t')]> ((d0, t0) :: l)) with ((d0, t0) :: <[k := (d, t')]> l).
    rewrite !list_to_map_cons, (IH k Hnd Hk).
    apply insert_insert_ne. intros ->. apply Hnotin.
    apply list_elem_of_fmap. exists (d, t). split; [done|].
    by apply list_elem_of_lookup_2 in Hk.
Qed.

Lemma run_cons (s : State) (x : Step) (rest : list Step) :
  run s (x :: rest)
  = match step s x with
    | Some (s1, r1) =>
      match run s1 rest with
      | Some (s2, r2) => Some (s2, r1 ++ r2)
      | None => None
      end
    | None => None
    end.
Proof. reflexivity. Qed.

Lemma step_Arrive_owned (s : State) (buf : nat) (message : string) :
  Forall (fun e => owns e = true) (entries s) -> inflight s !! buf = None ->
  step s (Arrive buf message)
  = Some (mkState (<[buf := overwrite message (contents (memory s) buf)]> (memory s))
            (entries s)
            (<[buf := Arrived (Arg buf (String.length message))]> (inflight s)), []).
Proof.
  intros Hall Hin. cbn [step].
  by rewrite Hin, (aliased_owned buf _ Hall), andb_false_r, mark_owned.
Qed.

Lemma step_Dedup_rewritten (s : State) (buf : nat) (tc : Z) (m : GoString)
  (message d : string) :
  owned s -> inflight s !! buf = Some (Arrived m) -> bytes (memory s) m = message ->
  Codec.QueryUnescape message = Some d -> Bytes.plain message = false ->
  step s (Dedup buf tc)
  = if isRecentMessage (table s) tc d
    then Some (mkState (memory s) (entries s) (delete buf (inflight s)),
               [(buf, duplicate)])
    else Some (mkState (memory s) (entries s)
                 (<[buf := Checked (Fresh d)]> (inflight s)), []).
Proof.
  intros Hown Hin Hbytes Hd Hp.
  assert (String.eqb message "" = false) as Hne by (by destruct message).
  cbn [step]. rewrite Hin, Hbytes, Hne.
  assert (Server.decodeMessage (memory s) m = Fresh d) as ->.
  { unfold Server.decodeMessage. by rewrite Hbytes, Hd, Hp. }
  cbn [bytes]. unfold isRecentMessage.
  destruct (find_owned s (memory s) d Hown)
    as [[-> ->]|(k & e & Hk & Hq & -> & ->)]; [done|].
  by case_bool_decide.
Qed.

Lemma step_Accept_fresh (s : State) (buf : nat) (tr : Z) (d : string) :
  owned s -> inflight s !! buf = Some (Checked (Fresh d)) ->
  exists l,
    step s (Accept buf tr)
    = Some (mkState (memory s) l (delete buf (inflight s)),
            [(buf, EventStream StatusOK sseHeaders d)])
    /\ Forall (fun e => owns e = true) l /\ NoDup (keyText <$> l)
    /\ (list_to_map ((fun e => (keyText e, lastTime e)) <$> l) : gmap string Z)
       = <[d := tr]> (recentMessages (table s)).
Proof.
  intros Hown Hin. pose proof Hown as [Hall Hnd]. cbn [step]. rewrite Hin. cbn [bytes].
  destruct (find_owned s (memory s) d Hown) as [[Hnone ->]|(k & e & Hk & Hq & Hsome & ->)].
  - assert (d ∉ keyText <$> entries s) as Hnotin.
    { unfold table in Hnone. cbn [recentMessages] in Hnone.
      apply not_elem_of_list_to_map in Hnone. by rewrite <- list_fmap_compose in Hnone. }
    eexists. split; [reflexivity|]. split; [|split].
    + apply Forall_app. split; [done|]. by apply Forall_singleton.
    + rewrite fmap_app. apply NoDup_app. split; [done|]. split.
      * intros x Hx Hx'. apply list_elem_of_singleton in Hx'. by subst x.
      * apply NoDup_singleton.
    + rewrite fmap_app. cbn [fmap list_fmap]. apply list_to_map_snoc.
      by rewrite <- list_fmap_compose.
  - eexists. split; [reflexivity|]. split; [|split].
    + by apply Forall_insert.
    + rewrite list_fmap_insert. unfold keyText at 1. cbn [key bytes].
      rewrite list_insert_id; [done|]. by rewrite list_lookup_fmap, Hk, <- Hq.
    + rewrite list_fmap_insert. unfold keyText at 1. cbn [key bytes lastTime].
      apply (list_to_map_rebind _ k d (lastTime e)).
      * by rewrite <- list_fmap_compose.
      * by rewrite list_lookup_fmap, Hk, <- Hq.
Qed.

(** A request whose parameter the decoder rewrites, handled alone against
    a table whose keys own their bytes, is answered as [StreamChat] answers
    on the map from texts to instants, and leaves such a table. *)
Lemma alone_StreamChat (s : State) (c : Call) (d : string) :
  owned s -> inflight s !! call_buf c = None -> rewritten d c ->
  exists s',
    run s (alone c)
    = Some (s', [(call_buf c,
                  (StreamChat (table s) (call_check c) (call_record c)
                     (call_message c)).2)])
    /\ owned s'
    /\ table s'
       = (StreamChat (table s) (call_check c) (call_record c) (call_message c)).1
    /\ inflight s' = inflight s.
Proof.
  destruct c as [buf tc tr message]. unfold rewritten, alone.
  cbn [call_buf call_check call_record call_message].
  intros Hown Hin [Hd Hp]. pose proof Hown as [Hall Hnd].
  assert (String.eqb message "" = false) as Hne by (by destruct message).
  rewrite run_cons, (step_Arrive_owned s buf message Hall Hin).
  set (s1 := mkState _ (entries s) _).
  assert (owned s1) as Hown1 by done.
  assert (table s1 = table s) as Ht1 by done.
  rewrite run_cons.
  rewrite (step_Dedup_rewritten s1 buf tc (Arg buf (String.length message)) message d);
    try done; cycle 1.
  { apply lookup_insert_eq. }
  { cbn [bytes]. unfold contents. subst s1. cbn [memory]. rewrite lookup_insert_eq.
    apply bytes_arrived. }
  unfold StreamChat. rewrite Hne. unfold Producer.decodeMessage. rewrite Hd, Ht1.
  destruct (isRecentMessage (table s) tc d).
  - set (s2 := mkState _ (entries s1) _).
    rewrite run_cons.
    assert (step s2 (Accept buf tr) = Some (s2, [])) as ->.
    { cbn [step]. subst s2. cbn [inflight]. by rewrite lookup_delete_eq. }
    cbn [run app snd fst]. exists s2. split; [done|]. split; [done|]. split; [done|].
    subst s2 s1. cbn [inflight]. by rewrite delete_insert_id.
  - set (s2 := mkState _ (entries s1) _).
    assert (owned s2) as Hown2 by done.
    rewrite run_cons.
    destruct (step_Accept_fresh s2 buf tr d Hown2) as (l & -> & Hl & Hndl & Htbl).
    { subst s2. cbn [inflight]. apply lookup_insert_eq. }
    cbn [run app snd fst]. eexists. split; [reflexivity|].
    split; [by split|]. split.
    + unfold table at 1, recordMessage. cbn [entries]. by rewrite Htbl.
    + subst s2 s1. cbn [inflight]. by rewrite insert_insert_eq, delete_insert_id.
Qed.

Lemma StreamChat_rewritten (h : ChatHandler) (c : Call) (d : string) :
  rewritten d c ->
  StreamChat h (call_check c) (call_record c) (call_message c)
  = if isRecentMessage h (call_check c) d then (h, duplicate)
    else (recordMessage h (call_record c) d, EventStream StatusOK sseHeaders d).
Proof.
  intros [Hd Hp]. unfold StreamChat, Producer.decodeMessage. rewrite Hd.
  by destruct (call_message c).
Qed.

(** Duplicates inside the window, then the text again once it is over. *)
Lemma duplicates_then_accepted (d : string) (t0 : Z) (last : Call) (dups : list Call)
  (s : State) :
  owned s -> inflight s = ∅ -> recentMessages (table s) !! d = Some t0 ->
  Forall (rewritten d) dups -> rewritten d last ->
  Forall (fun c => call_check c - t0 < Window) dups ->
  Window <= call_check last - t0 ->
  responses s (sequential (dups ++ [last]))
  = Some (((fun c => (call_buf c, duplicate)) <$> dups)
          ++ [(call_buf last, EventStream StatusOK sseHeaders d)]).
Proof.
  intros Hown Hin Ht Hre Hlast Hdups Hout. revert s Hown Hin Ht.
  induction dups as [|c dups IH]; intros s Hown Hin Ht.
  - cbn [app fmap list_fmap]. unfold sequential. rewrite bind_cons. cbn [mbind list_bind].
    rewrite app_nil_r.
    destruct (alone_StreamChat s last d Hown) as (s' & Hrun & _); [by rewrite Hin|done|].
    unfold responses. rewrite Hrun. cbn. rewrite (StreamChat_rewritten _ _ d Hlast).
    unfold isRecentMessage. rewrite Ht, bool_decide_eq_false_2 by lia. done.
  - apply Forall_cons in Hre as [Hc Hre]. apply Forall_cons in Hdups as [Hin1 Hdups].
    cbn [app fmap list_fmap]. unfold sequential. rewrite bind_cons.
    fold (sequential (dups ++ [last])).
    destruct (alone_StreamChat s c d Hown) as (s' & Hrun & Hown' & Ht' & Hin');
      [by rewrite Hin|done|].
    rewrite (StreamChat_rewritten _ _ d Hc) in Hrun, Ht'.
    unfold isRecentMessage in Hrun, Ht'. rewrite Ht, bool_decide_eq_true_2 in Hrun, Ht' by done.
    cbn [fst snd] in Hrun, Ht'.
    specialize (IH Hre Hdups s' Hown'). rewrite Hin', Ht' in IH.
    specialize (IH Hin Ht). unfold responses in *. rewrite run_app, Hrun.
    destruct (run s' (sequential (dups ++ [last]))) as [[s2 r2]|]; [|done].
    cbn in IH. injection IH as ->. done.
Qed.

End ServerFacts.

(* ===================================================================== *)
(** * Facts: texts, the log and the assembly of a message                  *)
(* ===================================================================== *)

Section TextFacts.

Lemma append_nil_r (s : string) : s +:+ "" = s.
Proof.
  induction s as [|c s IH]; [done|].
  change (String c (s +:+ "") = String c s). by rewrite IH.
Qed.

Lemma append_assoc (a b c : string) : (a +:+ b) +:+ c = a +:+ b +:+ c.
Proof.
  induction a as [|x a IH]; [done|].
  change (String x ((a +:+ b) +:+ c) = String x (a +:+ b +:+ c)). by rewrite IH.
Qed.

Lemma concat_app (l1 l2 : list string) :
  Text.concat (l1 ++ l2) = Text.concat l1 +:+ Text.concat l2.
Proof.
  induction l1 as [|x l1 IH]; [done|].
  change (x +:+ Text.concat (l1 ++ l2) = (x +:+ Text.concat l1) +:+ Text.concat l2).
  by rewrite IH, append_assoc.
Qed.

End TextFacts.

Section FieldsFacts.
Import Bytes.

Lemma spaceFree_snoc (cur : string) (c : ascii) :
  spaceFree cur = true -> asciiSpace c = false ->
  spaceFree (cur +:+ String c "") = true.
Proof.
  intros Hcur Hc. induction cur as [|x cur IH].
  - unfold spaceFree. change ("" +:+ String c "") with (String c "").
    cbn [list_ascii_of_string forallb]. by rewrite Hc.
  - unfold spaceFree in *. cbn [list_ascii_of_string forallb] in Hcur.
    apply andb_prop in Hcur as [Hx Hcur].
    change (String x cur +:+ String c "") with (String x (cur +:+ String c "")).
    cbn [list_ascii_of_string forallb]. by rewrite Hx, IH.
Qed.

Lemma spaceWidth_asciiSpace (c : ascii) (s : string) :
  Text.spaceWidth (String c s) = (if asciiSpace c then 1%nat else Text.spaceWidth (String c s)).
Proof. unfold Text.spaceWidth, asciiSpace. by destruct (_ || _)%N. Qed.

Lemma fieldsFrom_tokens (skip : nat) (cur s : string) :
  spaceFree cur = true ->
  Forall (fun w => w <> "" /\ spaceFree w = true) (Text.fieldsFrom skip cur s).
Proof.
  assert (forall cur, spaceFree cur = true ->
            Forall (fun w => w <> "" /\ spaceFree w = true) (Text.flush cur)) as Hflush.
  { intros [|c cur'] H; cbn; [constructor|]. by repeat constructor. }
  revert skip cur. induction s as [|c s IH]; intros skip cur Hcur.
  - apply Hflush, Hcur.
  - cbn [Text.fieldsFrom]. destruct skip as [|k]; [|by apply IH].
    destruct (Text.spaceWidth (String c s)) as [|k] eqn:Hw.
    + apply IH. apply spaceFree_snoc; [done|].
      rewrite spaceWidth_asciiSpace in Hw. by destruct (asciiSpace c).
    + apply Forall_app. split; [by apply Hflush|]. by apply IH.
Qed.

Lemma fieldsFrom_blank (s : string) :
  blank s = true -> Text.fieldsFrom 0 "" s = [].
Proof.
  induction s as [|c s IH]; [done|]. unfold blank. cbn [list_ascii_of_string forallb].
  intros [Hc Hs]%andb_prop. cbn [Text.fieldsFrom].
  rewrite spaceWidth_asciiSpace, Hc. cbn. by apply IH.
Qed.

Lemma spaceWidth_solid (c : ascii) (s : string) :
  startsNoSpace c = true -> Text.spaceWidth (String c s) = 0%nat.
Proof.
  unfold startsNoSpace, asciiSpace, Text.spaceWidth. cbn zeta.
  intros [Hs Hb]%andb_prop. apply negb_true_iff in Hs, Hb. rewrite Hs.
  apply orb_false_elim in Hb as [Hb H227]. apply orb_false_elim in Hb as [Hb H226].
  apply orb_false_elim in Hb as [H194 H225].
  destruct s as [|c1 [|c2 s2]]; [done| |]; rewrite ?H194, ?H225, ?H226, ?H227; done.
Qed.

Lemma spaceFree_solid (s : string) : solid s = true -> spaceFree s = true.
Proof.
  unfold solid, spaceFree. induction s as [|c s IH]; [done|].
  cbn [list_ascii_of_string forallb]. intros [Hc Hs]%andb_prop.
  rewrite (IH Hs), andb_true_r. unfold startsNoSpace in Hc.
  by apply andb_prop in Hc as [-> _].
Qed.

(** A run of bytes none of which starts a white-space rune joins the field
    being collected. *)
Lemma fieldsFrom_solid (cur word rest : string) :
  solid word = true ->
  Text.fieldsFrom 0 cur (word +:+ rest) = Text.fieldsFrom 0 (cur +:+ word) rest.
Proof.
  revert cur. induction word as [|c word IH]; intros cur Hw.
  - change ("" +:+ rest) with rest. by rewrite append_nil_r.
  - unfold solid in Hw. cbn [list_ascii_of_string forallb] in Hw.
    apply andb_prop in Hw as [Hc Hw].
    change (String c word +:+ rest) with (String c (word +:+ rest)).
    cbn [Text.fieldsFrom]. rewrite (spaceWidth_solid c _ Hc), (IH _ Hw).
    f_equal. rewrite append_assoc. done.
Qed.

(** [strings.Fields] gives back the words that single spaces join. *)
Lemma fieldsFrom_Join (cur word : string) (words : list string) :
  Forall (fun w => w <> "" /\ solid w = true) (word :: words) ->
  Text.fieldsFrom 0 cur (Text.Join (word :: words) " ")
  = (cur +:+ word) :: words.
Proof.
  revert cur word. induction words as [|word2 words IH]; intros cur word Hall.
  - apply Forall_cons in Hall as [[Hne Hw] _]. cbn [Text.Join].
    rewrite <- (append_nil_r word) at 1. rewrite (fieldsFrom_solid _ _ _ Hw).
    cbn [Text.fieldsFrom]. destruct (cur +:+ word) eqn:E; [|done].
    destruct cur; [|done]. by destruct word.
  - apply Forall_cons in Hall as [[Hne Hw] Hall].
    change (Text.Join (word :: word2 :: words) " ")
      with (word +:+ " " +:+ Text.Join (word2 :: words) " ").
    rewrite (fieldsFrom_solid _ _ _ Hw).
    change (" " +:+ ?x) with (String " " x).
    cbn [Text.fieldsFrom]. change (Text.spaceWidth (String " " ?x)) with 1%nat.
    cbn iota. rewrite (IH "" word2 Hall). change ("" +:+ word2) with word2.
    destruct (cur +:+ word) eqn:E; [|done].
    destruct cur; [|done]. by destruct word.
Qed.

Lemma Fields_Join (words : list string) :
  Forall (fun w => w <> "" /\ solid w = true) words ->
  Text.Fields (Text.Join words " ") = words.
Proof.
  destruct words as [|word words]; [done|]. intros Hall.
  unfold Text.Fields. by rewrite (fieldsFrom_Join "" word words Hall).
Qed.

End FieldsFacts.

Section LogFacts.
Import Consumer.

Lemma length_updateMessages (id : string) (u : Updates) (l : list Message) :
  length (updateMessages id u l) = length l.
Proof. apply length_fmap. Qed.

Lemma updateMessages_lookup (id : string) (u : Updates) (l : list Message) (k : nat) :
  updateMessages id u l !! k
  = (fun msg => if String.eqb (msg_id msg) id then merge msg u else msg) <$> l !! k.
Proof. apply list_lookup_fmap. Qed.

Lemma updateMessages_other (id : string) (u : Updates) (l : list Message)
  (k : nat) (m : Message) :
  l !! k = Some m -> msg_id m <> id -> updateMessages id u l !! k = Some m.
Proof.
  intros Hk Hne. rewrite updateMessages_lookup, Hk. cbn.
  by apply String.eqb_neq in Hne as ->.
Qed.

Lemma updateMessages_last (id : string) (u : Updates) (l : list Message) :
  last (updateMessages id u l)
  = (fun msg => if String.eqb (msg_id msg) id then merge msg u else msg) <$> last l.
Proof.
  rewrite !last_lookup, length_updateMessages. apply updateMessages_lookup.
Qed.

Lemma updateMessages_empty_id_free (u : Updates) (l : list Message) :
  Forall (fun m => msg_id m <> "") l -> updateMessages "" u l = l.
Proof.
  induction 1 as [|m l Hm _ IH]; [done|].
  unfold updateMessages in *. cbn. rewrite IH.
  by apply String.eqb_neq in Hm as ->.
Qed.

End LogFacts.

Section AssemblyFacts.
Import Consumer.

Lemma store_closeOnTerminal (v : Version) (w : World) :
  store (closeOnTerminal v w) = store w.
Proof.
  destruct v; [done|]. unfold closeOnTerminal. cbn.
  by destruct (eventSourceRef (hook w)).
Qed.

Lemma onmessage_start (v : Version) (t : Z) (mid : option string) (w : World) :
  let w' := onmessage v t (Single (Parsed (STREAMING_START mid))) w in
  accumulating w'
    (mkMessage (orElse mid ("msg-" +:+ Text.itoa t)) assistant "" t (Some true)
       None None None)
  /\ messages (store w')
     = messages (store w)
       ++ [mkMessage (orElse mid ("msg-" +:+ Text.itoa t)) assistant "" t (Some true)
             None None None]
  /\ isStreaming (store w') = true
  /\ sources w' = sources w.
Proof.
  cbn. unfold accumulating, assembling. cbn. by rewrite last_snoc.
Qed.

Lemma onmessage_text (v : Version) (t : Z) (c : string) (b : option bool)
  (w : World) (m : Message) :
  accumulating w m ->
  let w' := onmessage v t (Single (Parsed (TEXT_MESSAGE_CONTENT c b))) w in
  accumulating w' (withText m c b)
  /\ isStreaming (store w') = isStreaming (store w)
  /\ sources w' = sources w.
Proof.
  intros (Hlast & Hid & Hacc). cbn. unfold accumulating, assembling in *. cbn.
  rewrite updateMessages_last, Hlast, Hid, Hacc. cbn.
  by rewrite String.eqb_refl.
Qed.

Lemma onmessage_end (v : Version) (t : Z) (w : World) (m : Message) :
  accumulating w m ->
  let w' := onmessage v t (Single (Parsed STREAMING_END)) w in
  assembling w' = Some (completed m)
  /\ isStreaming (store w') = false
  /\ length (messages (store w')) = length (messages (store w)).
Proof.
  intros (Hlast & Hid & Hacc). cbn. unfold assembling in *.
  rewrite store_closeOnTerminal. cbn -[updateMessages].
  rewrite updateMessages_last, Hlast, Hid, length_updateMessages. cbn.
  by rewrite String.eqb_refl.
Qed.

Lemma onmessage_skipped (v : Version) (t : Z) (f : Frame) (w : World) :
  match f with
  | Garbage _ | Batch [] | Batch (Falsy :: _) | Single Falsy => True
  | _ => False
  end ->
  onmessage v t f w = w.
Proof. by destruct f as [|[|[]]|[]]. Qed.

(** The texts of a list of chunks accumulate in order. *)
Lemma receive_chunks (v : Version) (chunks : list (Z * string * option bool))
  (w : World) (m : Message) :
  accumulating w m ->
  exists m',
    accumulating (receive v (textFrame <$> chunks) w) m'
    /\ msg_content m' = msg_content m +:+ Text.concat (chunks.*1.*2)
    /\ completed m' = completed (withText m (Text.concat (chunks.*1.*2)) None)
    /\ isStreaming (store (receive v (textFrame <$> chunks) w)) = isStreaming (store w)
    /\ sources (receive v (textFrame <$> chunks) w) = sources w.
Proof.
  revert w m. induction chunks as [|[[t c] b] chunks IH]; intros w m Hacc.
  - exists m. change (Text.concat _) with "". unfold withText.
    rewrite append_nil_r. by destruct Hacc as (? & ? & ?).
  - destruct (onmessage_text v t c b w m Hacc) as (Hacc1 & Hs1 & Hsrc1).
    destruct (IH _ _ Hacc1) as (m' & Hacc' & Hc & Hcompl & Hs & Hsrc).
    exists m'. cbn [fmap list_fmap receive fold_left textFrame fst snd] in *.
    split; [done|]. split.
    { rewrite Hc. cbn [withText msg_content]. by rewrite append_assoc. }
    split.
    { rewrite Hcompl. unfold completed, withText.
      cbn [msg_id msg_type msg_content msg_timestamp msg_isStreaming
           msg_activities msg_images msg_metadata].
      by rewrite append_assoc. }
    split; by etrans.
Qed.

End AssemblyFacts.

(* ===================================================================== *)
(** * Facts: the sources of the hook                                       *)
(* ===================================================================== *)

Section SourceFacts.
Import Consumer.

Lemma allClosed_consistent (srcs : list EventSource) :
  allClosed srcs -> consistent srcs None.
Proof.
  intros Hall. split; [|split].
  - intros i es Hi Hlive. destruct (Hall i es Hi) as [Hc _].
    unfold live in Hlive. by rewrite Hc in Hlive.
  - intros i es Hi. by destruct (Hall i es Hi).
  - done.
Qed.

Lemma consistent_None_allClosed (srcs : list EventSource) :
  consistent srcs None -> allClosed srcs.
Proof.
  intros (Hlive & Hretry & _) i es Hi. split; [|by eapply Hretry].
  specialize (Hlive i es Hi). unfold live in Hlive.
  destruct (readyState es); [|  |done]; by specialize (Hlive eq_refl).
Qed.

Lemma consistent_close (srcs : list EventSource) (i : nat) :
  consistent srcs (Some i) -> allClosed (alter closed i srcs).
Proof.
  intros (Hlive & Hretry & _) j es Hj.
  destruct (decide (i = j)) as [<-|Hne].
  - rewrite list_lookup_alter_eq in Hj. destruct (srcs !! i); [|done].
    by injection Hj as <-.
  - rewrite list_lookup_alter_ne in Hj by done. split; [|by eapply Hretry].
    specialize (Hlive j es Hj). unfold live in Hlive.
    destruct (readyState es); [| |done]; specialize (Hlive eq_refl); congruence.
Qed.

(** Closing what the hook holds, if anything, leaves every source closed. *)
Lemma consistent_close_ref (srcs : list EventSource) (ref : option nat) :
  consistent srcs ref ->
  allClosed (match ref with Some i => alter closed i srcs | None => srcs end).
Proof.
  destruct ref; [apply consistent_close | apply consistent_None_allClosed].
Qed.

Lemma allClosed_new (srcs : list EventSource) (u : string) :
  allClosed srcs ->
  consistent (srcs ++ [mkEventSource u CONNECTING false 1]) (Some (length srcs)).
Proof.
  intros Hall. split; [|split].
  - intros i es Hi Hlive. destruct (decide (i < length srcs)%nat) as [Hlt|Hge].
    + rewrite lookup_app_l in Hi by done. destruct (Hall i es Hi) as [Hc _].
      unfold live in Hlive. by rewrite Hc in Hlive.
    + apply lookup_lt_Some in Hi as Hlen. rewrite length_app in Hlen. cbn in Hlen.
      f_equal. lia.
  - intros i es Hi. destruct (decide (i < length srcs)%nat) as [Hlt|Hge].
    + rewrite lookup_app_l in Hi by done. by destruct (Hall i es Hi).
    + rewrite lookup_app_r in Hi by lia.
      destruct (i - length srcs)%nat as [|k]; cbn in Hi; [|done].
      by injection Hi as <-.
  - intros i [= <-]. rewrite length_app. cbn. lia.
Qed.

End SourceFacts.

Section StepFacts.
Import Consumer.

Lemma sendMessage_streaming (v : Version) (p : Props) (t : Z) (text : string) (w : World) :
  isStreaming (store w) = true -> sendMessage v p t text w = w.
Proof. intros H. unfold sendMessage. by rewrite H. Qed.

Lemma sendMessage_idle (v : Version) (p : Props) (t : Z) (text : string) (w : World) :
  isStreaming (store w) = false ->
  let w' := sendMessage v p t text w in
  messages (store w')
  = messages (store w) ++ [mkMessage ("user-" +:+ Text.itoa t) user text t None None None None]
  /\ isStreaming (store w') = false
  /\ (if validEndpoint v p
      then sources w'
           = staleClosed w
             ++ [mkEventSource (streamURL p (messageParam v text)) CONNECTING false 1]
           /\ eventSourceRef (hook w') = Some (length (sources w))
      else sources w' = staleClosed w /\ eventSourceRef (hook w') = None).
Proof.
  intros Hs. unfold sendMessage, staleClosed. rewrite Hs.
  destruct v; unfold setupEventSource, validEndpoint.
  - destruct (eventSourceRef (hook w)) as [i|] eqn:Href;
      destruct (endpointParses p); cbn; rewrite ?Hs, ?length_alter; done.
  - destruct (eventSourceRef (hook w)) as [i|] eqn:Href;
      destruct (Text.startsWith (endpoint p) "http://");
      destruct (Text.startsWith (endpoint p) "https://");
      destruct (endpointParses p); cbn; rewrite ?Hs, ?length_alter; done.
Qed.

Lemma length_staleClosed (w : World) : length (staleClosed w) = length (sources w).
Proof. unfold staleClosed. destruct (eventSourceRef _); by rewrite ?length_alter. Qed.

Lemma wellFormed_sendMessage (v : Version) (p : Props) (t : Z) (text : string) (w : World) :
  wellFormed w -> wellFormed (sendMessage v p t text w).
Proof.
  intros Hwf. destruct (isStreaming (store w)) eqn:Hs.
  - by rewrite sendMessage_streaming.
  - destruct (sendMessage_idle v p t text w Hs) as (_ & _ & Hsrc).
    unfold wellFormed. pose proof (consistent_close_ref _ _ Hwf) as Hall.
    fold (staleClosed w) in Hall.
    destruct (validEndpoint v p); destruct Hsrc as [-> ->].
    + rewrite <- length_staleClosed. by apply allClosed_new.
    + by apply allClosed_consistent.
Qed.

Lemma reconnect_sources (v : Version) (w : World) :
  sources (reconnect v w) = staleClosed w
  /\ eventSourceRef (hook (reconnect v w)) = None
  /\ store (reconnect v w) = mkChatState (messages (store w)) (isStreaming (store w))
       (activities (store w)) (currentActivity (store w)) None
  /\ isConnected (hook (reconnect v w)) = false.
Proof.
  unfold reconnect, staleClosed.
  destruct v; destruct (eventSourceRef (hook w)) eqn:Href; cbn; done.
Qed.

Lemma cleanup_sources (w : World) :
  sources (cleanup V2 w) = staleClosed w
  /\ eventSourceRef (hook (cleanup V2 w)) = None
  /\ store (cleanup V2 w) = store w.
Proof.
  unfold cleanup, staleClosed. cbn. destruct (eventSourceRef (hook w)) eqn:Href; cbn; done.
Qed.

Lemma closeOnTerminal_sources (w : World) :
  sources (closeOnTerminal V2 w) = staleClosed w
  /\ eventSourceRef (hook (closeOnTerminal V2 w)) = None.
Proof.
  unfold closeOnTerminal, staleClosed. cbn. destruct (eventSourceRef (hook w)) eqn:H; cbn; done.
Qed.

(** Apart from the closing of the second revision's terminal cases, an
    event handler touches neither the sources nor the hook's reference. *)
Lemma handleAGUIEvent_sources (v : Version) (t : Z) (e : AGUIEvent) (w : World) :
  let w' := handleAGUIEvent v t e w in
  (sources w' = sources w /\ eventSourceRef (hook w') = eventSourceRef (hook w))
  \/ (v = V2 /\ terminal e = true /\ sources w' = staleClosed w
      /\ eventSourceRef (hook w') = None).
Proof.
  destruct e; try (left; cbn; done).
  - destruct v; [left; done|]. right. cbn [handleAGUIEvent].
    split; [done|]. split; [done|].
    match goal with
    | |- context [closeOnTerminal V2 ?x] =>
      destruct (closeOnTerminal_sources x) as [-> ->]
    end. done.
  - destruct v; [left; done|]. right. cbn [handleAGUIEvent].
    split; [done|]. split; [done|].
    match goal with
    | |- context [closeOnTerminal V2 ?x] =>
      destruct (closeOnTerminal_sources x) as [-> ->]
    end. done.
Qed.

Lemma wellFormed_stale (w w' : World) :
  wellFormed w -> sources w' = staleClosed w -> eventSourceRef (hook w') = None ->
  wellFormed w'.
Proof.
  intros Hwf Hs Hr. unfold wellFormed. rewrite Hs, Hr.
  apply allClosed_consistent. by apply consistent_close_ref in Hwf.
Qed.

Lemma wellFormed_same (w w' : World) :
  wellFormed w -> sources w' = sources w ->
  eventSourceRef (hook w') = eventSourceRef (hook w) -> wellFormed w'.
Proof. unfold wellFormed. by intros ? -> ->. Qed.

Lemma wellFormed_onmessage (v : Version) (t : Z) (f : Frame) (w : World) :
  wellFormed w -> wellFormed (onmessage v t f w).
Proof.
  intros Hwf. unfold onmessage. destruct (parseAGUIEvent f) as [[|e]|]; try done.
  destruct (handleAGUIEvent_sources v t e w) as [[Hs Hr]|(_ & _ & Hs & Hr)].
  - by eapply wellFormed_same.
  - by eapply wellFormed_stale.
Qed.

End StepFacts.

Section RunFacts.
Import Consumer.

Lemma onopen_frame (v : Version) (w : World) :
  sources (onopen v w) = sources w
  /\ eventSourceRef (hook (onopen v w)) = eventSourceRef (hook w)
  /\ messages (store (onopen v w)) = messages (store w)
  /\ isStreaming (store (onopen v w)) = isStreaming (store w).
Proof. by destruct v. Qed.

Lemma closed_setReadyState (rs : ReadyState) (b : bool) (es : EventSource) :
  closed (setReadyState rs b es) = closed es.
Proof. done. Qed.

Lemma onerror_frame (v : Version) (i : nat) (w : World) :
  let w' := onerror v i w in
  sources w' = alter closed i (sources w)
  /\ eventSourceRef (hook w') = None
  /\ isConnected (hook w') = false
  /\ messages (store w') = messages (store w)
  /\ isStreaming (store w') = isStreaming (store w)
  /\ returnedError v w' <> None.
Proof.
  destruct v; cbn.
  - by destruct (stateOf _ i) as [[]|].
  - destruct (stateOf _ i) as [[]|]; cbn; repeat (split; [done|]);
      destruct (error (store w)) as [s|]; try done; by destruct (String.eqb s "").
Qed.

Lemma consistent_opened (srcs : list EventSource) (ref : option nat) (i : nat)
  (es : EventSource) :
  consistent srcs ref -> srcs !! i = Some es -> readyState es = CONNECTING ->
  consistent (alter (setReadyState OPEN false) i srcs) ref.
Proof.
  intros (Hlive & Hretry & Hlen) Hi Hrs. split; [|split].
  - intros j es' Hj Hl. destruct (decide (i = j)) as [<-|Hne].
    + apply (Hlive i es Hi). unfold live. by rewrite Hrs.
    + rewrite list_lookup_alter_ne in Hj by done. by eapply Hlive.
  - intros j es' Hj. destruct (decide (i = j)) as [<-|Hne].
    + rewrite list_lookup_alter_eq, Hi in Hj. by injection Hj as <-.
    + rewrite list_lookup_alter_ne in Hj by done. by eapply Hretry.
  - intros j Hj. rewrite length_alter. by apply Hlen.
Qed.

(** The user agent never gets to re-establish a connection: no source is
    left waiting for it. *)
Lemma step_Reestablish (v : Version) (p : Props) (t : Z) (i : nat) (w : World) :
  wellFormed w -> step v p w (t, Reestablish i) = w.
Proof.
  intros (_ & Hretry & _). cbn. destruct (sources w !! i) as [es|] eqn:Hi; [|done].
  rewrite (Hretry i es Hi). by destruct (readyState es).
Qed.

(** A transport error on a source that is not closed: the handler closes
    it, drops the reference and reports an error; the streaming flag and the
    log stay as they are. *)
Lemma step_Failed (v : Version) (p : Props) (t : Z) (i : nat) (fatal : bool) (w : World) :
  wellFormed w ->
  let w' := step v p w (t, Failed i fatal) in
  match stateOf w i with
  | Some OPEN | Some CONNECTING =>
    sources w' = staleClosed w /\ eventSourceRef (hook w') = None
    /\ eventSourceRef (hook w) = Some i
    /\ isConnected (hook w') = false
    /\ messages (store w') = messages (store w)
    /\ isStreaming (store w') = isStreaming (store w)
    /\ returnedError v w' <> None
  | _ => w' = w
  end.
Proof.
  intros (Hlive & _ & _). cbn [step]. unfold stateOf.
  destruct (sources w !! i) as [es|] eqn:Hi; cbn [fmap option_fmap option_map]; [|done].
  destruct (readyState es) eqn:Hrs; [| |done].
  all: match goal with
       | |- context [onerror ?a ?b ?x] =>
         destruct (onerror_frame a b x) as (-> & -> & -> & -> & -> & Herr)
       end.
  all: assert (eventSourceRef (hook w) = Some i) as Href
         by (apply (Hlive i es Hi); unfold live; by rewrite Hrs).
  all: unfold staleClosed; rewrite Href; cbn.
  all: rewrite list_alter_alter_eq; repeat (split; [done|]); try done.
  all: split; [by apply list_alter_ext|]; by repeat (split; [done|]).
Qed.

Lemma wellFormed_step (v : Version) (p : Props) (w : World) (ti : Z * Input) :
  wellFormed w -> wellFormed (step v p w ti).
Proof.
  intros Hwf. destruct ti as [t input]. destruct input as [text| | |i|i f|i fatal|i].
  - by apply wellFormed_sendMessage.
  - destruct (reconnect_sources v w) as (Hs & Hr & _). by eapply wellFormed_stale.
  - destruct v; [done|]. destruct (cleanup_sources w) as (Hs & Hr & _).
    by eapply wellFormed_stale.
  - cbn. destruct (sources w !! i) as [es|] eqn:Hi; [|done].
    destruct (readyState es) eqn:Hrs; try done. destruct (retrying es); [done|].
    destruct (onopen_frame v (onSources (alter (setReadyState OPEN false) i) w))
      as (Hs & Hr & _).
    unfold wellFormed. rewrite Hs, Hr. cbn. by eapply consistent_opened.
  - cbn. destruct (stateOf w i) as [[]|]; try done. by apply wellFormed_onmessage.
  - pose proof (step_Failed v p t i fatal w Hwf) as H. cbn zeta in H.
    destruct (stateOf w i) as [[]|]; try (by rewrite H);
      destruct H as (Hs & Hr & _); by eapply wellFormed_stale.
  - by rewrite step_Reestablish.
Qed.

Lemma wellFormed_run (v : Version) (p : Props) (ins : list (Z * Input)) (w : World) :
  wellFormed w -> wellFormed (run v p ins w).
Proof.
  revert w. induction ins as [|ti ins IH]; intros w Hwf; [done|].
  cbn. apply IH. by apply wellFormed_step.
Qed.

Lemma reachable_wellFormed (v : Version) (p : Props) (w : World) :
  reachable v p w -> wellFormed w.
Proof.
  intros [ins ->]. apply wellFormed_run. split; [|split]; done.
Qed.

Lemma reachable_step (v : Version) (p : Props) (w : World) (ti : Z * Input) :
  reachable v p w -> reachable v p (step v p w ti).
Proof.
  intros [ins ->]. exists (ins ++ [ti]). unfold run. by rewrite fold_left_app.
Qed.

Lemma reachable_run (v : Version) (p : Props) (ins : list (Z * Input)) (w : World) :
  reachable v p w -> reachable v p (run v p ins w).
Proof.
  intros [ins0 ->]. exists (ins0 ++ ins). unfold run. by rewrite fold_left_app.
Qed.

End RunFacts.

(* ===================================================================== *)
(** * Facts: requests, and SafeEventSource                                 *)
(* ===================================================================== *)

Section AttemptFacts.
Import Consumer.

Lemma requests_alter (f : EventSource -> EventSource) (i : nat) (l : list EventSource) :
  (forall es, requests (f es) = requests es) ->
  requests <$> alter f i l = requests <$> l.
Proof.
  intros Hf. revert i. induction l as [|es l IH]; intros i; [done|].
  destruct i as [|i]; cbn; [by rewrite Hf|]. f_equal. apply IH.
Qed.

Lemma foldr_requests (l l' : list EventSource) :
  requests <$> l = requests <$> l' ->
  foldr (fun es n => (requests es + n)%nat) 0%nat l
  = foldr (fun es n => (requests es + n)%nat) 0%nat l'.
Proof.
  revert l'. induction l as [|es l IH]; intros [|es' l'] H; try done.
  cbn in *. injection H as -> H. by rewrite (IH _ H).
Qed.

Lemma foldr_requests_snoc (l : list EventSource) (es : EventSource) :
  foldr (fun es n => (requests es + n)%nat) 0%nat (l ++ [es])
  = (foldr (fun es n => (requests es + n)%nat) 0%nat l + requests es)%nat.
Proof. induction l as [|x l IH]; cbn; [lia|]. rewrite IH. lia. Qed.

Lemma requests_staleClosed (w : World) :
  requests <$> staleClosed w = requests <$> sources w.
Proof.
  unfold staleClosed. destruct (eventSourceRef (hook w)); [|done].
  by apply requests_alter.
Qed.

End AttemptFacts.

Section SafeFacts.
Import Consumer SafeEventSource.

Lemma filter_handle (h : nat) (l : list (nat * Z)) :
  (forall tm, tm ∈ l -> Some h = Some tm.1) ->
  filter (fun tm : nat * Z => tm.1 ≠ h) l = [].
Proof.
  induction l as [|tm l IH]; intros Hall; [done|].
  rewrite filter_cons_False.
  - apply IH. intros tm' Hin. apply Hall. by right.
  - intros Hne. specialize (Hall tm ltac:(left)). congruence.
Qed.

Lemma clearReconnectTimeout_frame (e : Env) :
  (forall tm, tm ∈ timers e -> reconnectTimeout (self e) = Some tm.1) ->
  let e' := clearReconnectTimeout e in
  timers e' = []
  /\ SafeEventSource.sources e' = SafeEventSource.sources e
  /\ eventSource (self e') = eventSource (self e)
  /\ isManuallyDisconnected (self e') = isManuallyDisconnected (self e)
  /\ nextTimer e' = nextTimer e.
Proof.
  intros Ht. unfold clearReconnectTimeout.
  destruct (reconnectTimeout (self e)) as [h|] eqn:Hh; cbn.
  - by rewrite (filter_handle h) by (intros tm Hin; by rewrite <- (Ht tm Hin)).
  - destruct (timers e) as [|tm l]; [done|]. by specialize (Ht tm ltac:(left)).
Qed.

Lemma closeSource_frame (e : Env) :
  let e' := closeSource e in
  SafeEventSource.sources e'
  = match eventSource (self e) with
    | Some i => alter closed i (SafeEventSource.sources e)
    | None => SafeEventSource.sources e
    end
  /\ eventSource (self e') = None
  /\ timers e' = timers e
  /\ isManuallyDisconnected (self e') = isManuallyDisconnected (self e)
  /\ reconnectAttempts (self e') = reconnectAttempts (self e)
  /\ reconnectTimeout (self e') = reconnectTimeout (self e)
  /\ config (self e') = config (self e)
  /\ nextTimer e' = nextTimer e.
Proof. unfold closeSource. by destruct (eventSource (self e)) eqn:H. Qed.

(** [close()] puts the object at rest and makes no request. *)
Lemma close_quiet (e : Env) :
  SafeEventSource.wellFormed e ->
  quiet (SafeEventSource.close e)
  /\ requests <$> SafeEventSource.sources (SafeEventSource.close e)
     = requests <$> SafeEventSource.sources e
  /\ nextTimer (SafeEventSource.close e) = nextTimer e.
Proof.
  intros [Hc Ht]. unfold SafeEventSource.close.
  destruct (clearReconnectTimeout_frame (setManual true e) Ht)
    as (Ht1 & Hs1 & He1 & Hm1 & Hn1).
  destruct (closeSource_frame (clearReconnectTimeout (setManual true e)))
    as (Hs2 & He2 & Ht2 & Hm2 & _ & _ & _ & Hn2).
  assert (SafeEventSource.sources (closeSource (clearReconnectTimeout (setManual true e)))
          = match eventSource (self e) with
            | Some i => alter closed i (SafeEventSource.sources e)
            | None => SafeEventSource.sources e
            end) as Hs by (rewrite Hs2, He1, Hs1; done).
  split; [|split].
  - split; [by rewrite Hm2, Hm1|]. split; [done|]. split; [by rewrite Ht2|].
    rewrite Hs. by apply consistent_close_ref.
  - rewrite Hs. destruct (eventSource (self e)); [|done]. by apply requests_alter.
  - by rewrite Hn2, Hn1.
Qed.

Lemma quiet_wellFormed (e : Env) : quiet e -> SafeEventSource.wellFormed e.
Proof.
  intros (_ & Hes & Ht & Hall). split.
  - rewrite Hes. by apply allClosed_consistent.
  - rewrite Ht. by intros tm ?%elem_of_nil.
Qed.

(** At rest, nothing but an explicit [connect()] makes a request. *)
Lemma quiet_step (e : Env) (input : SafeEventSource.Input) :
  quiet e -> isConnect input = false ->
  quiet (SafeEventSource.step e input)
  /\ SafeEventSource.attempts (SafeEventSource.step e input) = SafeEventSource.attempts e.
Proof.
  intros Hq Hin. destruct input as [| | |i ev|i fatal|i|h]; try done.
  - destruct (close_quiet e (quiet_wellFormed e Hq)) as (Hq' & Hr & _).
    split; [done|]. by apply foldr_requests.
  - destruct (close_quiet e (quiet_wellFormed e Hq)) as (Hq' & Hr & _).
    change (SafeEventSource.step e Destroy)
      with (clearReconnectTimeout (SafeEventSource.close e)).
    destruct (clearReconnectTimeout_frame (SafeEventSource.close e))
      as (Ht1 & Hs1 & He1 & Hm1 & Hn1); [by apply quiet_wellFormed|].
    destruct Hq' as (Hm & Hes & Ht & Hall).
    split.
    { split; [by rewrite Hm1|]. split; [by rewrite He1|]. split; [done|].
      by rewrite Hs1. }
    unfold SafeEventSource.attempts. rewrite Hs1. by apply foldr_requests.
  - destruct Hq as (Hm & Hes & Ht & Hall). cbn.
    destruct (SafeEventSource.sources e !! i) as [es|] eqn:Hi; cbn; [|done].
    destruct (Hall i es Hi) as [-> _]. done.
  - destruct Hq as (Hm & Hes & Ht & Hall). cbn.
    destruct (SafeEventSource.sources e !! i) as [es|] eqn:Hi; cbn; [|done].
    destruct (Hall i es Hi) as [-> _]. done.
  - destruct Hq as (Hm & Hes & Ht & Hall). cbn. rewrite Ht. cbn.
    rewrite bool_decide_eq_false_2; [done|]. apply not_elem_of_nil.
Qed.

Lemma quiet_run (ins : list SafeEventSource.Input) (e : Env) :
  quiet e -> forallb (fun input => negb (isConnect input)) ins = true ->
  quiet (SafeEventSource.run ins e)
  /\ SafeEventSource.attempts (SafeEventSource.run ins e) = SafeEventSource.attempts e.
Proof.
  revert e. induction ins as [|input ins IH]; intros e Hq Hall; [done|].
  cbn in Hall. apply andb_prop in Hall as [Hin Hall].
  apply negb_true_iff in Hin.
  destruct (quiet_step e input Hq Hin) as [Hq1 Ha1].
  destruct (IH _ Hq1 Hall) as [Hq2 Ha2].
  split; [exact Hq2 | exact (eq_trans Ha2 Ha1)].
Qed.



Lemma wellFormed_connect (e : Env) :
  SafeEventSource.wellFormed e -> SafeEventSource.wellFormed (connect e).
Proof.
  intros Hwf. unfold connect.
  destruct (eventSource (self e)) as [i|] eqn:Hes.
  - destruct (close_quiet e Hwf) as ((_ & _ & Ht & Hall) & _ & _).
    split; cbn.
    + by apply allClosed_new.
    + rewrite Ht. by intros tm ?%elem_of_nil.
  - destruct Hwf as [Hc Ht]. rewrite Hes in Hc. split; cbn.
    + by apply allClosed_new, consistent_None_allClosed.
    + done.
Qed.

Lemma wellFormed_scheduleReconnect (e : Env) :
  SafeEventSource.wellFormed e -> SafeEventSource.wellFormed (scheduleReconnect e).
Proof.
  intros [Hc Ht]. unfold scheduleReconnect.
  destruct (clearReconnectTimeout_frame e Ht) as (Ht1 & Hs1 & He1 & _).
  split; cbn.
  - by rewrite Hs1, He1.
  - rewrite Ht1. cbn. by intros tm ->%list_elem_of_singleton.
Qed.

Lemma wellFormed_onerror (e : Env) (i : nat) (rs : ReadyState) (b : bool) :
  SafeEventSource.wellFormed e -> eventSource (self e) = Some i ->
  SafeEventSource.wellFormed
    (SafeEventSource.onerror
       (mkEnv (self e) (alter (setReadyState rs b) i (SafeEventSource.sources e))
          (timers e) (nextTimer e))).
Proof.
  intros [Hc Ht] Hes. unfold SafeEventSource.onerror.
  set (e1 := closeSource _).
  assert (SafeEventSource.wellFormed e1) as Hwf1.
  { subst e1. unfold closeSource. cbn. rewrite Hes. split; cbn; [|done].
    apply allClosed_consistent. rewrite list_alter_alter_eq.
    rewrite Hes in Hc. apply consistent_close in Hc.
    erewrite list_alter_ext; [exact Hc|done|done]. }
  destruct (isManuallyDisconnected (self e1)); [done|].
  match goal with |- context [if ?c then _ else _] => destruct c end.
  - apply wellFormed_scheduleReconnect. by destruct Hwf1.
  - by destruct Hwf1.
Qed.

Lemma wellFormed_safe_step (e : Env) (input : SafeEventSource.Input) :
  SafeEventSource.wellFormed e -> SafeEventSource.wellFormed (SafeEventSource.step e input).
Proof.
  intros Hwf. destruct input as [| | |i ev|i fatal|i|h].
  - by apply wellFormed_connect.
  - apply quiet_wellFormed. by apply close_quiet.
  - apply quiet_wellFormed.
    change (SafeEventSource.step e Destroy)
      with (clearReconnectTimeout (SafeEventSource.close e)).
    destruct (close_quiet e Hwf) as (Hq & _).
    destruct (clearReconnectTimeout_frame (SafeEventSource.close e))
      as (Ht1 & Hs1 & He1 & Hm1 & Hn1); [by apply quiet_wellFormed|].
    destruct Hq as (Hm & Hes & Ht & Hall).
    split; [by rewrite Hm1|]. split; [by rewrite He1|]. split; [done|].
    by rewrite Hs1.
  - done.
  - cbn. destruct (SafeEventSource.sources e !! i) as [es|] eqn:Hi; cbn; [|done].
    assert (readyState es <> CLOSED -> eventSource (self e) = Some i) as Hlive.
    { intros Hne. destruct Hwf as [(Hl & _) _]. apply (Hl i es Hi).
      unfold live. by destruct (readyState es). }
    destruct (readyState es); [| |done]; by apply wellFormed_onerror, Hlive.
  - cbn. destruct (SafeEventSource.sources e !! i) as [es|] eqn:Hi; [|done].
    destruct Hwf as [(Hl & Hr & Hn) Ht]. rewrite (Hr i es Hi).
    by destruct (readyState es).
  - cbn. case_bool_decide; [|done].
    assert (SafeEventSource.wellFormed
              (mkEnv (self e) (SafeEventSource.sources e)
                 (filter (fun tm : nat * Z => tm.1 ≠ h) (timers e)) (nextTimer e)))
      as Hwf1.
    { destruct Hwf as [Hc Ht]. split; cbn; [done|].
      intros tm [_ Hin]%list_elem_of_filter. by apply Ht. }
    unfold onTimeout. destruct (isManuallyDisconnected _); [done|].
    by apply wellFormed_connect.
Qed.

Lemma wellFormed_safe_run (ins : list SafeEventSource.Input) (e : Env) :
  SafeEventSource.wellFormed e -> SafeEventSource.wellFormed (SafeEventSource.run ins e).
Proof.
  revert e. induction ins as [|input ins IH]; intros e Hwf; [done|].
  apply (IH (SafeEventSource.step e input)). by apply wellFormed_safe_step.
Qed.

Lemma reachable_safe_wellFormed (u : string) (c : EventSourceConfig) (e : Env) :
  SafeEventSource.reachable u c e -> SafeEventSource.wellFormed e.
Proof.
  intros [ins ->]. apply wellFormed_safe_run. split; cbn.
  - split; [|split]; done.
  - by intros tm ?%elem_of_nil.
Qed.

End SafeFacts.

Section BoundFacts.
Import Consumer SafeEventSource.

Lemma close_self (e : Env) :
  config (self (SafeEventSource.close e)) = config (self e)
  /\ reconnectAttempts (self (SafeEventSource.close e)) = reconnectAttempts (self e).
Proof.
  unfold SafeEventSource.close, closeSource, clearReconnectTimeout, setManual. cbn.
  destruct (reconnectTimeout (self e)); cbn; by destruct (eventSource (self e)).
Qed.

Lemma attempts_close (e : Env) :
  SafeEventSource.wellFormed e ->
  SafeEventSource.attempts (SafeEventSource.close e) = SafeEventSource.attempts e
  /\ timers (SafeEventSource.close e) = [].
Proof.
  intros Hwf. destruct (close_quiet e Hwf) as ((_ & _ & Ht & _) & Hr & _).
  split; [|done]. unfold SafeEventSource.attempts. by apply foldr_requests.
Qed.

Lemma connect_frame (e : Env) :
  SafeEventSource.wellFormed e ->
  SafeEventSource.attempts (connect e) = S (SafeEventSource.attempts e)
  /\ (length (timers (connect e)) <= length (timers e))%nat
  /\ config (self (connect e)) = config (self e)
  /\ reconnectAttempts (self (connect e)) = reconnectAttempts (self e).
Proof.
  intros Hwf. unfold connect. destruct (eventSource (self e)) eqn:Hes.
  - destruct (attempts_close e Hwf) as [Ha Ht]. destruct (close_self e) as [Hc Hr].
    cbn. unfold SafeEventSource.attempts in *. cbn.
    rewrite foldr_requests_snoc, Ha, Ht. cbn. repeat split; try done; lia.
  - cbn. unfold SafeEventSource.attempts. cbn. rewrite foldr_requests_snoc. cbn.
    repeat split; try done; lia.
Qed.

Lemma within_frame (c : EventSourceConfig) (k : nat) (e e' : Env) :
  within c k e ->
  SafeEventSource.attempts e' = SafeEventSource.attempts e ->
  (length (timers e') <= length (timers e))%nat ->
  config (self e') = config (self e) ->
  reconnectAttempts (self e') = reconnectAttempts (self e) ->
  within c k e'.
Proof.
  intros (Hcfg & Hpos & Hle) Ha Ht Hc Hr. unfold within.
  rewrite Hc, Hr, Ha. repeat split; try done. lia.
Qed.

Lemma clear_frame (e : Env) :
  SafeEventSource.attempts (clearReconnectTimeout e) = SafeEventSource.attempts e
  /\ (length (timers (clearReconnectTimeout e)) <= length (timers e))%nat
  /\ config (self (clearReconnectTimeout e)) = config (self e)
  /\ reconnectAttempts (self (clearReconnectTimeout e)) = reconnectAttempts (self e).
Proof.
  unfold clearReconnectTimeout. destruct (reconnectTimeout (self e)); [|done].
  cbn. repeat split; try done. apply length_filter.
Qed.

Lemma closeSource_attempts (e : Env) :
  SafeEventSource.attempts (closeSource e) = SafeEventSource.attempts e.
Proof.
  unfold closeSource. destruct (eventSource (self e)); [|done].
  unfold SafeEventSource.attempts. cbn. apply foldr_requests. by apply requests_alter.
Qed.

Lemma scheduleReconnect_frame (e : Env) :
  SafeEventSource.attempts (scheduleReconnect e) = SafeEventSource.attempts e
  /\ (length (timers (scheduleReconnect e)) <= S (length (timers e)))%nat
  /\ config (self (scheduleReconnect e)) = config (self e)
  /\ reconnectAttempts (self (scheduleReconnect e)) = reconnectAttempts (self e).
Proof.
  destruct (clear_frame e) as (Ha & Ht & Hc & Hr). unfold scheduleReconnect.
  cbn [self timers config reconnectAttempts]. rewrite length_app. cbn [length].
  split; [exact Ha|]. split; [lia|]. done.
Qed.

Lemma within_onerror (c : EventSourceConfig) (k : nat) (e : Env) (i : nat)
  (rs : ReadyState) (b : bool) :
  within c k e ->
  within c k
    (SafeEventSource.onerror
       (mkEnv (self e) (alter (setReadyState rs b) i (SafeEventSource.sources e))
          (timers e) (nextTimer e))).
Proof.
  intros Hin. pose proof Hin as (Hcfg & Hpos & Hle).
  unfold SafeEventSource.onerror. set (e1 := closeSource _).
  assert (SafeEventSource.attempts e1 = SafeEventSource.attempts e
          /\ timers e1 = timers e /\ config (self e1) = config (self e)
          /\ reconnectAttempts (self e1) = reconnectAttempts (self e))
    as (Ha1 & Ht1 & Hc1 & Hr1).
  { subst e1. rewrite closeSource_attempts. unfold closeSource. cbn.
    split; [|by destruct (eventSource (self e))].
    unfold SafeEventSource.attempts. cbn. apply foldr_requests. by apply requests_alter. }
  destruct (isManuallyDisconnected (self e1)).
  { apply (within_frame c k e); try done. by rewrite Ht1. }
  set (e2 := onSelf _ e1).
  assert (SafeEventSource.attempts e2 = SafeEventSource.attempts e
          /\ timers e2 = timers e /\ config (self e2) = withDefaults c
          /\ reconnectAttempts (self e2) = reconnectAttempts (self e) + 1)
    as (Ha2 & Ht2 & Hc2 & Hr2).
  { subst e2. unfold onSelf. cbn. by rewrite Hc1, Hr1, Hcfg. }
  rewrite Hc2, Hr2. fold (attemptsAllowed c).
  destruct (Z.leb_spec (reconnectAttempts (self e) + 1) (attemptsAllowed c)) as [Hok|Hno].
  - destruct (scheduleReconnect_frame e2) as (Ha3 & Ht3 & Hc3 & Hr3).
    unfold within. rewrite Hc3, Hr3, Ha3, Hc2, Hr2, Ha2.
    split; [done|]. split; [lia|]. rewrite Ht2 in Ht3. lia.
  - unfold within. rewrite Hc2, Hr2, Ha2, Ht2.
    split; [done|]. split; [lia|]. lia.
Qed.

Lemma length_filter_handle (h : nat) (l : list (nat * Z)) :
  h ∈ l.*1 -> (length (filter (fun tm : nat * Z => tm.1 ≠ h) l) < length l)%nat.
Proof.
  induction l as [|tm l IH]; intros Hin; [by apply elem_of_nil in Hin|].
  cbn in Hin. destruct (decide (tm.1 = h)) as [Heq|Hne].
  - rewrite filter_cons_False by (intros ?; done).
    pose proof (length_filter (fun tm : nat * Z => tm.1 ≠ h) l). cbn. lia.
  - rewrite filter_cons_True by done. cbn.
    apply elem_of_cons in Hin as [?|Hin]; [congruence|].
    specialize (IH Hin). lia.
Qed.

Lemma within_step (c : EventSourceConfig) (k : nat) (e : Env) (input : SafeEventSource.Input) :
  SafeEventSource.wellFormed e -> within c k e ->
  within c (k + if isConnect input then 1 else 0) (SafeEventSource.step e input).
Proof.
  intros Hwf Hin. pose proof Hin as (Hcfg & Hpos & Hle).
  destruct input as [| | |i ev|i fatal|i|h]; cbn [isConnect];
    rewrite ?Nat.add_0_r.
  - destruct (connect_frame e Hwf) as (Ha & Ht & Hc & Hr).
    split; [by rewrite <- Hcfg|]. cbn [SafeEventSource.step]. rewrite Hr. split; [done|].
    rewrite Ha. lia.
  - destruct (attempts_close e Hwf) as [Ha Ht]. destruct (close_self e) as [Hc Hr].
    cbn [SafeEventSource.step].
    apply (within_frame c k e); try done. rewrite Ht. cbn. lia.
  - change (SafeEventSource.step e Destroy)
      with (clearReconnectTimeout (SafeEventSource.close e)).
    destruct (attempts_close e Hwf) as [Ha Ht]. destruct (close_self e) as [Hc Hr].
    destruct (clear_frame (SafeEventSource.close e)) as (Ha' & Ht' & Hc' & Hr').
    apply (within_frame c k e); try done; try congruence.
    rewrite Ht in Ht'. cbn in Ht'. lia.
  - done.
  - cbn [SafeEventSource.step].
    destruct (SafeEventSource.sources e !! i) as [es|] eqn:Hi; cbn; [|done].
    destruct (readyState es) eqn:Hrs; [| |done]; by apply within_onerror.
  - cbn [SafeEventSource.step]. destruct (SafeEventSource.sources e !! i) as [es|] eqn:Hi; [|done].
    destruct Hwf as [(Hl & Hr & Hn) Ht]. rewrite (Hr i es Hi).
    by destruct (readyState es).
  - cbn [SafeEventSource.step]. case_bool_decide as Hpending; [|done].
    set (e1 := mkEnv _ _ _ _).
    assert (SafeEventSource.wellFormed e1) as Hwf1.
    { destruct Hwf as [Hc Ht]. split; cbn; [done|].
      intros tm [_ Htm]%list_elem_of_filter. by apply Ht. }
    pose proof (length_filter_handle h (timers e) Hpending) as Hlt.
    unfold onTimeout. destruct (isManuallyDisconnected (self e1)).
    + apply (within_frame c k e); try done. subst e1. cbn. lia.
    + destruct (connect_frame e1 Hwf1) as (Ha & Ht & Hc & Hr).
      unfold within. rewrite Hc, Hr, Ha. subst e1.
      cbn [self timers config reconnectAttempts] in *.
      change (SafeEventSource.attempts (mkEnv _ (SafeEventSource.sources e) _ _))
        with (SafeEventSource.attempts e).
      split; [done|]. split; [done|]. lia.
Qed.

Lemma within_run (c : EventSourceConfig) (ins : list SafeEventSource.Input)
  (k : nat) (e : Env) :
  SafeEventSource.wellFormed e -> within c k e ->
  within c (k + explicitConnects ins) (SafeEventSource.run ins e).
Proof.
  revert k e. induction ins as [|input ins IH]; intros k e Hwf Hin.
  - cbn. by rewrite Nat.add_0_r.
  - cbn [explicitConnects].
    change (SafeEventSource.run (input :: ins) e)
      with (SafeEventSource.run ins (SafeEventSource.step e input)).
    rewrite Nat.add_assoc. apply IH.
    + by apply wellFormed_safe_step.
    + by apply within_step.
Qed.

(** Over its whole life an object makes at most as many requests as
    [connect()] was called, plus the configured number of reconnections. *)
Lemma attempts_bounded (u : string) (c : EventSourceConfig)
  (ins : list SafeEventSource.Input) :
  (SafeEventSource.attempts (SafeEventSource.run ins (create u c))
   <= explicitConnects ins + Z.to_nat (attemptsAllowed c))%nat.
Proof.
  destruct (within_run c ins 0 (create u c)) as (_ & Hpos & Hle).
  - split; cbn; [by split; [|split]|]. by intros tm ?%elem_of_nil.
  - split; [done|]. split; [done|]. cbn. lia.
  - cbn [Nat.add] in Hle. lia.
Qed.

End BoundFacts.

Section HoldingFacts.
Import Consumer SafeEventSource.

Lemma holding_connect (e : Env) : holding (connect e).
Proof.
  intros i Hi. unfold connect in *. cbn in *. split; [done|].
  injection Hi as <-. eexists. split; [by apply list_lookup_middle|done].
Qed.

Lemma onerror_drops (e : Env) : eventSource (self (SafeEventSource.onerror e)) = None.
Proof.
  unfold SafeEventSource.onerror.
  destruct (closeSource_frame e) as (_ & Hn & _).
  set (e1 := closeSource e) in *.
  destruct (isManuallyDisconnected (self e1)); [done|].
  match goal with |- context [if ?b then _ else _] => destruct b end; [|done].
  unfold scheduleReconnect, clearReconnectTimeout. cbn.
  by destruct (reconnectTimeout (self e1)).
Qed.

Lemma holding_step (e : Env) (input : SafeEventSource.Input) :
  SafeEventSource.wellFormed e -> holding e -> holding (SafeEventSource.step e input).
Proof.
  intros Hwf Hh. destruct input as [| | |i ev|i fatal|i|h]; cbn [SafeEventSource.step].
  - apply holding_connect.
  - intros j Hj. destruct (close_quiet e Hwf) as ((_ & Hn & _) & _). congruence.
  - intros j Hj. unfold destroy in Hj.
    destruct (close_quiet e Hwf) as ((_ & Hn & _) & _).
    unfold clearReconnectTimeout in Hj.
    destruct (reconnectTimeout (self (SafeEventSource.close e))); cbn in Hj; congruence.
  - done.
  - destruct (SafeEventSource.sources e !! i) as [es|]; cbn [fmap option_fmap option_map];
      [|done].
    destruct (readyState es); [| |done]; intros j Hj; by rewrite onerror_drops in Hj.
  - destruct (SafeEventSource.sources e !! i) as [es|] eqn:Hi; [|done].
    destruct Hwf as [(_ & Hr & _) _]. rewrite (Hr i es Hi). by destruct (readyState es).
  - case_bool_decide; [|done]. unfold onTimeout. cbn [self].
    destruct (isManuallyDisconnected (self e)); [exact Hh|apply holding_connect].
Qed.

Lemma reachable_holding (u : string) (c : EventSourceConfig) (e : Env) :
  SafeEventSource.reachable u c e -> holding e.
Proof.
  intros [ins ->]. unfold SafeEventSource.run. rewrite <- (rev_involutive ins).
  induction (rev ins) as [|input l IH]; [by intros i Hi|].
  cbn [rev]. rewrite fold_left_app. cbn [fold_left].
  apply holding_step; [|done].
  apply (reachable_safe_wellFormed u c). by exists (rev l).
Qed.

Lemma reachable_config (u : string) (c : EventSourceConfig) (e : Env) :
  SafeEventSource.reachable u c e ->
  config (self e) = withDefaults c /\ 0 <= reconnectAttempts (self e).
Proof.
  intros [ins ->].
  destruct (within_run c ins 0 (create u c)) as (Hc & Hp & _); [| |done].
  - split; cbn; [by split; [|split]|]. by intros tm ?%elem_of_nil.
  - split; [done|]. split; [done|]. cbn. lia.
Qed.

(** A transport error on the source an object holds: the object drops the
    source and counts the error; while the count stays within the attempts
    allowed it sets one timer, the only one pending, and the timer makes the
    next request; past them it sets none. *)
Lemma error_on_held (u : string) (c : EventSourceConfig) (e : Env) (i : nat)
  (fatal : bool) :
  SafeEventSource.reachable u c e -> eventSource (self e) = Some i ->
  let e1 := SafeEventSource.step e (Error i fatal) in
  eventSource (self e1) = None
  /\ reconnectAttempts (self e1) = reconnectAttempts (self e) + 1
  /\ SafeEventSource.attempts e1 = SafeEventSource.attempts e
  /\ (reconnectAttempts (self e) < attemptsAllowed c ->
      timers e1 = [(nextTimer e, backoff c (reconnectAttempts (self e) + 1))]
      /\ SafeEventSource.attempts (SafeEventSource.step e1 (Timeout (nextTimer e)))
         = S (SafeEventSource.attempts e))
  /\ (attemptsAllowed c <= reconnectAttempts (self e) -> timers e1 = timers e).
Proof.
  intros Hreach Hi e1.
  pose proof (reachable_safe_wellFormed u c e Hreach) as Hwf.
  destruct (reachable_config u c e Hreach) as [Hcfg Hpos].
  destruct (reachable_holding u c e Hreach i Hi) as (Hman & es & Hes & Hlive).
  assert (SafeEventSource.wellFormed e1) as Hwf1 by by apply wellFormed_safe_step.
  subst e1. revert Hwf1. cbn [SafeEventSource.step]. rewrite Hes.
  cbn [fmap option_fmap option_map].
  set (e0 := mkEnv (self e)
               (alter (setReadyState (if fatal then CLOSED else CONNECTING) (negb fatal)) i
                  (SafeEventSource.sources e)) (timers e) (nextTimer e)).
  assert (SafeEventSource.attempts e0 = SafeEventSource.attempts e) as Ha0.
  { unfold SafeEventSource.attempts. subst e0. cbn. apply foldr_requests.
    by apply requests_alter. }
  assert (match readyState es with
          | CLOSED => e
          | _ => SafeEventSource.onerror e0
          end = SafeEventSource.onerror e0) as ->.
  { unfold live in Hlive. by destruct (readyState es). }
  intros Hwf1. revert Hwf1. unfold SafeEventSource.onerror.
  destruct (closeSource_frame e0) as (_ & Hn1 & Ht1 & Hm1 & Hr1 & Hrt1 & Hc1 & Hnt1).
  pose proof (closeSource_attempts e0) as Ha1.
  set (e2 := closeSource e0) in *.
  change (isManuallyDisconnected (self e0)) with (isManuallyDisconnected (self e)) in Hm1.
  rewrite Hm1, Hman. set (e3 := onSelf _ e2).
  assert (config (self e3) = withDefaults c
          /\ reconnectAttempts (self e3) = reconnectAttempts (self e) + 1
          /\ timers e3 = timers e /\ nextTimer e3 = nextTimer e
          /\ SafeEventSource.attempts e3 = SafeEventSource.attempts e
          /\ reconnectTimeout (self e3) = reconnectTimeout (self e)
          /\ eventSource (self e3) = None
          /\ isManuallyDisconnected (self e3) = false)
    as (Hc3 & Hr3 & Ht3 & Hnt3 & Ha3 & Hrt3 & Hn3 & Hm3).
  { subst e3. unfold onSelf. cbn. rewrite Hc1, Hr1, Ht1, Hnt1, Hrt1, Hn1, Hm1.
    repeat split; try done. change (SafeEventSource.attempts e2 = SafeEventSource.attempts e).
    congruence. }
  rewrite Hc3, Hr3. fold (attemptsAllowed c).
  destruct (Z.leb_spec (reconnectAttempts (self e) + 1) (attemptsAllowed c)) as [Hok|Hno].
  - intros Hwf1.
    destruct (scheduleReconnect_frame e3) as (Ha4 & Ht4 & Hc4 & Hr4).
    assert (forall tm, tm ∈ timers e3 -> reconnectTimeout (self e3) = Some tm.1) as Hte.
    { rewrite Ht3, Hrt3. by destruct Hwf. }
    destruct (clearReconnectTimeout_frame e3 Hte) as (Hc0 & Hcs & Hce & Hcm & Hcn).
    assert (forall x : Env, config (self (clearReconnectTimeout x)) = config (self x)
              /\ reconnectAttempts (self (clearReconnectTimeout x))
                 = reconnectAttempts (self x)) as Hk.
    { intros x. unfold clearReconnectTimeout. by destruct (reconnectTimeout (self x)). }
    assert (timers (scheduleReconnect e3)
            = [(nextTimer e, backoff c (reconnectAttempts (self e) + 1))]) as Htm.
    { unfold scheduleReconnect. cbn [timers]. rewrite Hc0, Hcn. cbn [app].
      destruct (Hk e3) as [-> ->]. by rewrite Hc3, Hr3, Hnt3. }
    split.
    { unfold scheduleReconnect. cbn. by rewrite Hce. }
    split; [by rewrite Hr4|]. split; [by rewrite Ha4|].
    split; [|lia]. intros _. split; [exact Htm|].
    cbn [SafeEventSource.step]. rewrite Htm. cbn [fmap list_fmap fst].
    rewrite bool_decide_eq_true_2 by (apply list_elem_of_singleton; done).
    unfold onTimeout. cbn [self].
    assert (isManuallyDisconnected (self (scheduleReconnect e3)) = false) as ->.
    { unfold scheduleReconnect. cbn. by rewrite Hcm. }
    match goal with
    | |- SafeEventSource.attempts (connect ?x) = _ =>
      assert (SafeEventSource.wellFormed x) as Hwfx
    end.
    { destruct Hwf1 as [Hc Ht]. split; [exact Hc|].
      intros tm Htm'. cbn [timers] in Htm'. rewrite filter_cons_False in Htm' by (cbn; tauto).
      by apply elem_of_nil in Htm'. }
    destruct (connect_frame _ Hwfx) as (-> & _). f_equal.
    change (SafeEventSource.attempts (mkEnv ?s (SafeEventSource.sources ?x) _ _))
      with (SafeEventSource.attempts x).
    by rewrite Ha4.
  - intros _. split; [done|]. split; [done|]. split; [done|].
    split; [lia|]. by intros _.
Qed.

End HoldingFacts.

Section ReconnectFacts.
Import Consumer.

Lemma attempts_eq (w w' : World) :
  requests <$> sources w' = requests <$> sources w -> attempts w' = attempts w.
Proof. intros H. unfold attempts. by apply foldr_requests. Qed.

(** No step but a call of [sendMessage] makes a request. *)
Lemma step_attempts (v : Version) (p : Props) (w : World) (ti : Z * Input) :
  wellFormed w -> isSend ti = false -> attempts (step v p w ti) = attempts w.
Proof.
  intros Hwf Hns. destruct ti as [t input].
  destruct input as [text| | |i|i f|i fatal|i]; [done|..]; apply attempts_eq.
  - cbn [step]. destruct (reconnect_sources v w) as (-> & _). apply requests_staleClosed.
  - cbn [step]. destruct v; [done|]. destruct (cleanup_sources w) as (-> & _).
    apply requests_staleClosed.
  - cbn. destruct (sources w !! i) as [es|] eqn:Hi; [|done].
    destruct (readyState es); try done. destruct (retrying es); [done|].
    destruct (onopen_frame v (onSources (alter (setReadyState OPEN false) i) w))
      as (-> & _).
    cbn. by apply requests_alter.
  - cbn. destruct (stateOf w i) as [[]|]; try done.
    unfold onmessage. destruct (parseAGUIEvent f) as [[|e]|]; try done.
    destruct (handleAGUIEvent_sources v t e w) as [[-> _]|(_ & _ & -> & _)]; [done|].
    apply requests_staleClosed.
  - pose proof (step_Failed v p t i fatal w Hwf) as H. cbn zeta in H.
    destruct (stateOf w i) as [[]|]; try (by rewrite H);
      destruct H as (-> & _); apply requests_staleClosed.
  - by rewrite step_Reestablish.
Qed.

Lemma run_attempts (v : Version) (p : Props) (ins : list (Z * Input)) (w : World) :
  wellFormed w -> forallb (fun ti => negb (isSend ti)) ins = true ->
  attempts (run v p ins w) = attempts w.
Proof.
  revert w. induction ins as [|ti ins IH]; intros w Hwf Hall; [done|].
  cbn in Hall. apply andb_prop in Hall as [Hns Hall]. apply negb_true_iff in Hns.
  change (run v p (ti :: ins) w) with (run v p ins (step v p w ti)).
  rewrite IH by (by try apply wellFormed_step). by apply step_attempts.
Qed.

End ReconnectFacts.


(* ===================================================================== *)
(** * The claims                                                           *)
(* ===================================================================== *)

Section ProducerClaims.
Import Producer Server.

(** Claim C2 fails on the handler as the server runs it.

    A text recorded six seconds ago is accepted again: "hiking" is accepted
    on one connection, whose next request, "bike", is decoded into the same
    array; the key of the table, which shares its bytes with that array, now
    reads "bikeng", and "hiking", sent on a second connection, is looked up
    in vain.  Without the request in between it is answered 429.

    Two requests for one text that arrive together are both accepted,
    whatever the text and the instants: the check and the recording are two
    critical sections, and each request passes the check before the other
    has recorded. *)
Theorem duplicate_accepted_within_window :
  responses initial
    [ Arrive 0 "hiking"; Dedup 0 0; Accept 0 0;
      Arrive 0 "bike"; Dedup 0 (3 * Second); Accept 0 (3 * Second);
      Arrive 1 "hiking"; Dedup 1 (6 * Second); Accept 1 (6 * Second) ]
  = Some [ (0%nat, EventStream StatusOK sseHeaders "hiking");
           (0%nat, EventStream StatusOK sseHeaders "bike");
           (1%nat, EventStream StatusOK sseHeaders "hiking") ]
  /\ responses initial
       [ Arrive 0 "hiking"; Dedup 0 0; Accept 0 0;
         Arrive 1 "hiking"; Dedup 1 (6 * Second); Accept 1 (6 * Second) ]
     = Some [ (0%nat, EventStream StatusOK sseHeaders "hiking");
              (1%nat, duplicate) ]
  /\ responses initial
       [ Arrive 0 "hiking"; Arrive 1 "hiking";
         Dedup 0 0; Dedup 1 1; Accept 0 2; Accept 1 3 ]
     = Some [ (0%nat, EventStream StatusOK sseHeaders "hiking");
              (1%nat, EventStream StatusOK sseHeaders "hiking") ]
  /\ (forall (s : State) (b1 b2 : nat) (m1 m2 : GoString) (t1 t2 t3 t4 : Z),
        b1 <> b2 ->
        inflight s !! b1 = Some (Arrived m1) -> inflight s !! b2 = Some (Arrived m2) ->
        bytes (memory s) m1 <> "" -> bytes (memory s) m2 <> "" ->
        Producer.decodeMessage (bytes (memory s) m2)
        = Producer.decodeMessage (bytes (memory s) m1) ->
        readers (memory s) (Producer.decodeMessage (bytes (memory s) m1)) 0 (entries s)
        = [] ->
        responses s [Dedup b1 t1; Dedup b2 t2; Accept b1 t3; Accept b2 t4]
        = Some [ (b1, EventStream StatusOK sseHeaders
                        (Producer.decodeMessage (bytes (memory s) m1)));
                 (b2, EventStream StatusOK sseHeaders
                        (Producer.decodeMessage (bytes (memory s) m1))) ]).
Proof.
  split; [vm_compute; reflexivity|]. split; [vm_compute; reflexivity|].
  split; [vm_compute; reflexivity|]. apply both_pass.
Qed.

End ProducerClaims.

Section StreamClaims.
Import Producer.

(** Claim C3 as stated fails on an internal failure: the text generator
    panics after [StreamingStart] has been written and flushed.  The
    deferred function catches the panic and logs it; the writer ends there,
    and the client has received [StreamingStart] and nothing else.  So it is
    whatever [json.Marshal] gives and whatever the query. *)
Lemma generator_panic_without_Error :
  (forall Marshal : Event -> string,
     streamWriter (Some "127.0.0.1") Marshal (fun _ => None) (fun _ => true) 42 "hiking"
     = (Recovered, mkWriter [] 0 [StreamingStartEvent "msg-42"] false 1))
  /\ (forall (Marshal : Event -> string) (q : string),
        let r := streamWriter (Some "127.0.0.1") Marshal (fun _ => None)
                   (fun _ => true) 42 q in
        r.1 = Recovered
        /\ last (delivered r.2) = Some (StreamingStartEvent "msg-42")
        /\ forall m, ErrorEvent m ∉ delivered r.2).
Proof.
  assert (forall Marshal q,
            streamWriter (Some "127.0.0.1") Marshal (fun _ => None) (fun _ => true) 42 q
            = (Recovered, mkWriter [] 0 [StreamingStartEvent "msg-42"] false 1)) as H.
  { intros Marshal q.
    exact (streamWriter_recovered "127.0.0.1" Marshal (fun _ => None) (fun _ => true)
             42 q eq_refl). }
  split; [intros; apply H|]. intros Marshal q r. subst r. rewrite H.
  split; [done|]. split; [done|]. intros m. cbn.
  apply not_elem_of_cons. split; [done|]. apply not_elem_of_nil.
Qed.

(** No run of the writer puts an [ErrorEvent] in the buffer or on the
    connection. *)
Lemma Flush_events (conn : nat -> bool) (w : Writer) (P : Event -> Prop) :
  Forall P (buffered w) -> Forall P (delivered w) ->
  Forall P (buffered (Flush conn w)) /\ Forall P (delivered (Flush conn w)).
Proof.
  intros Hb Hd. unfold Flush.
  repeat match goal with
         | |- context [if ?c then _ else _] => destruct c
         end; cbn; rewrite ?Forall_app; auto.
Qed.

Lemma Write_events (conn : nat -> bool) (w : Writer) (e : Event) (p : string)
  (P : Event -> Prop) :
  P e -> Forall P (buffered w) -> Forall P (delivered w) ->
  Forall P (buffered (Write conn w e p).1) /\ Forall P (delivered (Write conn w e p).1).
Proof.
  intros He Hb Hd. unfold Write.
  repeat match goal with
         | |- context [if ?c then _ else _] => destruct c
         end; cbn; rewrite ?Forall_app, ?Forall_singleton; auto.
Qed.

Lemma streamWords_events (Marshal : Event -> string) (conn : nat -> bool) (n i : Z)
  (words : list string) (w : Writer) (P : Event -> Prop) :
  (forall c b, P (TextMessageEvent c b)) ->
  Forall P (buffered w) -> Forall P (delivered w) ->
  Forall P (buffered (streamWords Marshal conn n i words w))
  /\ Forall P (delivered (streamWords Marshal conn n i words w)).
Proof.
  intros HP. revert i w. induction words as [|word rest IH]; intros i w Hb Hd; [done|].
  rewrite streamWords_cons. apply IH; apply Flush_events; apply Write_events; auto;
    apply HP.
Qed.

Lemma streamWriter_events (clientIP : option string) (Marshal : Event -> string)
  (generate : string -> option string) (conn : nat -> bool) (now : Z) (q : string)
  (P : Event -> Prop) :
  (forall id, P (StreamingStartEvent id)) -> (forall c b, P (TextMessageEvent c b)) ->
  P StreamingEndEvent ->
  let w := (streamWriter clientIP Marshal generate conn now q).2 in
  Forall P (buffered w) /\ Forall P (delivered w).
Proof.
  intros Hs Ht He. cbn zeta. unfold streamWriter. destruct clientIP as [ip|]; [|done].
  assert (Forall P (buffered (writeEvent Marshal conn newWriter
                                (StreamingStartEvent ("msg-" +:+ Text.itoa now))).1)
          /\ Forall P (delivered (writeEvent Marshal conn newWriter
                                    (StreamingStartEvent ("msg-" +:+ Text.itoa now))).1))
    as [Hb1 Hd1] by (apply Write_events; auto).
  destruct (writeEvent Marshal conn newWriter _) as [w1 ok]. cbn [fst snd] in *.
  destruct ok; cbn [negb]; [|by apply Flush_events].
  pose proof (Flush_events conn w1 P Hb1 Hd1) as [Hb2 Hd2].
  destruct (generate q) as [response|]; [|by apply Flush_events].
  pose proof (streamWords_events Marshal conn
                (Z.of_nat (length (Text.Fields response))) 0 (Text.Fields response)
                _ P Ht Hb2 Hd2) as [Hb3 Hd3].
  assert (Forall P (buffered (writeEvent Marshal conn
                                (streamWords Marshal conn
                                   (Z.of_nat (length (Text.Fields response))) 0
                                   (Text.Fields response) (Flush conn w1))
                                StreamingEndEvent).1)
          /\ Forall P (delivered (writeEvent Marshal conn
                                    (streamWords Marshal conn
                                       (Z.of_nat (length (Text.Fields response))) 0
                                       (Text.Fields response) (Flush conn w1))
                                    StreamingEndEvent).1))
    as [Hb4 Hd4] by (apply Write_events; auto).
  destruct (writeEvent Marshal conn (streamWords _ _ _ _ _ _) StreamingEndEvent)
    as [w4 ok4]. cbn [fst snd] in *.
  apply Flush_events; by apply Flush_events.
Qed.

(** Claim C3, as amended.  The producer never emits an [ErrorEvent],
    whatever happens.  When the first statement of the writer panics nothing
    catches the panic and the client receives no event.  When the writer
    gets past it:
    - if the text generator panics, the deferred function catches the panic
      and the writer ends, the client having received [StreamingStart]
      alone, or nothing when the connection refused it;
    - if the generator returns, the client receives a prefix of the
      sequence [StreamingStart], one text event per word, [StreamingEnd]:
      up to the first write the connection refuses, after which the
      writer's error is sticky, the word loop breaks and the write of
      [StreamingEnd] fails as well; the whole sequence when the connection
      refuses none. *)
Theorem streamWriter_emits_no_Error (clientIP : option string)
  (Marshal : Event -> string) (generate : string -> option string)
  (conn : nat -> bool) (now : Z) (q : string) :
  let r := streamWriter clientIP Marshal generate conn now q in
  (forall m, (ErrorEvent m ∉ delivered r.2) /\ (ErrorEvent m ∉ buffered r.2))
  /\ (clientIP = None -> r.1 = Crashed /\ delivered r.2 = [] /\ buffered r.2 = [])
  /\ (forall ip, clientIP = Some ip -> generate q = None ->
      fst r <> Crashed
      /\ (conn 0%nat = true -> fst r = Recovered)
      /\ delivered r.2
         = (if conn 0%nat then [StreamingStartEvent ("msg-" +:+ Text.itoa now)] else [])
      /\ StreamingEndEvent ∉ delivered r.2)
  /\ (forall ip response, clientIP = Some ip -> generate q = Some response ->
      r.1 = Returned
      /\ (exists k, delivered r.2 = take k (streamOf now response)
                    /\ (forall j, (j < k)%nat -> conn j = true)
                    /\ (failed r.2 = true -> conn k = false))
      /\ (failed r.2 = true -> StreamingEndEvent ∉ delivered r.2)
      /\ (failed r.2 = false -> delivered r.2 = streamOf now response)
      /\ ((forall k, conn k = true) -> failed r.2 = false)).
Proof.
  intros r. split; [|split; [|split]].
  - intros m.
    destruct (streamWriter_events clientIP Marshal generate conn now q
                (fun e => e <> ErrorEvent m)) as [Hb Hd]; try done.
    fold r in Hb, Hd. rewrite Forall_forall in Hb, Hd.
    split; intros Hin; [by apply Hd in Hin|by apply Hb in Hin].
  - intros ->. subst r. by rewrite streamWriter_crashed.
  - intros ip -> Hg. subst r.
    pose proof (streamWriter_recovered ip Marshal generate conn now q Hg) as H.
    cbn zeta in H. destruct (conn 0%nat).
    + rewrite H. cbn. split; [done|]. split; [done|]. split; [done|].
      apply not_elem_of_cons. split; [done|]. apply not_elem_of_nil.
    + destruct H as (He & _ & Hd). rewrite He, Hd.
      split; [by destruct (writeEvent _ _ _ _).2|]. split; [done|]. split; [done|].
      apply not_elem_of_nil.
  - intros ip response -> Hg. subst r.
    destruct (streamWriter_prefix ip Marshal generate conn now q response Hg)
      as (k & Hd & _ & Hj & Hk).
    cbn zeta in *. rewrite (streamWriter_eq _ _ _ _ _ _ _ Hg) in *. cbn [fst snd] in *.
    split; [done|]. split; [|split; [|split]].
    + exists k. split; [done|]. split; [done|]. intros Hf. rewrite Hf in Hk. tauto.
    + intros Hf. rewrite Hf in Hk. rewrite Hd.
      apply take_fullStream_no_End. tauto.
    + intros Hf. rewrite Hf in Hk. destruct Hk as [-> _]. rewrite Hd. apply firstn_all.
    + intros Hconn. destruct (failed _); [|done].
      destruct Hk as (_ & Hc & _). by rewrite Hconn in Hc.
Qed.

End StreamClaims.

Section TransportClaims.
Import Consumer.

(** Claim C9 fails for the second revision of the consumer: the parameter
    is encoded once by the URL, decoded once by [c.Query] and once more by
    [url.QueryUnescape], so "1+1" reaches [generateResponse] as "1 1" and
    "50%25 off" as "50% off".  With the first revision, which encodes the
    text before setting the parameter, every text comes through as typed. *)
Theorem query_text_decoded_twice :
  Transport.decodedMessage V2 "1+1" = "1 1"
  /\ Transport.decodedMessage V2 "50%25 off" = "50% off"
  /\ (forall text, Transport.queryParam V2 text = text)
  /\ (forall text, Transport.decodedMessage V2 text = Producer.decodeMessage text)
  /\ (forall text, Transport.decodedMessage V1 text = text).
Proof.
  split; [reflexivity|]. split; [reflexivity|]. split; [|split].
  - intros text. apply decodeArg_formEncode.
  - intros text. unfold Transport.decodedMessage, Transport.queryParam,
      Transport.onWire. cbn [messageParam]. by rewrite decodeArg_formEncode.
  - intros text. unfold Transport.decodedMessage, Transport.queryParam,
      Transport.onWire, Producer.decodeMessage. cbn [messageParam].
    by rewrite decodeArg_formEncode, QueryUnescape_encodeURIComponent.
Qed.

End TransportClaims.

Section ReassemblyClaims.
Import Consumer.

Lemma concat_textEvents (n i : Z) (words : list string) :
  n = i + Z.of_nat (length words) ->
  Text.concat (Producer.Content <$> Producer.textEvents n i words)
  = Text.Join words " ".
Proof.
  revert i. induction words as [|word rest IH]; intros i Hn; [done|].
  cbn [Producer.textEvents fmap list_fmap Producer.textEvent Producer.Content].
  change (Text.concat (?x :: ?l)) with (x +:+ Text.concat l).
  change (list_fmap _ _ Producer.Content ?l) with (Producer.Content <$> l).
  rewrite (IH (i + 1)) by (cbn [length] in Hn; lia).
  destruct rest as [|word2 rest].
  - cbn [length] in Hn. replace (i <? n - 1) with false by (symmetry; apply Z.ltb_ge; lia).
    cbn. apply append_nil_r.
  - cbn [length] in Hn. replace (i <? n - 1) with true by (symmetry; apply Z.ltb_lt; lia).
    cbn [Text.Join]. apply append_assoc.
Qed.

Lemma timedFrames_texts (clock : nat -> Z) (n : Z) (words : list string) (i : Z) (k : nat) :
  exists chunks : list (Z * string * option bool),
    Transport.timedFrames clock k (Producer.textEvents n i words) = textFrame <$> chunks
    /\ chunks.*1.*2 = Producer.Content <$> Producer.textEvents n i words.
Proof.
  revert i k. induction words as [|word rest IH]; intros i k.
  - by exists [].
  - destruct (IH (i + 1) (S k)) as (chunks & Hf & Hc).
    exists ((clock k, Producer.Content (Producer.textEvent n i word),
             Some (i =? n - 1)) :: chunks).
    cbn [Producer.textEvents Transport.timedFrames fmap list_fmap].
    split; [|by f_equal]. f_equal. exact Hf.
Qed.

(** Claim C5 as stated fails for a stream whose client goes away: the
    stand-in's answer to "hiking" has 45 words, the connection takes two
    writes and refuses the third, and the producer has emitted one text
    event when the word loop breaks.  So it is whatever [json.Marshal]
    gives. *)
Lemma stream_cut_short :
  (forall Marshal : Producer.Event -> string,
     let w := (Producer.streamWriter (Some "127.0.0.1") Marshal
                 (fun q => Some (Producer.generateResponse (fun s => s) q))
                 (fun k => (k <? 2)%nat) 42 "hiking").2 in
     Producer.delivered w
     = [Producer.StreamingStartEvent "msg-42"; Producer.TextMessageEvent "I " false]
     /\ Producer.failed w = true)
  /\ length (Text.Fields (Producer.generateResponse (fun s => s) "hiking")) = 45%nat.
Proof.
  split; [|by vm_compute]. intros Marshal w.
  destruct (streamWriter_prefix "127.0.0.1" Marshal
              (fun q => Some (Producer.generateResponse (fun s => s) q))
              (fun k => (k <? 2)%nat) 42 "hiking" _ eq_refl) as (k & Hd & _ & Hj & Hk).
  cbn zeta in *. fold w in Hd, Hk.
  assert (k = 2%nat) as ->.
  { destruct (Producer.failed w).
    - destruct Hk as (_ & Hc & _). apply Nat.ltb_ge in Hc.
      destruct (decide (k = 2%nat)) as [|Hne]; [done|].
      specialize (Hj 2%nat ltac:(lia)). done.
    - destruct Hk as [-> _]. specialize (Hj 2%nat ltac:(vm_compute; lia)). done. }
  split; [by rewrite Hd|].
  destruct (Producer.failed w); [done|]. by destruct Hk as [Hk _].
Qed.

(** Claim C5, as amended.  On a run of the writer that gets past its first
    statement and whose generator returns, the client receives a prefix of
    the sequence [StreamingStart], one text event per token of the
    response, [StreamingEnd]: the events up to the first write the
    connection refuses, all of them when it refuses none.  The [k]-th text
    event carries the [k]-th token, followed by a space unless it is the
    last, and [IsComplete] is set on the last only; the contents
    concatenate to the tokens joined by single spaces.  The tokens are
    those of [strings.Fields]: each is not empty and holds no white-space
    byte, and the words that single spaces join are given back as they
    are.  The consumer, after [STREAMING_START], folds any list of text
    chunks into the concatenation of their contents in arrival order, so
    two ways of cutting the same text give the same content.  Together, for
    a connection that refuses no write: the message assembled from the
    producer's events has the tokens joined by single spaces as its content,
    and is no longer streaming. *)
Theorem text_reassembly :
  (forall (ip : string) (Marshal : Producer.Event -> string)
      (generate : string -> option string) (conn : nat -> bool) (now : Z)
      (q response : string),
     generate q = Some response ->
     let words := Text.Fields response in
     let n := Z.of_nat (length words) in
     let texts := Producer.textEvents n 0 words in
     let whole :=
       Producer.StreamingStartEvent ("msg-" +:+ Text.itoa now)
       :: texts ++ [Producer.StreamingEndEvent] in
     let w := (Producer.streamWriter (Some ip) Marshal generate conn now q).2 in
     (exists k : nat,
        Producer.delivered w = take k whole
        /\ (forall j, (j < k)%nat -> conn j = true)
        /\ ((k < length whole)%nat -> conn k = false))
     /\ ((forall k, conn k = true) -> Producer.delivered w = whole)
     /\ length texts = length words
     /\ (forall (k : nat) (word : string), words !! k = Some word ->
           texts !! k
           = Some (Producer.TextMessageEvent
                     (if Z.of_nat k <? n - 1 then word +:+ " " else word)
                     (Z.of_nat k =? n - 1)))
     /\ Text.concat (Producer.Content <$> texts) = Text.Join words " ")
  /\ (forall s : string,
        Forall (fun word => word <> "" /\ Bytes.spaceFree word = true) (Text.Fields s))
  /\ (forall words : list string,
        Forall (fun word => word <> "" /\ Bytes.solid word = true) words ->
        Text.Fields (Text.Join words " ") = words)
  /\ (forall (v : Version) (w : World) (t : Z) (mid : option string)
        (chunks : list (Z * string * option bool)),
        assembled (receive v ((t, Single (Parsed (STREAMING_START mid)))
                              :: (textFrame <$> chunks)) w)
        = Some (Text.concat (chunks.*1.*2)))
  /\ (forall (v : Version) (w : World) (t : Z) (mid : option string)
        (chunks1 chunks2 : list (Z * string * option bool)),
        Text.concat (chunks1.*1.*2) = Text.concat (chunks2.*1.*2) ->
        assembled (receive v ((t, Single (Parsed (STREAMING_START mid)))
                              :: (textFrame <$> chunks1)) w)
        = assembled (receive v ((t, Single (Parsed (STREAMING_START mid)))
                                :: (textFrame <$> chunks2)) w))
  /\ (forall (v : Version) (w : World) (ip : string)
        (Marshal : Producer.Event -> string) (generate : string -> option string)
        (now : Z) (q response : string) (clock : nat -> Z),
        generate q = Some response ->
        let events :=
          Producer.delivered
            (Producer.streamWriter (Some ip) Marshal generate (fun _ => true) now q).2 in
        let w' := receive v (Transport.timedFrames clock 0 events) w in
        assembling w'
        = Some (mkMessage ("msg-" +:+ Text.itoa now) assistant
                  (Text.Join (Text.Fields response) " ") (clock 0%nat)
                  (Some false) None None None)
        /\ isStreaming (store w') = false).
Proof.
  assert (forall (v : Version) (w : World) (t : Z) (mid : option string)
            (chunks : list (Z * string * option bool)),
            assembled (receive v ((t, Single (Parsed (STREAMING_START mid)))
                                  :: (textFrame <$> chunks)) w)
            = Some (Text.concat (chunks.*1.*2))) as Hfold.
  { intros v w t mid chunks.
    destruct (onmessage_start v t mid w) as (Hacc & _).
    destruct (receive_chunks v chunks _ _ Hacc) as (m' & (Hlast & _) & Hc & _).
    change (receive v (?f :: ?l) w) with (receive v l (onmessage v f.1 f.2 w)).
    unfold assembled. cbn [fst snd]. rewrite Hlast.
    cbn [fmap option_fmap option_map]. by rewrite Hc. }
  split; [|split; [|split; [|split; [exact Hfold|split]]]].
  - intros ip Marshal generate conn now q response Hg words n texts whole w.
    destruct (streamWriter_prefix ip Marshal generate conn now q response Hg)
      as (k & Hd & _ & Hj & Hk). cbn zeta in Hd, Hk. fold w in Hd, Hk.
    change (Producer.streamOf now response) with whole in Hd, Hk.
    split; [|split; [|split; [apply length_textEvents|split]]].
    + exists k. split; [done|]. split; [done|]. intros Hlt.
      destruct (Producer.failed w); [tauto|]. destruct Hk as [-> _]. lia.
    + intros Hconn.
      destruct (streamWriter_ok ip Marshal generate conn now q response Hg Hconn)
        as [Hw _]. exact Hw.
    + intros j word Hjw. subst texts. rewrite (textEvents_lookup _ _ _ _ _ Hjw).
      unfold Producer.textEvent. by rewrite Z.add_0_l.
    + apply concat_textEvents. subst n. lia.
  - intros s. apply fieldsFrom_tokens. done.
  - apply Fields_Join.
  - intros v w t mid chunks1 chunks2 Heq. by rewrite !Hfold, Heq.
  - intros v w ip Marshal generate now q response clock Hg events w'.
    destruct (streamWriter_ok ip Marshal generate (fun _ => true) now q response Hg)
      as [Hd _]; [done|].
    subst events w'. cbn zeta in Hd. rewrite Hd.
    unfold Producer.streamOf, Producer.fullStream.
    set (words := Text.Fields response).
    set (n := Z.of_nat (length words)).
    destruct (timedFrames_texts clock n words 0 1) as (chunks & Hframes & Hcontents).
    assert (forall k l1 l2,
              Transport.timedFrames clock k (l1 ++ l2)
              = Transport.timedFrames clock k l1
                ++ Transport.timedFrames clock (k + length l1) l2) as Happ.
    { intros k l1. revert k. induction l1 as [|e l1 IH]; intros k l2; cbn.
      - by rewrite Nat.add_0_r.
      - rewrite IH. do 3 f_equal. lia. }
    cbn [Transport.timedFrames]. rewrite Happ, Hframes. cbn [Transport.timedFrames].
    unfold receive. cbn [fold_left]. rewrite fold_left_app. cbn [fold_left fst snd].
    fold (receive v (textFrame <$> chunks)
            (onmessage v (clock 0%nat)
               (Transport.frameOf (Producer.StreamingStartEvent ("msg-" +:+ Text.itoa now))) w)).
    destruct (onmessage_start v (clock 0%nat) (Some ("msg-" +:+ Text.itoa now)) w)
      as (Hacc & _).
    change (orElse (Some ("msg-" +:+ Text.itoa now)) _) with ("msg-" +:+ Text.itoa now) in Hacc.
    destruct (receive_chunks v chunks _ _ Hacc) as (m' & Hacc' & _ & Hcompl & _).
    destruct (onmessage_end v (clock (1 + length (Producer.textEvents n 0 words))%nat)
                _ m' Hacc') as (Hlast & Hs & _).
    split; [|exact Hs].
    etrans; [exact Hlast|]. rewrite Hcompl, Hcontents.
    rewrite concat_textEvents by (subst n; lia). done.
Qed.

(** Claim C8.  A frame that does not parse changes nothing, on whatever
    connection it arrives; folding [StreamStart, garbage, TextContent "hi",
    StreamEnd] gives an assistant message of content "hi", one message more
    in the log, and the same world as without the garbage frame. *)
Theorem malformed_frame_skipped (v : Version) (p : Props) (w : World) (i : nat)
  (raw : string) (mid : option string) (complete : option bool) (t1 t2 t3 t4 : Z) :
  onmessage v t2 (Garbage raw) w = w
  /\ step v p w (t2, Received i (Garbage raw)) = w
  /\ let w' := receive v
                 [ (t1, Single (Parsed (STREAMING_START mid)));
                   (t2, Garbage raw);
                   (t3, Single (Parsed (TEXT_MESSAGE_CONTENT "hi" complete)));
                   (t4, Single (Parsed STREAMING_END)) ] w in
     assembling w'
     = Some (mkMessage (orElse mid ("msg-" +:+ Text.itoa t1)) assistant "hi" t1
               (Some false) None None None)
     /\ length (messages (store w')) = S (length (messages (store w)))
     /\ isStreaming (store w') = false
     /\ w' = receive v
               [ (t1, Single (Parsed (STREAMING_START mid)));
                 (t3, Single (Parsed (TEXT_MESSAGE_CONTENT "hi" complete)));
                 (t4, Single (Parsed STREAMING_END)) ] w.
Proof.
  split; [done|]. split.
  { cbn. by destruct (stateOf w i) as [[]|]. }
  intros w'. subst w'.
  destruct (onmessage_start v t1 mid w) as (Hacc & Hm & _).
  destruct (onmessage_text v t3 "hi" complete _ _ Hacc) as (Hacc1 & _).
  destruct (onmessage_end v t4 _ _ Hacc1) as (Hlast & Hs & Hlen).
  unfold receive. cbn [fold_left fst snd].
  change (onmessage v t2 (Garbage raw) ?x) with x.
  split; [exact Hlast|]. split; [|split; [exact Hs|done]].
  rewrite Hlen. cbn -[updateMessages]. rewrite length_updateMessages.
  cbn. rewrite length_app. cbn. lia.
Qed.

End ReassemblyClaims.

Section LogClaims.
Import Consumer.

(** What a handler can do to the log. *)
Lemma handleAGUIEvent_messages (v : Version) (t : Z) (e : AGUIEvent) (w : World) :
  let l := messages (store w) in
  let l' := messages (store (handleAGUIEvent v t e w)) in
  l' = l
  \/ (exists m, l' = l ++ [m])
  \/ (exists u, upd_id u = None /\ upd_type u = None
                /\ l' = updateMessages (currentMessageIdRef (hook w)) u l).
Proof.
  destruct e; cbn -[updateMessages closeOnTerminal];
    rewrite ?store_closeOnTerminal; cbn -[updateMessages];
    first [ by left
          | right; left; eexists; reflexivity
          | right; right; refine (ex_intro _ _ (conj _ (conj _ eq_refl)));
            reflexivity ].
Qed.

Lemma step_messages (v : Version) (p : Props) (w : World) (ti : Z * Input) :
  let l := messages (store w) in
  let l' := messages (store (step v p w ti)) in
  l' = l
  \/ (exists m, l' = l ++ [m])
  \/ (exists id u, upd_id u = None /\ upd_type u = None
                   /\ l' = updateMessages id u l).
Proof.
  destruct ti as [t input]. destruct input as [text| | |i|i f|i fatal|i]; cbn [step].
  - destruct (isStreaming (store w)) eqn:Hs.
    + left. by rewrite sendMessage_streaming.
    + right. left. destruct (sendMessage_idle v p t text w Hs) as (-> & _). eauto.
  - left. by destruct (reconnect_sources v w) as (_ & _ & -> & _).
  - left. destruct v; [done|]. by destruct (cleanup_sources w) as (_ & _ & -> ).
  - left. destruct (sources w !! i) as [es|]; [|done].
    destruct (readyState es); try done. destruct (retrying es); [done|].
    by destruct (onopen_frame v (onSources (alter (setReadyState OPEN false) i) w))
      as (_ & _ & -> & _).
  - destruct (stateOf w i) as [[]|]; try by left.
    unfold onmessage. destruct (parseAGUIEvent f) as [[|e]|]; try by left.
    destruct (handleAGUIEvent_messages v t e w) as [H|[H|(u & ? & ? & H)]]; eauto 8.
  - left. unfold stateOf. destruct (sources w !! i) as [es|]; cbn; [|done].
    destruct (readyState es); try done.
    all: match goal with
         | |- context [onerror ?a ?b ?x] =>
           by destruct (onerror_frame a b x) as (_ & _ & _ & -> & _)
         end.
  - left. destruct (sources w !! i) as [es|]; [|done].
    destruct (readyState es); try done. by destruct (retrying es).
Qed.

(** Claim C10 as stated fails where it says the single message: the ids of
    assistant messages are the server's, and when a second stream announces
    the id of an earlier one, a chunk of text rewrites both messages. *)
Lemma one_event_rewrites_two :
  let w := run V2 pageProps
             [ (1, SendMessage "hiking"); (2, Opened 0%nat);
               (3, Received 0%nat (Single (Parsed (STREAMING_START (Some "msg-1")))));
               (4, Received 0%nat (Single (Parsed (TEXT_MESSAGE_CONTENT "Trails" (Some true)))));
               (5, Received 0%nat (Single (Parsed STREAMING_END)));
               (6, SendMessage "cycling"); (7, Opened 1%nat);
               (8, Received 1%nat (Single (Parsed (STREAMING_START (Some "msg-1"))))) ]
             initialWorld in
  let w' := step V2 pageProps w
              (9, Received 1%nat (Single (Parsed (TEXT_MESSAGE_CONTENT "Routes" (Some true))))) in
  msg_id <$> messages (store w) = ["user-1"; "msg-1"; "user-6"; "msg-1"]
  /\ msg_content <$> messages (store w) = ["hiking"; "Trails"; "cycling"; ""]
  /\ msg_content <$> messages (store w') = ["hiking"; "Routes"; "cycling"; "Routes"].
Proof. vm_compute. done. Qed.

(** Claim C10, as amended.  [updateMessage] keeps the length of the log,
    leaves a message of another id as it is, where it is, and merges the
    updates into every message of that id: into one message only when one
    only has that id.  Every event handler leaves the log as it is, appends
    one message to its end, or updates, without touching ids or types, the
    messages whose id is the current accumulation target.  No step of the
    consumer removes a message: the log never gets shorter and every message
    keeps its place, its id and its type. *)
Theorem log_frame :
  (forall (id : string) (u : Updates) (l : list Message),
     length (updateMessages id u l) = length l
     /\ (forall k m, l !! k = Some m -> msg_id m <> id ->
           updateMessages id u l !! k = Some m)
     /\ (forall k m, l !! k = Some m -> msg_id m = id ->
           updateMessages id u l !! k = Some (merge m u))
     /\ (forall k m, l !! k = Some m -> msg_id m = id ->
           (forall j m', l !! j = Some m' -> msg_id m' = id -> j = k) ->
           updateMessages id u l = <[k := merge m u]> l))
  /\ (forall (v : Version) (t : Z) (e : AGUIEvent) (w : World),
        let l := messages (store w) in
        let l' := messages (store (handleAGUIEvent v t e w)) in
        l' = l
        \/ (exists m, l' = l ++ [m])
        \/ (exists u, upd_id u = None /\ upd_type u = None
                      /\ l' = updateMessages (currentMessageIdRef (hook w)) u l))
  /\ (forall (v : Version) (p : Props) (w : World) (ti : Z * Input),
        let l := messages (store w) in
        let l' := messages (store (step v p w ti)) in
        (length l <= length l')%nat
        /\ forall k m, l !! k = Some m ->
             exists m', l' !! k = Some m' /\ msg_id m' = msg_id m
                        /\ msg_type m' = msg_type m).
Proof.
  split; [|split].
  - intros id u l. split; [apply length_updateMessages|]. split; [|split].
    + intros k m. apply updateMessages_other.
    + intros k m Hk Hid. rewrite updateMessages_lookup, Hk. cbn.
      by apply String.eqb_eq in Hid as ->.
    + intros k m Hk Hid Hone. apply list_eq. intros j.
      rewrite updateMessages_lookup. destruct (decide (k = j)) as [<-|Hne].
      * rewrite list_lookup_insert_eq by (by apply lookup_lt_Some in Hk).
        rewrite Hk. cbn. by apply String.eqb_eq in Hid as ->.
      * rewrite list_lookup_insert_ne by done.
        destruct (l !! j) as [m'|] eqn:Hj; [|done]. cbn.
        destruct (String.eqb_spec (msg_id m') id) as [He|]; [|done].
        by specialize (Hone j m' Hj He).
  - intros v t e w l l'.
    destruct (handleAGUIEvent_messages v t e w) as [H|[H|(u & ? & ? & H)]]; eauto 8.
  - intros v p w ti l l'.
    destruct (step_messages v p w ti) as [H|[[m0 H]|(id & u & Hid & Hty & H)]];
      fold l l' in H; rewrite H.
    + split; [done|]. eauto.
    + split; [rewrite length_app; lia|]. intros k m Hk. exists m.
      split; [|done]. by apply lookup_app_l_Some.
    + split; [by rewrite length_updateMessages|]. intros k m Hk.
      rewrite updateMessages_lookup, Hk. cbn.
      destruct (String.eqb (msg_id m) id); [|by eauto].
      eexists. split; [done|]. unfold merge. cbn. by rewrite Hid, Hty.
Qed.

End LogClaims.

Section LifecycleClaims.
Import Consumer.

(** Claim C7 fails on the streaming flag.  On a transport error on a source
    that is not closed, the handler of either revision reports an error,
    lowers [isConnected], closes the source, drops the reference and makes
    no request; but it leaves [isStreaming] as it was.  After a stream has
    started the flag therefore stays raised: [sendMessage] is ignored from
    then on and [reconnect] does not lower it. *)
Theorem transport_error_keeps_streaming :
  (forall (v : Version) (p : Props) (w : World) (t : Z) (i : nat) (fatal : bool),
     reachable v p w ->
     stateOf w i = Some OPEN \/ stateOf w i = Some CONNECTING ->
     let w' := step v p w (t, Failed i fatal) in
     isStreaming (store w') = isStreaming (store w)
     /\ returnedError v w' <> None
     /\ isConnected (hook w') = false
     /\ eventSourceRef (hook w') = None
     /\ allClosed (sources w')
     /\ attempts w' = attempts w)
  /\ (forall v : Version,
        let w := run v pageProps
                   [ (1, SendMessage "hiking"); (2, Opened 0%nat);
                     (3, Received 0%nat (Single (Parsed (STREAMING_START (Some "msg-1")))));
                     (4, Failed 0%nat false) ] initialWorld in
        isStreaming (store w) = true
        /\ sendMessage v pageProps 5 "hiking again" w = w
        /\ isStreaming (store (reconnect v w)) = true).
Proof.
  split.
  - intros v p w t i fatal Hreach Hlive w'.
    pose proof (reachable_wellFormed v p w Hreach) as Hwf.
    pose proof (step_Failed v p t i fatal w Hwf) as H. cbn zeta in H. fold w' in H.
    assert (sources w' = staleClosed w /\ eventSourceRef (hook w') = None
            /\ eventSourceRef (hook w) = Some i /\ isConnected (hook w') = false
            /\ messages (store w') = messages (store w)
            /\ isStreaming (store w') = isStreaming (store w)
            /\ returnedError v w' <> None) as (Hs & Hr & _ & Hc & _ & Hst & Herr)
      by (by destruct Hlive as [Hl|Hl]; rewrite Hl in H).
    repeat (split; [done|]). split.
    + rewrite Hs. by apply consistent_close_ref in Hwf.
    + apply attempts_eq. rewrite Hs. apply requests_staleClosed.
  - intros [|]; vm_compute; done.
Qed.

End LifecycleClaims.

Section TerminalClaims.
Import Consumer.

(** What the second revision's closing does to a well-formed world. *)
Lemma closeOnTerminal_V2 (w : World) :
  wellFormed w -> (exists i, stateOf w i = Some OPEN) ->
  let w' := closeOnTerminal V2 w in
  isConnected (hook w') = false
  /\ eventSourceRef (hook w') = None
  /\ allClosed (sources w')
  /\ store w' = store w
  /\ calls w' = calls w.
Proof.
  intros Hwf [i Hi]. unfold stateOf in Hi.
  destruct (sources w !! i) as [es|] eqn:Hes; [|done]. cbn in Hi.
  assert (eventSourceRef (hook w) = Some i) as Href.
  { destruct Hwf as (Hl & _). apply (Hl i es Hes). unfold live.
    by injection Hi as ->. }
  pose proof (consistent_close_ref _ _ Hwf) as Hall. rewrite Href in Hall.
  unfold closeOnTerminal. cbn. rewrite Href. cbn. done.
Qed.




End TerminalClaims.

Section SendClaims.
Import Consumer.

(** With an endpoint the URL constructor refuses, such as the path the chat
    component defaults to, [sendMessage] appends the user's message, reports
    an error and constructs no source. *)
Lemma sendMessage_invalid_endpoint (v : Version) (p : Props) (w : World)
  (t : Z) (text : string) :
  isStreaming (store w) = false -> validEndpoint v p = false ->
  let w' := sendMessage v p t text w in
  sources w' = staleClosed w
  /\ eventSourceRef (hook w') = None
  /\ attempts w' = attempts w
  /\ returnedError v w' <> None.
Proof.
  intros Hidle Hbad w'. destruct (sendMessage_idle v p t text w Hidle) as (_ & _ & Hsrc).
  fold w' in Hsrc. rewrite Hbad in Hsrc. destruct Hsrc as [Hs Hr].
  split; [done|]. split; [done|]. split.
  { apply attempts_eq. rewrite Hs. apply requests_staleClosed. }
  subst w'. unfold sendMessage, setupEventSource, validEndpoint, returnedError in *.
  rewrite Hidle.
  destruct v.
  - rewrite Hbad. by destruct (eventSourceRef (hook w)).
  - destruct (Text.startsWith (endpoint p) "http://");
      destruct (Text.startsWith (endpoint p) "https://");
      destruct (endpointParses p); try done;
      by destruct (eventSourceRef (hook w)).
Qed.




(** Claim C1 as stated fails for [SafeEventSource]: a terminal event has
    arrived on its source, the server closes the connection, the error
    handler schedules a reconnection and the timer performs it; a second
    request has been made with no call by the owner. *)
Lemma SafeEventSource_reconnects_by_itself :
  let e0 := SafeEventSource.create "http://localhost:8080/api/v1/chat/stream"
              (SafeEventSource.mkConfig None None None) in
  let e1 := SafeEventSource.run
              [SafeEventSource.Connect; SafeEventSource.Message 0 STREAMING_END] e0 in
  let e2 := SafeEventSource.run
              [SafeEventSource.Error 0 false; SafeEventSource.Timeout 1] e1 in
  SafeEventSource.attempts e1 = 1%nat
  /\ SafeEventSource.attempts e2 = 2%nat
  /\ readyState <$> SafeEventSource.sources e2 !! 1%nat = Some CONNECTING.
Proof. vm_compute. done. Qed.

(** A terminal event on the open connection of the second revision leaves
    the hook without a source. *)
Lemma terminal_step_V2 (p : Props) (w : World) (i : nat) (t : Z) (e : AGUIEvent) :
  wellFormed w -> stateOf w i = Some OPEN -> terminal e = true ->
  eventSourceRef (hook (step V2 p w (t, Received i (Single (Parsed e))))) = None.
Proof.
  intros Hwf Hopen Hterm. cbn [step]. rewrite Hopen.
  cbn [onmessage parseAGUIEvent].
  destruct e; try done; cbn [handleAGUIEvent];
    match goal with
    | |- context [closeOnTerminal V2 ?x] =>
      by destruct (closeOnTerminal_V2 x) as (_ & -> & _); [exact Hwf | by exists i |]
    end.
Qed.

(** Once the hook holds no source, only [sendMessage] gives it one. *)
Lemma step_no_source (v : Version) (p : Props) (w : World) (ti : Z * Input) :
  eventSourceRef (hook w) = None -> isSend ti = false ->
  eventSourceRef (hook (step v p w ti)) = None.
Proof.
  intros Hnone Hns. destruct ti as [t input].
  destruct input as [text| | |i|i f|i fatal|i]; [done|..]; cbn [step].
  - by destruct (reconnect_sources v w) as (_ & -> & _).
  - destruct v; [done|]. by destruct (cleanup_sources w) as (_ & -> & _).
  - destruct (sources w !! i) as [es|]; [|done].
    destruct (readyState es); try done. destruct (retrying es); [done|].
    by destruct (onopen_frame v (onSources (alter (setReadyState OPEN false) i) w))
      as (_ & -> & _).
  - destruct (stateOf w i) as [[]|]; try done.
    unfold onmessage. destruct (parseAGUIEvent f) as [[|e]|]; try done.
    by destruct (handleAGUIEvent_sources v t e w) as [[_ ->]|(_ & _ & _ & ->)].
  - unfold stateOf. destruct (sources w !! i) as [es|]; cbn; [|done].
    destruct (readyState es); try done.
    all: match goal with
         | |- context [onerror ?a ?b ?x] =>
           by destruct (onerror_frame a b x) as (_ & -> & _)
         end.
  - destruct (sources w !! i) as [es|]; [|done].
    destruct (readyState es); try done. by destruct (retrying es).
Qed.

Lemma run_no_source (v : Version) (p : Props) (ins : list (Z * Input)) (w : World) :
  eventSourceRef (hook w) = None ->
  forallb (fun ti => negb (isSend ti)) ins = true ->
  eventSourceRef (hook (run v p ins w)) = None.
Proof.
  revert w. induction ins as [|ti ins IH]; intros w Hnone Hall; [done|].
  cbn in Hall. apply andb_prop in Hall as [Hns Hall]. apply negb_true_iff in Hns.
  change (run v p (ti :: ins) w) with (run v p ins (step v p w ti)).
  apply IH; [|done]. by apply step_no_source.
Qed.

(** Claim C1, as amended.  After a terminal event on its open connection
    the hook makes no further connection attempt unless [sendMessage] is
    called: through any inputs of the component and of the transport other
    than [sendMessage] the number of requests stays what it was before the
    event, and in the second revision every source is closed.  The
    [SafeEventSource] utility, which the hook does not use, makes no request
    after [close()] either, until [connect()] is called.  Before that it
    reconnects by itself: a transport error on the source it holds makes it
    drop the source and count the error, and while fewer errors than the
    attempts allowed had been counted it sets one timer, the only one
    pending, with the delay doubled at each error, and the timer makes one
    more request; once that many had been counted it sets no timer.  The
    attempts allowed are [maxReconnectAttempts], or 3 where that is 0 or
    left out.  Over its whole life the object makes at most as many requests
    as [connect()] was called, plus the attempts allowed. *)
Theorem no_reconnect_without_sendMessage :
  (forall (v : Version) (p : Props) (w : World) (i : nat) (e : AGUIEvent) (t : Z)
      (ins : list (Z * Input)),
      reachable v p w -> stateOf w i = Some OPEN -> terminal e = true ->
      forallb (fun ti => negb (isSend ti)) ins = true ->
      let w1 := step v p w (t, Received i (Single (Parsed e))) in
      attempts (run v p ins w1) = attempts w
      /\ (v = V2 -> allClosed (sources (run v p ins w1))))
  /\ (forall (u : string) (c : SafeEventSource.EventSourceConfig)
        (e : SafeEventSource.Env) (ins : list SafeEventSource.Input),
        SafeEventSource.reachable u c e ->
        forallb (fun input => negb (SafeEventSource.isConnect input)) ins = true ->
        SafeEventSource.attempts (SafeEventSource.run ins (SafeEventSource.close e))
        = SafeEventSource.attempts e)
  /\ (forall (u : string) (c : SafeEventSource.EventSourceConfig)
        (ins : list SafeEventSource.Input),
        (SafeEventSource.attempts (SafeEventSource.run ins (SafeEventSource.create u c))
         <= SafeEventSource.explicitConnects ins
            + Z.to_nat (SafeEventSource.attemptsAllowed c))%nat)
  /\ (forall (u : string) (c : SafeEventSource.EventSourceConfig)
        (e : SafeEventSource.Env) (i : nat) (fatal : bool),
        SafeEventSource.reachable u c e ->
        SafeEventSource.eventSource (SafeEventSource.self e) = Some i ->
        let n := SafeEventSource.reconnectAttempts (SafeEventSource.self e) in
        let e1 := SafeEventSource.step e (SafeEventSource.Error i fatal) in
        SafeEventSource.eventSource (SafeEventSource.self e1) = None
        /\ SafeEventSource.reconnectAttempts (SafeEventSource.self e1) = n + 1
        /\ SafeEventSource.attempts e1 = SafeEventSource.attempts e
        /\ (n < SafeEventSource.attemptsAllowed c ->
            SafeEventSource.timers e1
            = [(SafeEventSource.nextTimer e,
                SafeEventSource.numberOr
                  (SafeEventSource.reconnectDelay (SafeEventSource.withDefaults c)) 1000
                * 2 ^ n)]
            /\ SafeEventSource.attempts
                 (SafeEventSource.step e1
                    (SafeEventSource.Timeout (SafeEventSource.nextTimer e)))
               = S (SafeEventSource.attempts e))
        /\ (SafeEventSource.attemptsAllowed c <= n ->
            SafeEventSource.timers e1 = SafeEventSource.timers e))
  /\ (forall c : SafeEventSource.EventSourceConfig,
        SafeEventSource.attemptsAllowed c
        = match SafeEventSource.maxReconnectAttempts c with
          | Some m => if m =? 0 then 3 else m
          | None => 3
          end).
Proof.
  split; [|split; [|split; [apply attempts_bounded|split]]]; cycle 2.
  { intros u c e i fatal Hreach Hi n e1.
    destruct (error_on_held u c e i fatal Hreach Hi) as (Hn & Hr & Ha & Hin & Hout).
    split; [done|]. split; [done|]. split; [done|]. split; [|done].
    intros Hlt. destruct (Hin Hlt) as [Ht Hreq]. split; [|done].
    subst e1 n. rewrite Ht. unfold SafeEventSource.backoff.
    by rewrite Z.add_simpl_r. }
  { intros [[m|] d g]; [|done]. unfold SafeEventSource.attemptsAllowed. cbn.
    by destruct (m =? 0). }
  - intros v p w i e t ins Hreach Hopen Hterm Hins w1.
    pose proof (reachable_wellFormed v p w Hreach) as Hwf.
    assert (wellFormed w1) as Hwf1 by by apply wellFormed_step.
    split.
    + rewrite run_attempts by done. by apply step_attempts.
    + intros ->.
      assert (eventSourceRef (hook w1) = None) as Hnone
        by by apply terminal_step_V2.
      pose proof (wellFormed_run V2 p ins w1 Hwf1) as Hwf2.
      unfold wellFormed in Hwf2. rewrite (run_no_source V2 p ins w1 Hnone Hins) in Hwf2.
      by apply consistent_None_allClosed.
  - intros u c e ins Hreach Hins.
    pose proof (reachable_safe_wellFormed u c e Hreach) as Hwf.
    destruct (close_quiet e Hwf) as (Hq & Hr & _).
    destruct (quiet_run ins _ Hq Hins) as [_ ->].
    unfold SafeEventSource.attempts. by apply foldr_requests.
Qed.

(** The hook after a stream that ended, then an error of the transport, a
    timer of the user agent and a call of [reconnect]: one request in all. *)
Lemma no_reconnect_without_sendMessage_witness :
  attempts
    (run V2 pageProps
       [(5, Failed 0%nat false); (6, Reestablish 0%nat); (7, Reconnect)]
       (step V2 pageProps
          (run V2 pageProps
             [ (1, SendMessage "hiking"); (2, Opened 0%nat);
               (3, Received 0%nat (Single (Parsed (STREAMING_START (Some "msg-1"))))) ]
             initialWorld)
          (4, Received 0%nat (Single (Parsed STREAMING_END)))))
  = attempts
      (run V2 pageProps
         [ (1, SendMessage "hiking"); (2, Opened 0%nat);
           (3, Received 0%nat (Single (Parsed (STREAMING_START (Some "msg-1"))))) ]
         initialWorld).
Proof.
  refine (proj1 (proj1 no_reconnect_without_sendMessage V2 pageProps _ 0%nat
                   STREAMING_END 4 _ _ _ _ _)).
  - eexists. reflexivity.
  - vm_compute. reflexivity.
  - reflexivity.
  - reflexivity.
Defined.

End SendClaims.

(* ===================================================================== *)
(** * More of the producer                                                 *)
(* ===================================================================== *)

Section ProducerMore.
Import Producer.

Lemma encodeURIComponent_nil (s : string) :
  Codec.encodeURIComponent s = "" -> s = "".
Proof.
  destruct s as [|c s]; [done|]. cbn [Codec.encodeURIComponent].
  destruct (Codec.isAlnum c || Codec.inSet c "-_.!~*'()"); [done|].
  unfold Codec.percent. done.
Qed.

(** The query text reaches the handler empty exactly when it was sent
    empty; an empty parameter is answered 400 whatever the table holds,
    leaves the table as it is and puts no event on the connection, and a
    text that is not empty is never answered 400. *)
Theorem missing_message_rejected (v : Consumer.Version) (h : ChatHandler)
  (tc tr : Z) (text : string) :
  (Transport.queryParam v text = "" <-> text = "")
  /\ StreamChat h tc tr ""
     = (h, JSON StatusBadRequest "message parameter is required")
  /\ (forall clientIP Marshal generate conn now,
        eventsOf clientIP Marshal generate conn now (StreamChat h tc tr "").2 = [])
  /\ (text <> "" ->
      forall e, (StreamChat h tc tr (Transport.queryParam v text)).2
                <> JSON StatusBadRequest e).
Proof.
  assert (Transport.queryParam v text = "" <-> text = "") as Hq.
  { unfold Transport.queryParam, Transport.onWire. rewrite decodeArg_formEncode.
    destruct v; cbn [Consumer.messageParam]; [|done].
    split; [apply encodeURIComponent_nil|by intros ->]. }
  split; [exact Hq|]. split; [done|]. split; [done|].
  intros Hne e. unfold StreamChat.
  destruct (String.eqb (Transport.queryParam v text) "") eqn:He.
  - apply String.eqb_eq, Hq in He. done.
  - by destruct (isRecentMessage _ _ _).
Qed.


(** For parameters that the decoder rewrites the dedup table is keyed by
    the decoded text, whatever arrays the requests are read into.  Against
    a table whose keys own their bytes, a request accepted and then a second
    one, each handled alone: when the second parameter decodes to the same
    text it is a duplicate within the window, however it is spelled; when it
    decodes to another text it is answered as if the first had never been
    sent. *)
Theorem dedup_by_decoded_text (s : Server.State) (c1 c2 : Server.Call) (d1 d2 : string) :
  Server.owned s ->
  Server.inflight s !! Server.call_buf c1 = None ->
  Server.inflight s !! Server.call_buf c2 = None ->
  Server.rewritten d1 c1 -> Server.rewritten d2 c2 ->
  isRecentMessage (Server.table s) (Server.call_check c1) d1 = false ->
  (d2 = d1 -> Server.call_check c2 - Server.call_record c1 < Window ->
   Server.responses s (Server.sequential [c1; c2])
   = Some [ (Server.call_buf c1, EventStream StatusOK sseHeaders d1);
            (Server.call_buf c2, Server.duplicate) ])
  /\ (d2 <> d1 ->
      exists r,
        Server.responses s (Server.sequential [c2]) = Some [(Server.call_buf c2, r)]
        /\ Server.responses s (Server.sequential [c1; c2])
           = Some [ (Server.call_buf c1, EventStream StatusOK sseHeaders d1);
                    (Server.call_buf c2, r) ]).
Proof.
  intros Hown Hin1 Hin2 Hr1 Hr2 Hnew.
  destruct (alone_StreamChat s c1 d1 Hown Hin1 Hr1) as (s1 & Hrun1 & Hown1 & Ht1 & Hi1).
  rewrite (StreamChat_rewritten _ _ d1 Hr1), Hnew in Hrun1, Ht1. cbn [fst snd] in Hrun1, Ht1.
  destruct (alone_StreamChat s1 c2 d2 Hown1) as (s2 & Hrun2 & _); [by rewrite Hi1|done|].
  rewrite (StreamChat_rewritten _ _ d2 Hr2), Ht1 in Hrun2.
  assert (Server.sequential [c1; c2] = Server.alone c1 ++ Server.alone c2) as ->.
  { unfold Server.sequential. rewrite !bind_cons. cbn [mbind list_bind]. by rewrite app_nil_r. }
  assert (Server.sequential [c2] = Server.alone c2) as ->.
  { unfold Server.sequential. rewrite bind_cons. cbn [mbind list_bind]. by rewrite app_nil_r. }
  unfold Server.responses. rewrite run_app, Hrun1, Hrun2. split.
  - intros -> Hin. rewrite isRecentMessage_recorded, bool_decide_eq_true_2 by done. done.
  - intros Hne.
    destruct (alone_StreamChat s c2 d2 Hown Hin2 Hr2) as (s3 & Hrun3 & _).
    rewrite (StreamChat_rewritten _ _ d2 Hr2) in Hrun3. rewrite Hrun3.
    assert (isRecentMessage (recordMessage (Server.table s) (Server.call_record c1) d1)
              (Server.call_check c2) d2
            = isRecentMessage (Server.table s) (Server.call_check c2) d2) as ->.
    { unfold isRecentMessage, recordMessage. cbn. by rewrite lookup_insert_ne. }
    eexists. split; [reflexivity|].
    by destruct (isRecentMessage (Server.table s) (Server.call_check c2) d2).
Qed.

(** "a%20b" accepted, then "a+b" two seconds later on the same connection. *)
Lemma dedup_by_decoded_text_witness :
  Server.responses Server.initial
    (Server.sequential [ Server.mkCall 0 0 0 "a%20b";
                         Server.mkCall 0 (2 * Second) (2 * Second) "a+b" ])
  = Some [ (0%nat, EventStream StatusOK sseHeaders "a b"); (0%nat, Server.duplicate) ].
Proof.
  assert (Server.owned Server.initial) as Hown by (split; constructor).
  assert (Server.rewritten "a b" (Server.mkCall 0 0 0 "a%20b")) as H1 by (by split).
  assert (Server.rewritten "a b" (Server.mkCall 0 (2 * Second) (2 * Second) "a+b")) as H2
    by (by split).
  refine (proj1 (dedup_by_decoded_text Server.initial _ _ "a b" "a b" Hown eq_refl eq_refl
                   H1 H2 eq_refl) eq_refl _).
  unfold Window, Second. cbn. lia.
Defined.

(** For such parameters the window runs from the request that was
    accepted: however many duplicates are rejected inside it, on whatever
    connections, each leaves the table as it is, and the same text is
    accepted again ten seconds after the accepted request, not ten seconds
    after the last attempt. *)
Theorem rejected_duplicates_keep_window (s : Server.State) (first last : Server.Call)
  (dups : list Server.Call) (d : string) :
  Server.owned s -> Server.inflight s = ∅ ->
  Server.rewritten d first -> Forall (Server.rewritten d) dups -> Server.rewritten d last ->
  isRecentMessage (Server.table s) (Server.call_check first) d = false ->
  Forall (fun c => Server.call_check c - Server.call_record first < Window) dups ->
  Window <= Server.call_check last - Server.call_record first ->
  Server.responses s (Server.sequential (first :: dups ++ [last]))
  = Some ((Server.call_buf first, EventStream StatusOK sseHeaders d)
          :: ((fun c => (Server.call_buf c, Server.duplicate)) <$> dups)
          ++ [(Server.call_buf last, EventStream StatusOK sseHeaders d)]).
Proof.
  intros Hown Hin Hfirst Hdups Hlast Hnew Hwin Hout.
  destruct (alone_StreamChat s first d Hown) as (s1 & Hrun1 & Hown1 & Ht1 & Hi1);
    [by rewrite Hin|done|].
  rewrite (StreamChat_rewritten _ _ d Hfirst), Hnew in Hrun1, Ht1.
  cbn [fst snd] in Hrun1, Ht1.
  pose proof (duplicates_then_accepted d (Server.call_record first) last dups s1 Hown1)
    as Hrest.
  rewrite Hi1, Ht1 in Hrest.
  specialize (Hrest Hin (lookup_insert_eq _ _ _) Hdups Hlast Hwin Hout).
  unfold Server.sequential. rewrite bind_cons.
  fold (Server.sequential (dups ++ [last])).
  unfold Server.responses in *. rewrite run_app, Hrun1.
  destruct (Server.run s1 (Server.sequential (dups ++ [last]))) as [[s2 r2]|]; [|done].
  cbn in Hrest. injection Hrest as ->. done.
Qed.

(** "hiking trails" accepted at 0 s, rejected at 4 s and at 9 s, accepted
    at 10 s, all on one connection. *)
Lemma rejected_duplicates_keep_window_witness :
  Server.responses Server.initial
    (Server.sequential
       [ Server.mkCall 0 0 0 "hiking%20trails";
         Server.mkCall 0 (4 * Second) (4 * Second) "hiking+trails";
         Server.mkCall 0 (9 * Second) (9 * Second) "hiking%20trails";
         Server.mkCall 0 (10 * Second) (10 * Second) "hiking%20trails" ])
  = Some [ (0%nat, EventStream StatusOK sseHeaders "hiking trails");
           (0%nat, Server.duplicate); (0%nat, Server.duplicate);
           (0%nat, EventStream StatusOK sseHeaders "hiking trails") ].
Proof.
  assert (Server.owned Server.initial) as Hown by (split; constructor).
  assert (Forall (Server.rewritten "hiking trails")
            [ Server.mkCall 0 (4 * Second) (4 * Second) "hiking+trails";
              Server.mkCall 0 (9 * Second) (9 * Second) "hiking%20trails" ]) as Hd
    by (repeat constructor).
  assert (Forall (fun c => Server.call_check c - 0 < Window)
            [ Server.mkCall 0 (4 * Second) (4 * Second) "hiking+trails";
              Server.mkCall 0 (9 * Second) (9 * Second) "hiking%20trails" ]) as Hw
    by (repeat constructor; unfold Window, Second; cbn; lia).
  assert (Window <= 10 * Second - 0) as Hout by (unfold Window, Second; lia).
  exact (rejected_duplicates_keep_window Server.initial
           (Server.mkCall 0 0 0 "hiking%20trails")
           (Server.mkCall 0 (10 * Second) (10 * Second) "hiking%20trails")
           [ Server.mkCall 0 (4 * Second) (4 * Second) "hiking+trails";
             Server.mkCall 0 (9 * Second) (9 * Second) "hiking%20trails" ]
           "hiking trails" Hown eq_refl (conj eq_refl eq_refl) Hd (conj eq_refl eq_refl)
           eq_refl Hw Hout).
Defined.

End ProducerMore.

Section ResponseMore.
Import Producer.

Lemma lowerASCII_app (a b : string) :
  lowerASCII (a +:+ b) = lowerASCII a +:+ lowerASCII b.
Proof.
  induction a as [|c a IH]; [done|].
  change (String (lowerAscii c) (lowerASCII (a +:+ b))
          = String (lowerAscii c) (lowerASCII a +:+ lowerASCII b)).
  by rewrite IH.
Qed.

Lemma prefix_app (s b : string) : String.prefix s (s +:+ b) = true.
Proof.
  induction s as [|c s IH]; [by destruct b|].
  change (String.prefix (String c s) (String c (s +:+ b)) = true).
  cbn [String.prefix]. destruct (ascii_dec c c); [exact IH|done].
Qed.

Lemma Contains_app (a s b : string) : Contains (a +:+ s +:+ b) s = true.
Proof.
  induction a as [|c a IH].
  - change ("" +:+ s +:+ b) with (s +:+ b).
    destruct (s +:+ b) eqn:E; cbn [Contains]; rewrite <- E, prefix_app; done.
  - change (String c a +:+ s +:+ b) with (String c (a +:+ s +:+ b)).
    cbn [Contains]. rewrite IH. apply orb_true_r.
Qed.

(** The stand-in generator answers by keyword.  A message of ASCII bytes
    that holds the word hiking or trail, in any letter case and wherever it
    stands, gets the answer to hiking, whatever else it holds; one that
    holds cycling or bike gets that answer or the one to hiking, never
    another.  Every answer has at least one word, so every stream carries
    text, whatever the library's lowering makes of a text that is not
    ASCII. *)
Theorem generateResponse_keyword (lowerRunes : string -> string) :
  (forall a k b : string,
     isASCII (a +:+ k +:+ b) = true ->
     lowerASCII k = "hiking" \/ lowerASCII k = "trail" ->
     generateResponse lowerRunes (a +:+ k +:+ b) = generateResponse lowerRunes "hiking")
  /\ (forall a k b : string,
        isASCII (a +:+ k +:+ b) = true ->
        lowerASCII k = "cycling" \/ lowerASCII k = "bike" ->
        generateResponse lowerRunes (a +:+ k +:+ b) = generateResponse lowerRunes "cycling"
        \/ generateResponse lowerRunes (a +:+ k +:+ b)
           = generateResponse lowerRunes "hiking")
  /\ (forall q : string, Text.Fields (generateResponse lowerRunes q) <> []).
Proof.
  split; [|split].
  - intros a k b Hascii Hk. unfold generateResponse at 1. unfold ToLower at 1 2.
    rewrite Hascii, !lowerASCII_app.
    destruct Hk as [-> | ->]; rewrite Contains_app, ?orb_true_r; reflexivity.
  - intros a k b Hascii Hk. unfold generateResponse at 1 3. unfold ToLower at 1 2 3 4 5 6 7 8 9.
    rewrite Hascii, !lowerASCII_app.
    destruct (Contains _ "hiking" || Contains _ "trail"); [by right|left].
    destruct Hk as [-> | ->]; rewrite Contains_app, ?orb_true_r; reflexivity.
  - intros q. unfold generateResponse.
    repeat match goal with
           | |- context [if ?c then _ else _] => destruct c
           end; by vm_compute.
Qed.

End ResponseMore.

Section FieldsMore.
Import Producer Bytes.

(** Every text event of a stream carries one word of the answer: a text
    that is not empty and holds no white-space byte, followed by one space
    unless the event is the one flagged complete. *)
Theorem text_events_carry_words (generate : string -> string) (now : Z)
  (q : string) (k : nat) (c : string) (b : bool) :
  fullStream generate now q !! k = Some (TextMessageEvent c b) ->
  exists word : string,
    word <> "" /\ spaceFree word = true
    /\ c = (if b then word else word +:+ " ")
    /\ Text.Fields (generate q) !! (k - 1)%nat = Some word.
Proof.
  unfold fullStream. set (words := Text.Fields (generate q)).
  destruct k as [|k]; [done|]. cbn [lookup list_lookup].
  change ((textEvents (Z.of_nat (length words)) 0 words ++ [StreamingEndEvent]) !! k
          = Some (TextMessageEvent c b) -> exists word, word <> "" /\ spaceFree word = true
            /\ c = (if b then word else word +:+ " ") /\ words !! (S k - 1)%nat = Some word).
  replace (S k - 1)%nat with k by lia.
  intros Hk. destruct (words !! k) as [word|] eqn:Hw.
  - rewrite lookup_app_l in Hk
      by (rewrite length_textEvents; by apply lookup_lt_Some in Hw).
    rewrite (textEvents_lookup _ _ _ _ _ Hw) in Hk. unfold textEvent in Hk.
    injection Hk as <- <-. exists word.
    pose proof (Forall_lookup_1 _ _ _ _ (fieldsFrom_tokens 0 "" (generate q) eq_refl) Hw)
      as [Hne Hfree].
    split; [done|]. split; [done|]. split; [|done].
    destruct (Z.eqb_spec (0 + Z.of_nat k) (Z.of_nat (length words) - 1)) as [He|He].
    + by rewrite (proj2 (Z.ltb_ge _ _)) by lia.
    + apply lookup_lt_Some in Hw. by rewrite (proj2 (Z.ltb_lt _ _)) by lia.
  - apply lookup_ge_None in Hw.
    rewrite lookup_app_r in Hk by (by rewrite length_textEvents).
    rewrite length_textEvents in Hk.
    by destruct (k - length words)%nat as [|[|]].
Qed.

Lemma text_events_carry_words_witness :
  exists word : string,
    word <> "" /\ spaceFree word = true
    /\ "I " = (if false then word else word +:+ " ")
    /\ Text.Fields (generateResponse (fun s => s) "hiking") !! (1 - 1)%nat = Some word.
Proof.
  exact (text_events_carry_words (generateResponse (fun s => s)) 42 "hiking" 1 "I " false
           eq_refl).
Defined.

(** An answer made of white space only has no word: when the writer runs
    and the connection takes its writes, the stream is [StreamingStart]
    followed at once by [StreamingEnd], and the consumer is left with an
    assistant message that is empty and complete. *)
Theorem blank_response_stream (ip : string) (Marshal : Event -> string)
  (generate : string -> option string) (now : Z) (q response : string)
  (v : Consumer.Version) (w : Consumer.World) (clock : nat -> Z) :
  generate q = Some response -> blank response = true ->
  let r := streamWriter (Some ip) Marshal generate (fun _ => true) now q in
  streamOf now response
  = [StreamingStartEvent ("msg-" +:+ Text.itoa now); StreamingEndEvent]
  /\ r.1 = Returned
  /\ failed r.2 = false
  /\ delivered r.2
     = [StreamingStartEvent ("msg-" +:+ Text.itoa now); StreamingEndEvent]
  /\ let w' := Consumer.receive v
                 (Transport.timedFrames clock 0 (delivered r.2)) w in
     Consumer.assembling w'
     = Some (Consumer.mkMessage ("msg-" +:+ Text.itoa now) Consumer.assistant ""
               (clock 0%nat) (Some false) None None None)
     /\ Consumer.isStreaming (Consumer.store w') = false.
Proof.
  intros Hgen Hblank r.
  assert (streamOf now response
          = [StreamingStartEvent ("msg-" +:+ Text.itoa now); StreamingEndEvent]) as Hfull.
  { unfold streamOf, fullStream, Text.Fields. by rewrite fieldsFrom_blank. }
  destruct (streamWriter_ok ip Marshal generate (fun _ => true) now q response Hgen)
    as [Hd Hf]; [done|].
  fold r in Hd, Hf. rewrite Hd, Hfull. split; [done|].
  split; [subst r; by rewrite (streamWriter_eq ip Marshal generate _ now q response Hgen)|].
  split; [done|]. split; [done|].
  intros w'. subst w'. cbn [Transport.timedFrames Transport.frameOf].
  destruct (onmessage_start v (clock 0%nat) (Some ("msg-" +:+ Text.itoa now)) w)
    as (Hacc & _).
  change (Consumer.orElse (Some ("msg-" +:+ Text.itoa now)) _)
    with ("msg-" +:+ Text.itoa now) in Hacc.
  destruct (onmessage_end v (clock 1%nat) _ _ Hacc) as (Hlast & Hs & _).
  unfold Consumer.receive. cbn [fold_left fst snd]. split; [exact Hlast|exact Hs].
Qed.

Lemma blank_response_stream_witness :
  streamOf 42 "  "
  = [StreamingStartEvent ("msg-" +:+ Text.itoa 42); StreamingEndEvent].
Proof.
  exact (proj1 (blank_response_stream "127.0.0.1" (fun _ => "{}") (fun _ => Some "  ")
                  42 "hiking" "  " Consumer.V2 Consumer.initialWorld (fun _ => 0)
                  eq_refl eq_refl)).
Defined.

End FieldsMore.

Section WriterMore.
Import Producer Stream.

(** The stream writer flushes after every event and never batches: when it
    runs to its end, whatever the connection does and however long the
    frames are, every event the client received took one write of the
    connection, and they are the first events of the stream, every write
    before them having been taken.  When no write was refused nothing is
    left in the buffer; when one was, it is the write that follows those
    taken, and the buffer holds at most the one event it carried. *)
Theorem streamWriter_flushes_each (ip : string) (Marshal : Event -> string)
  (generate : string -> option string) (conn : nat -> bool) (now : Z)
  (q response : string) :
  generate q = Some response ->
  let w := (streamWriter (Some ip) Marshal generate conn now q).2 in
  flushedEach conn w
  /\ writes w = length (delivered w)
  /\ (failed w = false -> buffered w = [] /\ used w = 0%nat)
  /\ (failed w = true ->
      (length (buffered w) <= 1)%nat /\ conn (writes w) = false)
  /\ delivered w = take (writes w) (streamOf now response)
  /\ (forall j, (j < writes w)%nat -> conn j = true).
Proof.
  intros Hgen w.
  destruct (streamWriter_prefix ip Marshal generate conn now q response Hgen)
    as (k & Hd & Hk & Hconn & Hcase).
  fold w in Hd, Hk, Hcase.
  assert (writes w = length (delivered w)) as Hn.
  { rewrite Hd, Hk, length_take. destruct (failed w).
    - destruct Hcase as (Hlt & _). lia.
    - destruct Hcase as (-> & _). lia. }
  assert (flushedEach conn w) as Hfl.
  { split; [exact Hn|]. destruct (failed w).
    - destruct Hcase as (_ & Hc & Hb). by rewrite Hk.
    - by destruct Hcase as (_ & _ & ? & ?). }
  split; [exact Hfl|]. split; [exact Hn|].
  destruct Hfl as [_ Hb].
  split; [by intros Hf; rewrite Hf in Hb|].
  split; [by intros Hf; rewrite Hf in Hb; destruct Hb|].
  split; [by rewrite Hk|]. by rewrite Hk.
Qed.

(** The stand-in answer to hiking on a connection that is lost after the
    second event. *)
Lemma streamWriter_flushes_each_witness :
  let w := (streamWriter (Some "127.0.0.1") (fun _ => "{}")
              (fun q => Some (generateResponse (fun s => s) q))
              (fun k => (k <? 2)%nat) 42 "hiking").2 in
  writes w = length (delivered w).
Proof.
  exact (proj1 (proj2 (streamWriter_flushes_each "127.0.0.1" (fun _ => "{}")
                         (fun q => Some (generateResponse (fun s => s) q))
                         (fun k => (k <? 2)%nat) 42 "hiking" _ eq_refl))).
Defined.

End WriterMore.

Section DecodeMore.
Import Producer Bytes.

Lemma QueryUnescape_length (s r : string) :
  Codec.QueryUnescape s = Some r -> (String.length r <= String.length s)%nat.
Proof.
  remember (String.length s) as n eqn:Hn. revert s r Hn.
  induction (lt_wf n) as [n _ IH]. intros s r -> H.
  destruct s as [|c s]; [cbn in H; by injection H as <-|].
  cbn [Codec.QueryUnescape] in H. destruct (Ascii.eqb c "%").
  - destruct s as [|x [|y rest]]; try done.
    destruct (Codec.unhex x), (Codec.unhex y); try done.
    destruct (Codec.QueryUnescape rest) as [r'|] eqn:Hr; [|done].
    injection H as <-. cbn [String.length] in *.
    pose proof (IH (String.length rest) ltac:(lia) rest r' eq_refl Hr). lia.
  - destruct (Codec.QueryUnescape s) as [r'|] eqn:Hr; [|done].
    injection H as <-. cbn [String.length] in *.
    pose proof (IH (String.length s) ltac:(lia) s r' eq_refl Hr). lia.
Qed.

Lemma QueryUnescape_fixed (s : string) :
  Codec.QueryUnescape s = Some s -> plain s = true.
Proof.
  induction s as [|c s IH]; [done|]. intros H.
  cbn [Codec.QueryUnescape] in H. destruct (Ascii.eqb c "%") eqn:Hp.
  - destruct s as [|x [|y rest]]; try done.
    destruct (Codec.unhex x), (Codec.unhex y); try done.
    destruct (Codec.QueryUnescape rest) as [r'|] eqn:Hr; [|done].
    injection H as _ ->. apply QueryUnescape_length in Hr. cbn [String.length] in Hr. lia.
  - destruct (Codec.QueryUnescape s) as [r'|] eqn:Hr; [|done].
    destruct (Ascii.eqb c "+") eqn:Hplus.
    + injection H as Hc _. apply Ascii.eqb_eq in Hplus. by subst c.
    + injection H as ->. unfold plain. cbn [list_ascii_of_string forallb].
      rewrite Hplus, Hp. by apply IH.
Qed.

(** The texts that come out of [url.QueryUnescape] with its fallback as
    they went in are those it refuses, which the fallback returns as they
    are, and those with neither a plus sign nor a percent sign.  So a query
    sent by the second revision of the consumer reaches the generator as it
    was typed exactly in these two cases. *)
Theorem decodeMessage_fixed_iff (text : string) :
  (decodeMessage text = text <->
   Codec.QueryUnescape text = None \/ plain text = true)
  /\ (Transport.decodedMessage Consumer.V2 text = text <->
      Codec.QueryUnescape text = None \/ plain text = true).
Proof.
  assert (decodeMessage text = text <->
          Codec.QueryUnescape text = None \/ plain text = true) as H.
  { unfold decodeMessage. split.
    - destruct (Codec.QueryUnescape text) as [r|] eqn:Hr; [|by left].
      intros ->. right. by apply QueryUnescape_fixed.
    - intros [-> | Hplain]; [done|]. by rewrite QueryUnescape_plain. }
  split; [exact H|].
  unfold Transport.decodedMessage, Transport.queryParam, Transport.onWire.
  cbn [Consumer.messageParam]. by rewrite decodeArg_formEncode.
Qed.

End DecodeMore.

(* ===================================================================== *)
(** * More of the consumer                                                 *)
(* ===================================================================== *)

Section BatchMore.
Import Consumer Session.

(** A batched frame is handled as its first element alone, an empty batch
    as nothing: the other events of a batch are lost.  Were the producer's
    whole stream to arrive as one batch, only [STREAMING_START] would be
    handled: the hook would be left streaming, with an empty message. *)
Theorem batch_handled_as_first :
  (forall (v : Version) (w : World) (frames : list (Z * list JSValue)),
     receive v ((fun tb => (tb.1, Batch tb.2)) <$> frames) w
     = receive v ((fun tb => (tb.1, Single (default Falsy (head tb.2)))) <$> frames) w)
  /\ (forall (v : Version) (w : World) (t : Z) (generate : string -> string)
        (now : Z) (q : string),
        let w' := onmessage v t
                    (Batch (valueOf <$> Producer.fullStream generate now q)) w in
        isStreaming (store w') = true
        /\ assembling w'
           = Some (mkMessage ("msg-" +:+ Text.itoa now) assistant "" t (Some true)
                     None None None)).
Proof.
  split.
  - intros v w frames. revert w. induction frames as [|[t events] frames IH]; intros w.
    + done.
    + cbn [fmap list_fmap]. unfold receive in *. cbn [fold_left fst snd].
      change (list_fmap _ _ ?f frames) with (f <$> frames).
      rewrite <- IH. f_equal. by destruct events.
  - intros v w t generate now q w'. subst w'. unfold Producer.fullStream.
    cbn [fmap list_fmap valueOf Transport.frameOf].
    change (onmessage v t (Batch (?x :: ?l)) w) with (onmessage v t (Single x) w).
    destruct (onmessage_start v t (Some ("msg-" +:+ Text.itoa now)) w)
      as ((Hacc & _) & _ & Hs & _).
    split; [exact Hs|exact Hacc].
Qed.

End BatchMore.

Section LateChunks.
Import Consumer Session.

Lemma orElse_nonempty (a : option string) (d : string) : d <> "" -> orElse a d <> "".
Proof.
  intros Hd. unfold orElse. destruct a as [s|]; [|done].
  destruct (String.eqb_spec s ""); done.
Qed.

Lemma Forall_id_updateMessages (id : string) (u : Updates) (l : list Message) :
  upd_id u = None ->
  Forall (fun m => msg_id m <> "") l ->
  Forall (fun m => msg_id m <> "") (updateMessages id u l).
Proof.
  intros Hu Hl. unfold updateMessages. apply Forall_fmap.
  eapply Forall_impl; [exact Hl|]. intros m Hm. cbn.
  destruct (String.eqb (msg_id m) id); [|done].
  unfold merge. cbn. by rewrite Hu.
Qed.

Lemma identified_step (v : Version) (p : Props) (w : World) (ti : Z * Input) :
  identified w -> identified (step v p w ti).
Proof.
  unfold identified. intros Hw.
  destruct (step_messages v p w ti) as [H|[[m H]|(id & u & Hid & _ & H)]].
  - by rewrite H.
  - rewrite H. apply Forall_app. split; [done|]. apply Forall_singleton.
    (* the message appended: by the step that appended it *)
    destruct ti as [t input].
    destruct input as [text| | |i|i f|i fatal|i]; cbn [step] in H.
    + destruct (isStreaming (store w)) eqn:Hs.
      * rewrite sendMessage_streaming in H by done.
        apply (f_equal length) in H. rewrite length_app in H. cbn in H. lia.
      * destruct (sendMessage_idle v p t text w Hs) as (Hm & _).
        rewrite Hm in H. apply app_inv_head in H. by injection H as <-.
    + destruct (reconnect_sources v w) as (_ & _ & Hst & _). rewrite Hst in H. cbn in H.
      apply (f_equal length) in H. rewrite length_app in H. cbn in H. lia.
    + destruct v; [|destruct (cleanup_sources w) as (_ & _ & Hst); rewrite Hst in H];
        apply (f_equal length) in H; rewrite length_app in H; cbn in H; lia.
    + exfalso. destruct (sources w !! i) as [es|].
      2:{ apply (f_equal length) in H. rewrite length_app in H. cbn in H. lia. }
      destruct (readyState es), (retrying es);
        try (apply (f_equal length) in H; rewrite length_app in H; cbn in H; lia).
      destruct (onopen_frame v (onSources (alter (setReadyState OPEN false) i) w))
        as (_ & _ & Hm & _). rewrite Hm in H. cbn in H.
      apply (f_equal length) in H. rewrite length_app in H. cbn in H. lia.
    + destruct (stateOf w i) as [[]|];
        try (apply (f_equal length) in H; rewrite length_app in H; cbn in H; lia).
      unfold onmessage in H. destruct (parseAGUIEvent f) as [[|e]|];
        try (apply (f_equal length) in H; rewrite length_app in H; cbn in H; lia).
      destruct e; cbn -[updateMessages closeOnTerminal] in H;
        rewrite ?store_closeOnTerminal in H; cbn -[updateMessages] in H;
        try (apply (f_equal length) in H;
             rewrite ?length_updateMessages, length_app in H; cbn in H; lia).
      * apply app_inv_head in H. injection H as <-. cbn.
        by apply orElse_nonempty.
      * apply app_inv_head in H. by injection H as <-.
    + exfalso. unfold stateOf in H. destruct (sources w !! i) as [es|]; cbn in H.
      2:{ apply (f_equal length) in H. rewrite length_app in H. cbn in H. lia. }
      destruct (readyState es);
        try (apply (f_equal length) in H; rewrite length_app in H; cbn in H; lia).
      all: match type of H with
           | context [onerror ?a ?b ?x] =>
             destruct (onerror_frame a b x) as (_ & _ & _ & Hm & _); rewrite Hm in H
           end; cbn in H; apply (f_equal length) in H; rewrite length_app in H;
        cbn in H; lia.
    + exfalso. destruct (sources w !! i) as [es|].
      2:{ apply (f_equal length) in H. rewrite length_app in H. cbn in H. lia. }
      destruct (readyState es), (retrying es);
        apply (f_equal length) in H; rewrite length_app in H; cbn in H; lia.
  - rewrite H. by apply Forall_id_updateMessages.
Qed.

Lemma identified_reachable (v : Version) (p : Props) (w : World) :
  reachable v p w -> identified w.
Proof.
  intros [ins ->]. unfold run. rewrite <- (rev_involutive ins).
  induction (rev ins) as [|ti l IH]; [by constructor|].
  cbn [rev]. rewrite fold_left_app. cbn [fold_left]. by apply identified_step.
Qed.

Lemma text_without_target (v : Version) (t : Z) (c : string) (b : option bool) (w : World) :
  identified w -> currentMessageIdRef (hook w) = "" ->
  let w' := onmessage v t (Single (Parsed (TEXT_MESSAGE_CONTENT c b))) w in
  messages (store w') = messages (store w)
  /\ currentMessageIdRef (hook w') = "".
Proof.
  intros Hid Href w'. subst w'. cbn -[updateMessages]. rewrite Href.
  by rewrite updateMessages_empty_id_free.
Qed.

(** Text with no stream to receive it is not shown.  In a world the hook
    can reach, while the accumulation target is empty (before the first
    [STREAMING_START], and after every [STREAMING_END]), text chunks leave
    the log as it is, however many arrive; in particular the chunks that
    follow a [STREAMING_END] on a connection left open are dropped. *)
Theorem late_chunks_ignored (v : Version) (p : Props) (w : World) :
  reachable v p w ->
  (currentMessageIdRef (hook w) = "" ->
   forall chunks : list (Z * string * option bool),
     messages (store (receive v (textFrame <$> chunks) w)) = messages (store w))
  /\ (forall (t : Z) (chunks : list (Z * string * option bool)),
        messages (store (receive v ((t, Single (Parsed STREAMING_END))
                                    :: (textFrame <$> chunks)) w))
        = messages (store (onmessage v t (Single (Parsed STREAMING_END)) w))).
Proof.
  intros Hreach. pose proof (identified_reachable v p w Hreach) as Hid.
  assert (forall (chunks : list (Z * string * option bool)) (w0 : World),
            identified w0 -> currentMessageIdRef (hook w0) = "" ->
            messages (store (receive v (textFrame <$> chunks) w0))
            = messages (store w0)) as Hchunks.
  { induction chunks as [|[[t c] b] chunks IH]; intros w0 Hid0 Href0; [done|].
    cbn [fmap list_fmap].
    change (list_fmap _ _ textFrame chunks) with (textFrame <$> chunks).
    change (receive v (?f :: ?l) w0) with (receive v l (onmessage v f.1 f.2 w0)).
    cbn [textFrame fst snd].
    destruct (text_without_target v t c b w0 Hid0 Href0) as [Hm Hr].
    rewrite IH; [done| |done]. unfold identified. by rewrite Hm. }
  split; [intros Href chunks; by apply Hchunks|].
  intros t chunks.
  change (receive v (?f :: ?l) w) with (receive v l (onmessage v f.1 f.2 w)).
  cbn [fst snd]. apply Hchunks.
  - unfold identified. cbn -[updateMessages closeOnTerminal].
    rewrite store_closeOnTerminal. cbn -[updateMessages].
    by apply Forall_id_updateMessages.
  - cbn -[closeOnTerminal]. destruct v; [done|].
    unfold closeOnTerminal. cbn. by destruct (eventSourceRef (hook w)).
Qed.

(** A stream ends on a connection the first revision leaves open, and two
    more chunks arrive. *)
Lemma late_chunks_ignored_witness :
  let w := run V1 pageProps
             [ (1, SendMessage "hiking"); (2, Opened 0%nat);
               (3, Received 0%nat (Single (Parsed (STREAMING_START (Some "msg-1")))));
               (4, Received 0%nat (Single (Parsed (TEXT_MESSAGE_CONTENT "I " (Some false))))) ]
             initialWorld in
  messages (store (receive V1 ((5, Single (Parsed STREAMING_END))
                               :: (textFrame <$> [(6, "found ", Some false);
                                                  (7, "some", Some true)])) w))
  = messages (store (onmessage V1 5 (Single (Parsed STREAMING_END)) w)).
Proof.
  intros w.
  assert (reachable V1 pageProps w) as Hreach by (eexists; reflexivity).
  exact (proj2 (late_chunks_ignored V1 pageProps w Hreach) 5
           [(6, "found ", Some false); (7, "some", Some true)]).
Defined.

End LateChunks.

Section StoreMore.
Import Consumer ChatStore.

Lemma merge_merge (m : Message) (u1 u2 : Updates) :
  merge (merge m u1) u2 = merge m (both u1 u2).
Proof.
  destruct u1 as [a1 b1 c1 d1 e1 f1 g1 h1], u2 as [a2 b2 c2 d2 e2 f2 g2 h2].
  unfold merge, both, override. cbn.
  by destruct a2, b2, c2, d2, e2, f2, g2, h2.
Qed.

(** Two updates of one message compose into one, the later keys winning,
    provided the first does not change the id (the second would then miss
    the message); updates that keep the ids and aim at different messages
    commute. *)
Theorem updateMessages_compose (id : string) (u1 u2 : Updates) (l : list Message) :
  upd_id u1 = None ->
  updateMessages id u2 (updateMessages id u1 l) = updateMessages id (both u1 u2) l
  /\ (forall id', id' <> id -> upd_id u2 = None ->
        updateMessages id' u2 (updateMessages id u1 l)
        = updateMessages id u1 (updateMessages id' u2 l)).
Proof.
  intros Hu1. split.
  - unfold updateMessages. rewrite <- list_fmap_compose. apply list_fmap_ext.
    intros _ m _. cbn. destruct (String.eqb (msg_id m) id) eqn:He.
    + assert (msg_id (merge m u1) = msg_id m) as -> by (unfold merge; cbn; by rewrite Hu1).
      rewrite He. apply merge_merge.
    + by rewrite He.
  - intros id' Hne Hu2. unfold updateMessages. rewrite <- !list_fmap_compose.
    apply list_fmap_ext. intros _ m _. cbn.
    assert (msg_id (merge m u1) = msg_id m) as E1 by (unfold merge; cbn; by rewrite Hu1).
    assert (msg_id (merge m u2) = msg_id m) as E2 by (unfold merge; cbn; by rewrite Hu2).
    destruct (String.eqb (msg_id m) id) eqn:He, (String.eqb (msg_id m) id') eqn:He';
      rewrite ?E1, ?E2, ?He, ?He'; try done.
    apply String.eqb_eq in He, He'. congruence.
Qed.

(** Two text chunks on one message: the content of the second stands. *)
Lemma updateMessages_compose_witness :
  let m := mkMessage "msg-1" assistant "" 0 (Some true) None None None in
  let u1 := mkUpdates None None (Some "I ") None (Some (Some true)) None None None in
  let u2 := mkUpdates None None (Some "I found") None (Some (Some false)) None None None in
  updateMessages "msg-1" u2 (updateMessages "msg-1" u1 [m])
  = updateMessages "msg-1" (both u1 u2) [m].
Proof.
  intros m u1 u2. exact (proj1 (updateMessages_compose "msg-1" u1 u2 [m] eq_refl)).
Defined.

(** [clearChat] empties the store and leaves the hook and its connection as
    they are: a stream in progress goes on, its remaining chunks find no
    message to update and are lost, and the log is still empty when the
    stream ends. *)
Theorem clearChat_drops_stream (v : Version) (w : World) (t : Z)
  (chunks : list (Z * string * option bool)) :
  store (clearChat w) = initialChatState
  /\ hook (clearChat w) = hook w
  /\ sources (clearChat w) = sources w
  /\ messages (store (receive v ((textFrame <$> chunks)
                                 ++ [(t, Single (Parsed STREAMING_END))])
                        (clearChat w))) = [].
Proof.
  split; [done|]. split; [done|]. split; [done|].
  assert (messages (store (clearChat w)) = []) as Hnil by done.
  revert Hnil. generalize (clearChat w). induction chunks as [|[[t0 c] b] chunks IH];
    intros w0 Hnil.
  - cbn [fmap list_fmap app]. unfold receive. cbn [fold_left fst snd].
    cbn -[updateMessages closeOnTerminal]. rewrite store_closeOnTerminal.
    cbn. by rewrite Hnil.
  - cbn [fmap list_fmap app].
    change (list_fmap _ _ textFrame chunks) with (textFrame <$> chunks).
    change (receive v (?f :: ?l) w0) with (receive v l (onmessage v f.1 f.2 w0)).
    apply IH. cbn. by rewrite Hnil.
Qed.

End StoreMore.

Section SharedId.
Import Consumer.

(** After a chunk of text, every message that carries the id of the
    accumulation target holds the accumulated text. *)
Lemma text_overwrites (v : Version) (t : Z) (c : string) (b : option bool)
  (w : World) (k : nat) (m : Message) :
  messages (store w) !! k = Some m -> msg_id m = currentMessageIdRef (hook w) ->
  let w' := onmessage v t (Single (Parsed (TEXT_MESSAGE_CONTENT c b))) w in
  exists m', messages (store w') !! k = Some m'
             /\ msg_id m' = currentMessageIdRef (hook w')
             /\ msg_content m' = currentMessageRef (hook w')
             /\ currentMessageRef (hook w') = currentMessageRef (hook w) +:+ c.
Proof.
  intros Hk Hid w'. subst w'. cbn -[updateMessages].
  rewrite updateMessages_lookup, Hk. cbn. rewrite Hid, String.eqb_refl.
  eexists. split; [done|]. by cbn.
Qed.

(** Messages are updated by id, and nothing keeps ids apart: when a stream
    starts under the id of a message already in the log, that message takes
    the text of the new stream as well, from its first chunk on. *)
Theorem shared_id_overwritten (v : Version) (w : World) (t : Z) (id : string)
  (k : nat) (m0 : Message) (chunk : Z * string * option bool)
  (chunks : list (Z * string * option bool)) :
  id <> "" -> messages (store w) !! k = Some m0 -> msg_id m0 = id ->
  let w' := receive v ((t, Single (Parsed (STREAMING_START (Some id))))
                       :: (textFrame <$> chunk :: chunks)) w in
  exists m', messages (store w') !! k = Some m'
             /\ msg_id m' = id
             /\ msg_content m' = Text.concat ((chunk :: chunks).*1.*2).
Proof.
  intros Hne Hk Hid w'. subst w'.
  change (receive v (?f :: ?l) w) with (receive v l (onmessage v f.1 f.2 w)).
  cbn [fst snd].
  set (w1 := onmessage v t (Single (Parsed (STREAMING_START (Some id)))) w).
  assert (orElse (Some id) ("msg-" +:+ Text.itoa t) = id) as Hor.
  { unfold orElse. by destruct (String.eqb_spec id ""). }
  assert (messages (store w1) !! k = Some m0 /\ currentMessageIdRef (hook w1) = id
          /\ currentMessageRef (hook w1) = "") as (Hk1 & Hr1 & Hc1).
  { destruct (onmessage_start v t (Some id) w) as ((_ & Hi & Hc) & Hm & _).
    fold w1 in Hi, Hc, Hm. rewrite Hor in *. cbn in Hi, Hc.
    split; [|done]. rewrite Hm. by apply lookup_app_l_Some. }
  clearbody w1.
  assert (forall (l : list (Z * string * option bool)) (w2 : World) (m : Message),
            messages (store w2) !! k = Some m -> msg_id m = currentMessageIdRef (hook w2) ->
            msg_content m = currentMessageRef (hook w2) ->
            exists m', messages (store (receive v (textFrame <$> l) w2)) !! k = Some m'
                       /\ msg_id m' = currentMessageIdRef (hook w2)
                       /\ msg_content m' = currentMessageRef (hook w2) +:+ Text.concat (l.*1.*2))
    as Hall.
  { induction l as [|[[t0 c] b] l IH]; intros w2 m Hm Hi Hc.
    - exists m. cbn. by rewrite append_nil_r.
    - cbn [fmap list_fmap].
      change (list_fmap _ _ textFrame l) with (textFrame <$> l).
      change (receive v (?f :: ?l0) w2) with (receive v l0 (onmessage v f.1 f.2 w2)).
      cbn [textFrame fst snd].
      destruct (text_overwrites v t0 c b w2 k m Hm Hi) as (m1 & Hm1 & Hi1 & Hc1' & Hr).
      destruct (IH _ m1 Hm1 Hi1 Hc1') as (m' & Hm' & Hi' & Hc').
      exists m'. split; [done|]. split.
      + rewrite Hi'. cbn. done.
      + rewrite Hc', Hr.
        change (Text.concat (((t0, c, b) :: l).*1.*2)) with (c +:+ Text.concat (l.*1.*2)).
        by rewrite append_assoc. }
  destruct chunk as [[t0 c] b].
  cbn [fmap list_fmap].
  change (list_fmap _ _ textFrame chunks) with (textFrame <$> chunks).
  change (receive v (?f :: ?l0) w1) with (receive v l0 (onmessage v f.1 f.2 w1)).
  cbn [textFrame fst snd].
  destruct (text_overwrites v t0 c b w1 k m0 Hk1 (eq_trans Hid (eq_sym Hr1)))
    as (m1 & Hm1 & Hi1 & Hc1' & Hr).
  destruct (Hall chunks _ m1 Hm1 Hi1 Hc1') as (m' & Hm' & Hi' & Hc').
  exists m'. split; [done|]. split.
  - rewrite Hi'. cbn. done.
  - rewrite Hc', Hr, Hc1.
    change (Text.concat (((t0, c, b) :: chunks).*1.*2))
      with (c +:+ Text.concat (chunks.*1.*2)).
    done.
Qed.

(** A second stream under the id "msg-1" of a message already shown. *)
Lemma shared_id_overwritten_witness :
  let old := mkMessage "msg-1" assistant "Bear Mountain" 1 (Some false) None None None in
  let w := mkWorld (mkChatState [old] false [] None None) initialHook [] [] in
  exists m', messages (store (receive V2
                                ((2, Single (Parsed (STREAMING_START (Some "msg-1"))))
                                 :: (textFrame <$> [(3, "Eagle ", Some false);
                                                    (4, "Peak", Some true)])) w))
             !! 0%nat = Some m'
             /\ msg_id m' = "msg-1"
             /\ msg_content m'
                = Text.concat ([(3, "Eagle ", Some false); (4, "Peak", Some true)].*1.*2).
Proof.
  intros old w.
  assert ("msg-1" <> "") as Hne by done.
  exact (shared_id_overwritten V2 w 2 "msg-1" 0 old (3, "Eagle ", Some false)
           [(4, "Peak", Some true)] Hne eq_refl eq_refl).
Defined.

End SharedId.

Section LifecycleMore.
Import Consumer Session.

(** [reconnect] only tears down: in a world the hook can reach it leaves
    every source closed, the hook without a source, not connected and with
    no error to report; it makes no request and keeps the log and the
    streaming flag; calling it twice is calling it once. *)
Theorem reconnect_resets (v : Version) (p : Props) (w : World) :
  reachable v p w ->
  let w' := reconnect v w in
  allClosed (sources w')
  /\ eventSourceRef (hook w') = None
  /\ isConnected (hook w') = false
  /\ returnedError v w' = None
  /\ attempts w' = attempts w
  /\ messages (store w') = messages (store w)
  /\ isStreaming (store w') = isStreaming (store w)
  /\ reconnect v w' = w'.
Proof.
  intros Hreach w'. pose proof (reachable_wellFormed v p w Hreach) as Hwf.
  destruct (reconnect_sources v w) as (Hs & Hr & Hst & Hc). fold w' in Hs, Hr, Hst, Hc.
  split. { rewrite Hs. by apply consistent_close_ref in Hwf. }
  split; [done|]. split; [done|]. split.
  { subst w'. destruct v; unfold reconnect, returnedError;
      destruct (eventSourceRef (hook w)); by cbn. }
  split. { apply attempts_eq. rewrite Hs. apply requests_staleClosed. }
  split; [by rewrite Hst|]. split; [by rewrite Hst|].
  subst w'. destruct v; unfold reconnect;
    destruct (eventSourceRef (hook w)) eqn:E; cbn; rewrite ?E; by cbn.
Qed.

Lemma reconnect_resets_witness :
  let w := run V2 pageProps [(1, SendMessage "hiking"); (2, Opened 0%nat)] initialWorld in
  allClosed (sources (reconnect V2 w)).
Proof.
  intros w.
  assert (reachable V2 pageProps w) as Hreach by (eexists; reflexivity).
  exact (proj1 (reconnect_resets V2 pageProps w Hreach)).
Defined.

Lemma step_allClosed (v : Version) (p : Props) (w : World) (ti : Z * Input) :
  allClosed (sources w) -> fromTransport ti = true -> step v p w ti = w.
Proof.
  intros Hall Ht. destruct ti as [t input].
  destruct input as [text| | |i|i f|i fatal|i]; try done; cbn [step]; unfold stateOf.
  all: destruct (sources w !! i) as [es|] eqn:Hes; [|done].
  all: destruct (Hall i es Hes) as [Hrs Hre]; cbn; rewrite ?Hrs, ?Hre; done.
Qed.

(** When the component unmounts, the second revision closes whatever source
    the hook holds: every source is closed, the store is as it was, and
    nothing the user agent dispatches afterwards changes anything.  The
    first revision has no cleanup: unmounting leaves its world as it is,
    connection included. *)
Theorem unmount_silences (p : Props) (w : World) (t : Z) :
  reachable V2 p w ->
  let w' := step V2 p w (t, Unmount) in
  allClosed (sources w')
  /\ store w' = store w
  /\ attempts w' = attempts w
  /\ (forall ins : list (Z * Input),
        forallb fromTransport ins = true -> run V2 p ins w' = w')
  /\ (forall w0 : World, step V1 p w0 (t, Unmount) = w0).
Proof.
  intros Hreach w'. pose proof (reachable_wellFormed V2 p w Hreach) as Hwf.
  destruct (cleanup_sources w) as (Hs & Hr & Hst).
  assert (allClosed (sources w')) as Hall.
  { subst w'. cbn [step]. rewrite Hs. by apply consistent_close_ref in Hwf. }
  split; [done|]. split; [done|]. split.
  { apply attempts_eq. subst w'. cbn [step]. rewrite Hs. apply requests_staleClosed. }
  split; [|done].
  intros ins. clearbody w'. induction ins as [|ti ins IH]; [done|].
  cbn [forallb]. intros [Hti Hins]%andb_prop.
  change (run V2 p (ti :: ins) w') with (run V2 p ins (step V2 p w' ti)).
  rewrite step_allClosed by done. by apply IH.
Qed.

Lemma unmount_silences_witness :
  let w := run V2 pageProps
             [ (1, SendMessage "hiking"); (2, Opened 0%nat);
               (3, Received 0%nat (Single (Parsed (STREAMING_START (Some "msg-1"))))) ]
             initialWorld in
  run V2 pageProps
    [ (5, Received 0%nat (Single (Parsed (TEXT_MESSAGE_CONTENT "I " (Some false)))));
      (6, Failed 0%nat false) ]
    (step V2 pageProps w (4, Unmount))
  = step V2 pageProps w (4, Unmount).
Proof.
  intros w.
  assert (reachable V2 pageProps w) as Hreach by (eexists; reflexivity).
  destruct (unmount_silences pageProps w 4 Hreach) as (_ & _ & _ & H & _).
  exact (H [ (5, Received 0%nat (Single (Parsed (TEXT_MESSAGE_CONTENT "I " (Some false)))));
             (6, Failed 0%nat false) ] eq_refl).
Defined.

End LifecycleMore.

Section ErrorMore.
Import Consumer Session ChatUI.

Lemma staleClosed_nil (w : World) : staleClosed w = [] <-> sources w = [].
Proof.
  rewrite <- !length_zero_iff_nil, length_staleClosed. done.
Qed.

Lemma returnedError_V2 (w : World) :
  returnedError V2 w = None <->
  connectionError (hook w) = None /\ truthy (error (store w)) = false.
Proof.
  unfold returnedError, truthy. destruct (error (store w)) as [s|].
  - destruct (String.eqb s ""); cbn; [tauto|]. split; [done|]. by intros [].
  - tauto.
Qed.

Lemma connectedClean_handle (p : Props) (t : Z) (e : AGUIEvent) (w : World) (i : nat) :
  wellFormed w -> stateOf w i = Some OPEN ->
  connectedClean p w -> connectedClean p (handleAGUIEvent V2 t e w).
Proof.
  intros Hwf Hopen [Hv Hc].
  assert (eventSourceRef (hook w) = Some i) as Href.
  { unfold stateOf in Hopen. destruct (sources w !! i) as [es|] eqn:Hes; [|done].
    destruct Hwf as (Hl & _). apply (Hl i es Hes). unfold live.
    cbn in Hopen. by injection Hopen as ->. }
  assert (sources w <> []) as Hne.
  { unfold stateOf in Hopen. intros E. by rewrite E in Hopen. }
  split.
  - intros _. by apply Hv.
  - destruct e; cbn -[updateMessages]; rewrite ?Href; cbn -[updateMessages]; try done;
      intros Hcon; destruct (Hc Hcon) as [Herr _]; (split; [|done]);
      apply returnedError_V2 in Herr as [? ?]; by apply returnedError_V2.
Qed.

Lemma connectedClean_sendMessage (p : Props) (t : Z) (text : string) (w : World) :
  connectedClean p w -> connectedClean p (sendMessage V2 p t text w).
Proof.
  intros [Hv Hc]. destruct (isStreaming (store w)) eqn:Hs.
  { by rewrite sendMessage_streaming. }
  destruct (sendMessage_idle V2 p t text w Hs) as (_ & _ & Hsrc).
  destruct (validEndpoint V2 p) eqn:Hvalid.
  - destruct Hsrc as [Hsrc _]. split; [done|]. intros _.
    split; [|rewrite Hsrc; by destruct (staleClosed w)].
    unfold sendMessage, setupEventSource, validEndpoint in *. rewrite Hs.
    apply andb_prop in Hvalid as [Hp ->]. apply orb_prop in Hp.
    destruct (Text.startsWith (endpoint p) "http://"),
      (Text.startsWith (endpoint p) "https://"); try (by destruct Hp);
      by destruct (eventSourceRef (hook w)).
  - destruct Hsrc as [Hsrc _].
    assert (sources w = []) as Hnil.
    { destruct (sources w) eqn:E; [done|]. by specialize (Hv ltac:(done)). }
    split; [intros Hne; by rewrite Hsrc, (proj2 (staleClosed_nil w) Hnil) in Hne|].
    intros Hcon. exfalso.
    assert (isConnected (hook w) = true) as Hcw.
    { revert Hcon. unfold sendMessage, setupEventSource. rewrite Hs.
      destruct (eventSourceRef (hook w));
        destruct (negb _ && negb _); try destruct (negb (endpointParses p)); cbn; done. }
    by destruct (Hc Hcw) as [_ ?].
Qed.

Lemma connectedClean_step (p : Props) (w : World) (ti : Z * Input) :
  wellFormed w -> connectedClean p w -> connectedClean p (step V2 p w ti).
Proof.
  intros Hwf Hcc. pose proof Hcc as [Hv Hc]. destruct ti as [t input].
  destruct input as [text| | |i|i f|i fatal|i]; cbn [step].
  - by apply connectedClean_sendMessage.
  - destruct (reconnect_sources V2 w) as (Hs & _ & _ & Hcon).
    split; [|by rewrite Hcon]. rewrite Hs. intros Hne. apply Hv.
    intros E. by apply Hne, staleClosed_nil.
  - destruct (cleanup_sources w) as (Hs & _ & Hst).
    assert (isConnected (hook (cleanup V2 w)) = isConnected (hook w)
            /\ connectionError (hook (cleanup V2 w)) = connectionError (hook w))
      as [Hcon Hce] by (unfold cleanup; cbn; by destruct (eventSourceRef (hook w))).
    assert (sources (cleanup V2 w) <> [] -> sources w <> []) as Hne.
    { rewrite Hs. intros Hne E. by apply Hne, staleClosed_nil. }
    split; [intros H; by apply Hv, Hne|].
    rewrite Hcon. intros H. destruct (Hc H) as [Herr Hsrc]. split.
    + apply returnedError_V2 in Herr as [? ?]. apply returnedError_V2.
      by rewrite Hce, Hst.
    + rewrite Hs. intros E. by apply Hsrc, staleClosed_nil.
  - destruct (sources w !! i) as [es|] eqn:Hes; [|done].
    destruct (readyState es); try done. destruct (retrying es); [done|].
    assert (sources w <> []) as Hne by (intros E; by rewrite E in Hes).
    split; [intros _; by apply Hv|]. intros _. split; [done|].
    cbn. intros E. apply (f_equal length) in E. rewrite length_alter in E.
    by destruct (sources w).
  - destruct (stateOf w i) as [[]|] eqn:Hopen; try done.
    unfold onmessage. destruct (parseAGUIEvent f) as [[|e]|]; try done.
    by apply (connectedClean_handle p t e w i).
  - unfold stateOf. destruct (sources w !! i) as [es|] eqn:Hes;
      cbn [fmap option_fmap option_map]; [|done].
    assert (sources w <> []) as Hne by (intros E; by rewrite E in Hes).
    destruct (readyState es); try done.
    all: match goal with
         | |- context [onerror ?a ?b ?x] =>
           destruct (onerror_frame a b x) as (_ & _ & Hcon & _)
         end; split; [intros _; by apply Hv|by rewrite Hcon].
  - pose proof (step_Reestablish V2 p t i w Hwf) as E. cbn [step] in E. by rewrite E.
Qed.

Lemma connectedClean_reachable (p : Props) (w : World) :
  reachable V2 p w -> connectedClean p w.
Proof.
  intros [ins ->]. unfold run. rewrite <- (rev_involutive ins).
  induction (rev ins) as [|ti l IH]; [by split|].
  cbn [rev]. rewrite fold_left_app. cbn [fold_left].
  apply connectedClean_step; [|done].
  apply reachable_wellFormed with (v := V2) (p := p).
  exists (rev l). by unfold run.
Qed.

(** The second revision of the hook never reports an error while it is
    connected: in every world it can reach, if the hook returns an error or
    the store holds one, [isConnected] is lowered.  So whatever the error,
    [ErrorDisplay] shows the connection issue with its retry action; its
    other three cases are never shown with this hook. *)
Theorem error_implies_disconnected (p : Props) (w : World) :
  reachable V2 p w ->
  (returnedError V2 w <> None -> isConnected (hook w) = false)
  /\ (forall d, errorShown V2 w = Some d ->
        isConnected (hook w) = false
        /\ d = mkErrorDetails "Connection Issue"
                 "Unable to connect to server. Please ensure the backend is running on port 8080."
                 (Some "Retry Connection")).
Proof.
  intros Hreach. destruct (connectedClean_reachable p w Hreach) as [_ Hc].
  assert (returnedError V2 w <> None -> isConnected (hook w) = false) as H.
  { intros Herr. destruct (isConnected (hook w)); [|done]. by destruct (Hc eq_refl). }
  split; [exact H|]. intros d. unfold errorShown, ErrorDisplay.
  destruct (truthy (orUndefined _ _)) eqn:Ht; [|done]. cbn [negb].
  intros [= <-].
  assert (isConnected (hook w) = false) as Hcon.
  { apply H. intros Hnone. apply returnedError_V2 in Hnone as [Hce Herr].
    unfold returnedError, orUndefined, truthy in *.
    destruct (error (store w)) as [s|]; [destruct (String.eqb s "")|];
      try done; by rewrite Hce in Ht. }
  split; [done|]. unfold getErrorDetails. by rewrite Hcon.
Qed.

(** A transport error on an open connection. *)
Lemma error_implies_disconnected_witness :
  let w := run V2 pageProps
             [(1, SendMessage "hiking"); (2, Opened 0%nat); (3, Failed 0%nat true)]
             initialWorld in
  isConnected (hook w) = false.
Proof.
  intros w.
  assert (reachable V2 pageProps w) as Hreach by (eexists; reflexivity).
  apply (proj1 (error_implies_disconnected pageProps w Hreach)).
  vm_compute. discriminate.
Defined.

End ErrorMore.

(* ===================================================================== *)
(** * More of SafeEventSource                                              *)
(* ===================================================================== *)

Section SafeMore.
Import Consumer SafeEventSource Budget.

Lemma timers_scheduleReconnect (e : Env) :
  (forall tm, tm ∈ timers e -> reconnectTimeout (self e) = Some tm.1) ->
  length (timers (scheduleReconnect e)) = 1%nat.
Proof.
  intros Ht. destruct (clearReconnectTimeout_frame e Ht) as (Ht1 & _).
  unfold scheduleReconnect. cbn [timers]. rewrite Ht1. done.
Qed.

Lemma timers_onerror (e : Env) :
  (forall tm, tm ∈ timers e -> reconnectTimeout (self e) = Some tm.1) ->
  (length (timers e) <= 1)%nat ->
  (length (timers (SafeEventSource.onerror e)) <= 1)%nat.
Proof.
  intros Ht Hle. unfold SafeEventSource.onerror.
  destruct (closeSource_frame e) as (_ & _ & Ht1 & _ & _ & Hrt1 & _).
  set (e1 := closeSource e) in *.
  destruct (isManuallyDisconnected (self e1)); [by rewrite Ht1|].
  match goal with |- context [if ?c then _ else _] => destruct c end.
  - rewrite timers_scheduleReconnect; [done|].
    cbn. rewrite Ht1, Hrt1. exact Ht.
  - cbn. by rewrite Ht1.
Qed.

Lemma oneTimer_step (e : Env) (input : SafeEventSource.Input) :
  SafeEventSource.wellFormed e -> (length (timers e) <= 1)%nat ->
  (length (timers (SafeEventSource.step e input)) <= 1)%nat.
Proof.
  intros Hwf Hle. destruct input as [| | |i ev|i fatal|i|h].
  - destruct (connect_frame e Hwf) as (_ & Ht & _). cbn [SafeEventSource.step]. lia.
  - destruct (attempts_close e Hwf) as [_ Ht]. cbn [SafeEventSource.step]. by rewrite Ht; cbn; lia.
  - change (SafeEventSource.step e Destroy)
      with (clearReconnectTimeout (SafeEventSource.close e)).
    destruct (attempts_close e Hwf) as [_ Ht].
    destruct (clear_frame (SafeEventSource.close e)) as (_ & Ht' & _).
    rewrite Ht in Ht'. cbn in Ht'. lia.
  - done.
  - cbn [SafeEventSource.step].
    destruct (SafeEventSource.sources e !! i) as [es|]; cbn [fmap option_fmap option_map];
      [|done].
    destruct Hwf as [_ Ht].
    destruct (readyState es); [| |done]; by apply timers_onerror.
  - cbn [SafeEventSource.step]. destruct (SafeEventSource.sources e !! i) as [es|]; [|done].
    by destruct (readyState es), (retrying es).
  - cbn [SafeEventSource.step]. case_bool_decide as Hpending; [|done].
    set (e1 := mkEnv _ _ _ _).
    assert (SafeEventSource.wellFormed e1) as Hwf1.
    { destruct Hwf as [Hc Ht]. split; cbn; [done|].
      intros tm [_ Htm]%list_elem_of_filter. by apply Ht. }
    pose proof (length_filter (fun tm : nat * Z => tm.1 ≠ h) (timers e)) as Hf.
    unfold onTimeout. destruct (isManuallyDisconnected (self e1)).
    + subst e1. cbn [timers]. lia.
    + destruct (connect_frame e1 Hwf1) as (_ & Ht & _).
      assert (timers e1 = filter (fun tm : nat * Z => tm.1 ≠ h) (timers e)) as E by done.
      rewrite E in Ht. lia.
Qed.

(** An object holds at most one live source and at most one pending timer:
    in every state it can reach, two sources that are not closed are the
    same one, it is the one the object refers to, and a pending timer is
    the one [clearReconnectTimeout] would cancel. *)
Theorem SafeEventSource_single (u : string) (c : EventSourceConfig) (e : Env) :
  SafeEventSource.reachable u c e ->
  (forall j k a b, SafeEventSource.sources e !! j = Some a ->
     SafeEventSource.sources e !! k = Some b ->
     live a = true -> live b = true ->
     j = k /\ eventSource (self e) = Some j)
  /\ (length (timers e) <= 1)%nat
  /\ (forall tm, tm ∈ timers e -> reconnectTimeout (self e) = Some tm.1).
Proof.
  intros Hreach. pose proof (reachable_safe_wellFormed u c e Hreach) as Hwf.
  split; [|split].
  - intros j k a b Hj Hk Ha Hb. destruct Hwf as [(Hl & _) _].
    pose proof (Hl j a Hj Ha) as Hrj. pose proof (Hl k b Hk Hb) as Hrk.
    split; [congruence|done].
  - destruct Hreach as [ins ->]. unfold SafeEventSource.run.
    rewrite <- (rev_involutive ins).
    induction (rev ins) as [|input l IH]; [cbn; lia|].
    cbn [rev]. rewrite fold_left_app. cbn [fold_left].
    apply oneTimer_step; [|done].
    apply (reachable_safe_wellFormed u c). by exists (rev l).
  - by destruct Hwf.
Qed.

(** [connect()] called on an object that is connected: the first source is
    closed, the second is the one that lives. *)
Lemma SafeEventSource_single_witness :
  let e := SafeEventSource.run [Connect; Connect]
             (create "http://localhost:8080/api/v1/chat/stream" (mkConfig None None None)) in
  (length (timers e) <= 1)%nat.
Proof.
  intros e.
  assert (SafeEventSource.reachable "http://localhost:8080/api/v1/chat/stream"
            (mkConfig None None None) e) as Hreach by (eexists; reflexivity).
  exact (proj1 (proj2 (SafeEventSource_single _ _ e Hreach))).
Defined.

Lemma exhausted_onerror (e : Env) :
  exhausted e ->
  exhausted (SafeEventSource.onerror e)
  /\ SafeEventSource.attempts (SafeEventSource.onerror e) = SafeEventSource.attempts e.
Proof.
  intros [Hmax Ht]. unfold SafeEventSource.onerror.
  destruct (closeSource_frame e) as (_ & _ & Ht1 & _ & Hr1 & _ & Hc1 & _).
  pose proof (closeSource_attempts e) as Ha1.
  set (e1 := closeSource e) in *.
  destruct (isManuallyDisconnected (self e1)).
  { split; [|done]. split; [by rewrite Hc1, Hr1|by rewrite Ht1]. }
  cbn [onSelf self config reconnectAttempts maxReconnectAttempts].
  rewrite Hc1, Hr1.
  destruct (Z.leb_spec (reconnectAttempts (self e) + 1)
              (numberOr (maxReconnectAttempts (config (self e))) 3)) as [Hok|Hno]; [lia|].
  split; [|done]. split; cbn; [rewrite Hc1, Hr1; lia|by rewrite Ht1].
Qed.

Lemma exhausted_step (e : Env) (input : SafeEventSource.Input) :
  SafeEventSource.wellFormed e -> exhausted e ->
  exhausted (SafeEventSource.step e input)
  /\ SafeEventSource.attempts (SafeEventSource.step e input)
     = (SafeEventSource.attempts e + if isConnect input then 1 else 0)%nat.
Proof.
  intros Hwf Hex. pose proof Hex as [Hmax Ht].
  destruct input as [| | |i ev|i fatal|i|h]; cbn [isConnect]; rewrite ?Nat.add_0_r.
  - destruct (connect_frame e Hwf) as (Ha & Htl & Hc & Hr). cbn [SafeEventSource.step].
    split; [|lia]. split; [by rewrite Hc, Hr|].
    rewrite Ht in Htl. cbn [length] in Htl. apply length_zero_iff_nil. lia.
  - destruct (attempts_close e Hwf) as [Ha Htc]. destruct (close_self e) as [Hc Hr].
    cbn [SafeEventSource.step]. split; [|done]. split; [by rewrite Hc, Hr|done].
  - change (SafeEventSource.step e Destroy)
      with (clearReconnectTimeout (SafeEventSource.close e)).
    destruct (attempts_close e Hwf) as [Ha Htc]. destruct (close_self e) as [Hc Hr].
    destruct (clear_frame (SafeEventSource.close e)) as (Ha' & Ht' & Hc' & Hr').
    split; [|congruence]. split; [by rewrite Hc', Hr', Hc, Hr|].
    rewrite Htc in Ht'. cbn [length] in Ht'. apply length_zero_iff_nil. lia.
  - done.
  - cbn [SafeEventSource.step].
    destruct (SafeEventSource.sources e !! i) as [es|]; cbn [fmap option_fmap option_map];
      [|done].
    assert (forall rs b,
              exhausted (mkEnv (self e) (alter (setReadyState rs b) i (SafeEventSource.sources e))
                           (timers e) (nextTimer e))
              /\ SafeEventSource.attempts
                   (mkEnv (self e) (alter (setReadyState rs b) i (SafeEventSource.sources e))
                      (timers e) (nextTimer e))
                 = SafeEventSource.attempts e) as Halt.
    { intros rs b. split; [done|]. unfold SafeEventSource.attempts. cbn.
      apply foldr_requests. by apply requests_alter. }
    destruct (readyState es); [| |done];
      match goal with
      | |- context [SafeEventSource.onerror ?x] =>
        destruct (Halt (if fatal then CLOSED else CONNECTING) (negb fatal)) as [Hx Hax];
          destruct (exhausted_onerror x Hx) as [? Hao]; split; [done|congruence]
      end.
  - cbn [SafeEventSource.step]. destruct (SafeEventSource.sources e !! i) as [es|] eqn:Hi; [|done].
    destruct Hwf as [(Hl & Hr & Hn) _]. rewrite (Hr i es Hi).
    by destruct (readyState es).
  - cbn [SafeEventSource.step]. rewrite Ht. cbn. by rewrite bool_decide_eq_false_2
      by (intros ?%elem_of_nil; done).
Qed.

Lemma reconnectAttempts_onerror (e : Env) :
  reconnectAttempts (self e) <= reconnectAttempts (self (SafeEventSource.onerror e)).
Proof.
  unfold SafeEventSource.onerror.
  destruct (closeSource_frame e) as (_ & _ & _ & _ & Hr1 & _).
  set (e1 := closeSource e) in *.
  destruct (isManuallyDisconnected (self e1)); [lia|].
  match goal with |- context [if ?b then _ else _] => destruct b end.
  - match goal with
    | |- context [scheduleReconnect ?x] =>
      destruct (scheduleReconnect_frame x) as (_ & _ & _ & Hr2); rewrite Hr2
    end.
    cbn. lia.
  - cbn. lia.
Qed.

(** The count of reconnections never goes down. *)
Lemma reconnectAttempts_step (e : Env) (input : SafeEventSource.Input) :
  reconnectAttempts (self e) <= reconnectAttempts (self (SafeEventSource.step e input)).
Proof.
  destruct input as [| | |i ev|i fatal|i|h].
  - cbn [SafeEventSource.step]. unfold connect.
    destruct (eventSource (self e)); cbn; [|lia].
    destruct (close_self e) as [_ Hr]. lia.
  - destruct (close_self e) as [_ Hr]. cbn [SafeEventSource.step]. lia.
  - change (SafeEventSource.step e Destroy)
      with (clearReconnectTimeout (SafeEventSource.close e)).
    destruct (close_self e) as [_ Hr].
    destruct (clear_frame (SafeEventSource.close e)) as (_ & _ & _ & Hr'). lia.
  - cbn. lia.
  - cbn [SafeEventSource.step].
    destruct (SafeEventSource.sources e !! i) as [es|]; cbn [fmap option_fmap option_map];
      [|lia].
    destruct (readyState es); [| |lia];
      match goal with
      | |- context [SafeEventSource.onerror ?x] =>
        exact (reconnectAttempts_onerror x)
      end.
  - cbn [SafeEventSource.step]. destruct (SafeEventSource.sources e !! i) as [es|]; [|lia].
    destruct (readyState es), (retrying es); cbn; lia.
  - cbn [SafeEventSource.step]. case_bool_decide; [|lia].
    unfold onTimeout. cbn [self]. destruct (isManuallyDisconnected (self e)); [cbn; lia|].
    unfold connect. cbn [self]. destruct (eventSource (self e)); cbn; [|lia].
    match goal with
    | |- context [SafeEventSource.close ?x] => destruct (close_self x) as [_ Hr]
    end. cbn in Hr. lia.
Qed.

(** The count of reconnections is never reset, not by a connection that
    opened nor by [connect()]: once an object has used up its automatic
    reconnections and none is pending, it never reconnects by itself again;
    from then on it makes exactly one request per call of [connect()]. *)
Theorem reconnect_budget_never_restored (u : string) (c : EventSourceConfig)
  (e : Env) (ins : list SafeEventSource.Input) :
  SafeEventSource.reachable u c e ->
  attemptsAllowed c <= reconnectAttempts (self e) -> timers e = [] ->
  SafeEventSource.attempts (SafeEventSource.run ins e)
  = (SafeEventSource.attempts e + explicitConnects ins)%nat
  /\ timers (SafeEventSource.run ins e) = []
  /\ reconnectAttempts (self e) <= reconnectAttempts (self (SafeEventSource.run ins e)).
Proof.
  intros Hreach Hmax Ht.
  pose proof (reachable_safe_wellFormed u c e Hreach) as Hwf.
  assert (config (self e) = withDefaults c) as Hcfg.
  { destruct Hreach as [ins0 ->].
    destruct (within_run c ins0 0 (create u c)) as (Hc & _); [| |done].
    - split; cbn; [by split; [|split]|]. by intros tm ?%elem_of_nil.
    - split; [done|]. split; [done|]. cbn. lia. }
  assert (exhausted e) as Hex.
  { split; [|done]. rewrite Hcfg. exact Hmax. }
  clear Hreach Hcfg Hmax Ht.
  revert e Hwf Hex. induction ins as [|input ins IH]; intros e Hwf Hex.
  - cbn. destruct Hex as [_ Ht]. split; [lia|]. split; [done|lia].
  - change (SafeEventSource.run (input :: ins) e)
      with (SafeEventSource.run ins (SafeEventSource.step e input)).
    destruct (exhausted_step e input Hwf Hex) as [Hex1 Ha1].
    pose proof (wellFormed_safe_step e input Hwf) as Hwf1.
    destruct (IH _ Hwf1 Hex1) as (Ha & Ht & Hr).
    pose proof (reconnectAttempts_step e input) as Hm.
    split; [|split; [done|lia]].
    rewrite Ha, Ha1. cbn [explicitConnects]. lia.
Qed.

(** With the default of three reconnections: after four errors, each but
    the last followed by its timer, a fifth connection that fails stays
    failed. *)
Lemma reconnect_budget_never_restored_witness :
  let e := SafeEventSource.run
             [Connect; Error 0 false; Timeout 1; Error 1 false; Timeout 2;
              Error 2 false; Timeout 3; Error 3 false]
             (create "http://localhost:8080/api/v1/chat/stream" (mkConfig None None None)) in
  SafeEventSource.attempts
    (SafeEventSource.run [Connect; Error 4 false; Timeout 4; Reestablish 4] e)
  = (SafeEventSource.attempts e + 1)%nat.
Proof.
  intros e.
  assert (SafeEventSource.reachable "http://localhost:8080/api/v1/chat/stream"
            (mkConfig None None None) e) as Hreach by (eexists; reflexivity).
  assert (attemptsAllowed (mkConfig None None None) <= reconnectAttempts (self e)) as Hmax
    by (vm_compute; discriminate).
  exact (proj1 (reconnect_budget_never_restored _ _ e
                  [Connect; Error 4 false; Timeout 4; Reestablish 4] Hreach Hmax eq_refl)).
Defined.

(** [close()] twice is [close()] once, and [destroy()] is [close()]: the
    second clearing of the timer finds none. *)
Theorem close_idempotent (e : Env) :
  SafeEventSource.close (SafeEventSource.close e) = SafeEventSource.close e
  /\ destroy e = SafeEventSource.close e
  /\ isManuallyDisconnected (self (SafeEventSource.close e)) = true
  /\ eventSource (self (SafeEventSource.close e)) = None
  /\ reconnectTimeout (self (SafeEventSource.close e)) = None.
Proof.
  destruct e as [[u c es m n rt] srcs tms nt].
  unfold destroy, SafeEventSource.close, closeSource, clearReconnectTimeout, setManual, onSelf.
  cbn. destruct rt, es; cbn; done.
Qed.

End SafeMore.

(* ===================================================================== *)
(** * The loop detector and the user store                                 *)
(* ===================================================================== *)

Section LoopMore.
Import Loop.

Lemma endsWith_refl (s : string) : endsWith s s = true.
Proof. destruct s; cbn [endsWith]; by rewrite String.eqb_refl. Qed.

Lemma endsWith_app (a s : string) : endsWith (a +:+ s) s = true.
Proof.
  induction a as [|c a IH]; [apply endsWith_refl|].
  change (String c a +:+ s) with (String c (a +:+ s)). cbn [endsWith].
  rewrite IH. apply orb_true_r.
Qed.

Lemma detect_lookup (m : gmap string Z) (url : string) (tw now : Z) :
  (detectEventSourceLoop m url tw now).1 !! keyOf url tw now
  = Some (default 0 (m !! keyOf url tw now) + 1).
Proof.
  unfold detectEventSourceLoop. cbn [fst].
  apply map_lookup_filter_Some. split; [apply lookup_insert_eq|].
  cbn. unfold keyOf. apply endsWith_app.
Qed.

Lemma detections_count (url : string) (tw : Z) (b : string) (nows : list Z)
  (m : gmap string Z) :
  Forall (fun now => bucket tw now = b) nows ->
  detections m url tw nows
  = (fun i => bool_decide (5 < default 0 (m !! (url +:+ "_" +:+ b)) + Z.of_nat i))
    <$> seq 0 (length nows).
Proof.
  revert m. induction nows as [|now nows IH]; intros m Hb; [done|].
  apply Forall_cons in Hb as [Hnow Hb].
  cbn [detections length seq fmap list_fmap].
  destruct (detectEventSourceLoop m url tw now) as [m' r] eqn:Hd.
  assert (r = bool_decide (5 < default 0 (m !! (url +:+ "_" +:+ b)) + Z.of_nat 0)) as ->.
  { apply (f_equal snd) in Hd. cbn in Hd. subst r. unfold keyOf. rewrite Hnow.
    by rewrite Z.add_0_r. }
  f_equal. rewrite (IH m' Hb).
  pose proof (detect_lookup m url tw now) as Hl. rewrite Hd in Hl. cbn [fst] in Hl.
  unfold keyOf in Hl. rewrite Hnow in Hl. rewrite Hl. cbn [default].
  rewrite <- (fmap_S_seq 0), <- list_fmap_compose.
  apply list_fmap_ext. intros _ i _. cbn. apply bool_decide_ext. lia.
Qed.

(** The detector counts the calls made for a URL in the current window of
    the clock, whatever the length of the window, zero included: the window
    of a call is named by the text [bucket] gives.  Each call counts one
    more for its key, deletes every key of another window and keeps the
    counts of other URLs in the same window.  Of the calls made for one URL
    within one window, with no count for it before, the first six are
    answered no and every later one yes: the seventh connection is the first
    to be flagged. *)
Theorem detectEventSourceLoop_threshold (m : gmap string Z) (url : string)
  (tw : Z) (b : string) (nows : list Z) :
  Forall (fun now => bucket tw now = b) nows ->
  m !! (url +:+ "_" +:+ b) = None ->
  detections m url tw nows
  = (fun i => bool_decide (6 <= i)%nat) <$> seq 0 (length nows)
  /\ (forall now,
        let m' := (detectEventSourceLoop m url tw now).1 in
        m' !! keyOf url tw now = Some (default 0 (m !! keyOf url tw now) + 1)
        /\ (forall k c, m' !! k = Some c ->
              endsWith k ("_" +:+ bucket tw now) = true)
        /\ (forall k, k <> keyOf url tw now ->
              endsWith k ("_" +:+ bucket tw now) = true ->
              m' !! k = m !! k)).
Proof.
  intros Hb Hnone. split.
  - rewrite (detections_count url tw b nows m Hb), Hnone. cbn [default].
    apply list_fmap_ext. intros _ i _. cbn.
    apply bool_decide_ext. lia.
  - intros now m'. split; [apply detect_lookup|]. split.
    + intros k c Hk. subst m'. unfold detectEventSourceLoop in Hk. cbn [fst] in Hk.
      by apply map_lookup_filter_Some in Hk as [_ ?].
    + intros k Hne Hends. subst m'. unfold detectEventSourceLoop. cbn [fst].
      destruct (m !! k) as [c|] eqn:Hk.
      * apply map_lookup_filter_Some. split; [|done]. by rewrite lookup_insert_ne.
      * apply map_lookup_filter_None. left. by rewrite lookup_insert_ne.
Qed.

(** Eight connections to one URL between 20 s and 29 s, with the default
    window of ten seconds. *)
Lemma detectEventSourceLoop_threshold_witness :
  detections ∅ "http://localhost:8080/api/v1/chat/stream" defaultTimeWindow
    [20000; 21000; 22000; 23000; 24000; 25000; 26000; 29999]
  = [false; false; false; false; false; false; true; true].
Proof.
  assert (Forall (fun now => bucket defaultTimeWindow now = "2")
            [20000; 21000; 22000; 23000; 24000; 25000; 26000; 29999]) as Hb
    by (repeat constructor).
  exact (proj1 (detectEventSourceLoop_threshold ∅
                  "http://localhost:8080/api/v1/chat/stream" defaultTimeWindow "2"
                  [20000; 21000; 22000; 23000; 24000; 25000; 26000; 29999]
                  Hb (lookup_empty _))).
Defined.

End LoopMore.

Section UserStoreMore.
Import UserStore.

Lemma sliceLast_app {A : Type} (n : nat) (l l' : list A) :
  sliceLast n (sliceLast n l ++ l') = sliceLast n (l ++ l').
Proof.
  unfold sliceLast. destruct (decide (length l <= n)%nat) as [Hle|Hgt].
  - replace (length l - n)%nat with 0%nat by lia. done.
  - assert (length (drop (length l - n) l) = n) as Hd by (rewrite length_drop; lia).
    rewrite !length_app, Hd.
    replace (n + length l' - n)%nat with (length l') by lia.
    replace (length l + length l' - n)%nat with ((length l - n) + length l')%nat by lia.
    rewrite <- drop_drop, (drop_app_le l) by lia. done.
Qed.

(** The chat history holds the last hundred ids.  After one more id it is
    at most a hundred long, whatever it held before, and ends with that id;
    below a hundred nothing is dropped; and after any number of ids it is
    the last hundred of all those seen, in order. *)
Theorem addToChatHistory_last_hundred (chatHistory : list string) :
  (forall messageId,
     let h' := addToChatHistory messageId chatHistory in
     length h' = Nat.min (S (length chatHistory)) 100
     /\ last h' = Some messageId
     /\ ((length chatHistory < 100)%nat -> h' = chatHistory ++ [messageId]))
  /\ (forall (messageId : string) (ids : list string),
        fold_left (fun h id => addToChatHistory id h) (messageId :: ids) chatHistory
        = sliceLast 100 (chatHistory ++ messageId :: ids)).
Proof.
  split.
  - intros messageId h'. subst h'. unfold addToChatHistory, sliceLast.
    rewrite length_drop, !length_app. cbn [length].
    split; [lia|]. split.
    + rewrite last_lookup, lookup_drop, length_drop, length_app. cbn [length].
      by apply list_lookup_middle; lia.
    + intros Hlt. replace (length chatHistory + 1 - 100)%nat with 0%nat by lia. done.
  - intros messageId ids. revert chatHistory messageId.
    induction ids as [|id' ids IH]; intros h id; [done|].
    cbn [fold_left] in *. rewrite IH. unfold addToChatHistory.
    rewrite sliceLast_app. by rewrite <- app_assoc.
Qed.

End UserStoreMore.

(* ===================================================================== *)
(** * The input of the chat component                                      *)
(* ===================================================================== *)

Section InputMore.
Import Consumer ChatUI.

Ltac split_ifs H :=
  repeat match type of H with
         | context [if ?b then _ else _] => destruct b eqn:?
         end.

Lemma dropSpace_length (s r : string) :
  dropSpace s = Some r -> (String.length r < String.length s)%nat.
Proof.
  unfold dropSpace. destruct s as [|c0 [|c1 [|c2 s]]]; intros H;
    split_ifs H; try done; injection H as <-; cbn [String.length]; lia.
Qed.

Lemma dropSpace_app (a r b : string) :
  dropSpace a = Some r -> dropSpace (a +:+ b) = Some (r +:+ b).
Proof.
  unfold dropSpace. destruct a as [|c0 [|c1 [|c2 a]]]; intros H;
    split_ifs H; try done; injection H as <-;
    repeat match goal with
           | |- context [String ?c ?x +:+ b] =>
             change (String c x +:+ b) with (String c (x +:+ b))
           end;
    change ("" +:+ b) with b; cbv beta iota zeta;
    repeat match goal with
           | E : ?c = _ |- context [if ?c then _ else _] => rewrite E
           end; done.
Qed.

Lemma trimStartN_enough (n : nat) (s : string) :
  (String.length s <= n)%nat -> trimStartN n s = trimStart s.
Proof.
  unfold trimStart. remember (String.length s) as k eqn:Hk. revert s n Hk.
  induction (lt_wf k) as [k _ IH]. intros s n -> Hn.
  destruct n as [|n].
  - by replace (String.length s) with 0%nat by lia.
  - destruct (String.length s) as [|m] eqn:Hlen.
    + destruct s; [done|cbn in Hlen; lia].
    + cbn [trimStartN]. destruct (dropSpace s) as [r|] eqn:Hd; [|done].
      apply dropSpace_length in Hd. rewrite Hlen in Hd.
      rewrite (IH (String.length r) ltac:(lia) r n eq_refl ltac:(lia)).
      by rewrite (IH (String.length r) ltac:(lia) r m eq_refl ltac:(lia)).
Qed.

Lemma trimStart_eq (s : string) :
  trimStart s = match dropSpace s with Some r => trimStart r | None => s end.
Proof.
  unfold trimStart at 1. destruct (String.length s) as [|m] eqn:Hlen.
  - destruct s; [done|cbn in Hlen; lia].
  - cbn [trimStartN]. destruct (dropSpace s) as [r|] eqn:Hd; [|done].
    apply trimStartN_enough. apply dropSpace_length in Hd. lia.
Qed.

Lemma dropSpace_trimStart (s : string) : dropSpace (trimStart s) = None.
Proof.
  remember (String.length s) as k eqn:Hk. revert s Hk.
  induction (lt_wf k) as [k _ IH]. intros s ->.
  rewrite trimStart_eq. destruct (dropSpace s) as [r|] eqn:Hd; [|done].
  apply (IH (String.length r)); [by apply dropSpace_length|done].
Qed.

Lemma trimStart_fixed (s : string) : dropSpace s = None -> trimStart s = s.
Proof. intros H. by rewrite trimStart_eq, H. Qed.

(** A text of white space only: [trimStart] leaves nothing of it. *)
Lemma blank_app (a b : string) :
  trimStart a = "" -> trimStart b = "" -> trimStart (a +:+ b) = "".
Proof.
  remember (String.length a) as k eqn:Hk. revert a Hk.
  induction (lt_wf k) as [k _ IH]. intros a -> Ha Hb.
  rewrite trimStart_eq in Ha. destruct (dropSpace a) as [r|] eqn:Hd.
  - rewrite trimStart_eq, (dropSpace_app a r b Hd).
    apply (IH (String.length r)); [by apply dropSpace_length|done..].
  - by subst a.
Qed.

Lemma trimEnd_split (s : string) :
  exists r, s = trimEnd s +:+ r /\ trimStart r = "".
Proof.
  induction s as [|c s (r & Hs & Hr)]; [by exists ""|].
  cbn [trimEnd]. destruct (String.eqb_spec (trimStart (String c s)) "") as [Hb|Hb].
  - by exists (String c s).
  - exists r. split; [|done].
    change (String c (trimEnd s) +:+ r) with (String c (trimEnd s +:+ r)).
    by rewrite <- Hs.
Qed.

Lemma trimEnd_trimEnd (s : string) : trimEnd (trimEnd s) = trimEnd s.
Proof.
  induction s as [|c s IH]; [done|]. cbn [trimEnd].
  destruct (String.eqb_spec (trimStart (String c s)) "") as [Hb|Hb]; [done|].
  cbn [trimEnd]. rewrite IH.
  destruct (String.eqb_spec (trimStart (String c (trimEnd s))) "") as [Hb'|Hb']; [|done].
  destruct (trimEnd_split s) as (r & Hs & Hr). exfalso. apply Hb.
  rewrite Hs at 1.
  change (String c (trimEnd s +:+ r)) with (String c (trimEnd s) +:+ r).
  by apply blank_app.
Qed.

Lemma dropSpace_trimEnd (s : string) : dropSpace s = None -> dropSpace (trimEnd s) = None.
Proof.
  intros Hs. destruct (dropSpace (trimEnd s)) as [r'|] eqn:Hd; [|done].
  destruct (trimEnd_split s) as (r & Heq & _).
  apply (dropSpace_app _ _ r) in Hd. rewrite <- Heq in Hd. congruence.
Qed.

Lemma trim_nil (s : string) : trim s = "" <-> trimStart s = "".
Proof.
  unfold trim. split; [|by intros ->].
  pose proof (dropSpace_trimStart s) as Hd. destruct (trimStart s) as [|c a] eqn:E; [done|].
  cbn [trimEnd]. rewrite (trimStart_fixed _ Hd). done.
Qed.

(** What the input of the chat sends.  A message that is empty or white
    space only, or any message while a stream is active, sends nothing and
    stays in the input; otherwise the hook's [sendMessage] gets the message
    trimmed, once (the second trimming, by [handleSendMessage], finds
    nothing to strip), and the input is emptied.  The text sent is never
    empty and neither starts nor ends with white space. *)
Theorem chat_input_sends_trimmed (v : Version) (p : Props) (now : Z)
  (message : string) (w : World) :
  submit v p now message w
  = (if String.eqb (trimStart message) "" || isStreaming (store w)
     then (w, message)
     else (sendMessage v p now (trim message) w, ""))
  /\ trim (trim message) = trim message
  /\ (trim message = "" <-> trimStart message = "")
  /\ dropSpace (trim message) = None
  /\ trimEnd (trim message) = trim message.
Proof.
  assert (trim (trim message) = trim message) as Hidem.
  { unfold trim at 1. rewrite trimStart_fixed.
    - apply trimEnd_trimEnd.
    - apply dropSpace_trimEnd, dropSpace_trimStart. }
  split; [|split; [done|split; [apply trim_nil|split]]].
  - unfold submit, handleSubmit.
    destruct (String.eqb_spec (trim message) "") as [Hb|Hb].
    + apply trim_nil in Hb. rewrite Hb. done.
    + destruct (String.eqb_spec (trimStart message) "") as [Hb'|Hb'];
        [by apply trim_nil in Hb'|].
      cbn [orb]. destruct (isStreaming (store w)) eqn:Hs; [done|].
      unfold handleSendMessage. rewrite Hidem, Hs.
      apply String.eqb_neq in Hb. by rewrite Hb.
  - apply dropSpace_trimEnd, dropSpace_trimStart.
  - apply trimEnd_trimEnd.
Qed.

End InputMore.

Section EndpointMore.
Import Consumer Session.

Lemma isConnected_sendMessage (v : Version) (p : Props) (t : Z) (text : string) (w : World) :
  isConnected (hook (sendMessage v p t text w)) = true -> isConnected (hook w) = true.
Proof.
  unfold sendMessage, setupEventSource.
  destruct (isStreaming (store w)); [done|].
  destruct v, (eventSourceRef (hook w));
    repeat match goal with
           | |- context [if ?b then _ else _] => destruct b
           end; cbn; done.
Qed.

Lemma unconnected_step (v : Version) (p : Props) (w : World) (ti : Z * Input) :
  validEndpoint v p = false ->
  sources w = [] /\ eventSourceRef (hook w) = None /\ isConnected (hook w) = false ->
  let w' := step v p w ti in
  sources w' = [] /\ eventSourceRef (hook w') = None /\ isConnected (hook w') = false.
Proof.
  intros Hbad (Hs & Hr & Hc) w'. subst w'.
  assert (staleClosed w = []) as Hst by (unfold staleClosed; by rewrite Hr).
  destruct (fromTransport ti) eqn:Ht.
  { rewrite step_allClosed; [done| |done]. rewrite Hs. by intros i es ?. }
  destruct ti as [t input]. destruct input as [text| | |i|i f|i fatal|i]; try done;
    cbn [step].
  - destruct (isStreaming (store w)) eqn:Hstr.
    { by rewrite sendMessage_streaming. }
    destruct (sendMessage_idle v p t text w Hstr) as (_ & _ & Hsrc).
    rewrite Hbad in Hsrc. destruct Hsrc as [Hs' Hr'].
    split; [congruence|]. split; [done|].
    destruct (isConnected (hook (sendMessage v p t text w))) eqn:E; [|done].
    apply isConnected_sendMessage in E. congruence.
  - destruct (reconnect_sources v w) as (Hs' & Hr' & _ & Hc'). split; [congruence|done].
  - destruct v; [done|]. destruct (cleanup_sources w) as (Hs' & Hr' & _).
    split; [congruence|]. split; [done|].
    unfold cleanup. cbn. by rewrite Hr.
Qed.

(** A hook whose endpoint does not pass the checks of [setupEventSource],
    such as the path the chat component defaults to, never connects:
    whatever is done, no source is constructed and no request made.  Each
    [sendMessage] still appends the user's message, leaves the streaming
    flag lowered, and makes the hook return an error. *)
Theorem invalid_endpoint_never_connects (v : Version) (p : Props) :
  validEndpoint v p = false ->
  (forall ins : list (Z * Input),
     let w := run v p ins initialWorld in
     sources w = [] /\ eventSourceRef (hook w) = None
     /\ isConnected (hook w) = false /\ attempts w = 0%nat)
  /\ (forall (w : World) (t : Z) (text : string),
        isStreaming (store w) = false ->
        let w' := sendMessage v p t text w in
        messages (store w')
        = messages (store w)
          ++ [mkMessage ("user-" +:+ Text.itoa t) user text t None None None None]
        /\ isStreaming (store w') = false
        /\ returnedError v w' <> None
        /\ attempts w' = attempts w).
Proof.
  intros Hbad. split.
  - intros ins w.
    assert (sources w = [] /\ eventSourceRef (hook w) = None
            /\ isConnected (hook w) = false) as (Hs & Hr & Hc).
    { subst w. unfold run. rewrite <- (rev_involutive ins).
      induction (rev ins) as [|ti l IH]; [done|].
      cbn [rev]. rewrite fold_left_app. cbn [fold_left].
      by apply unconnected_step. }
    repeat (split; [done|]). unfold attempts. by rewrite Hs.
  - intros w t text Hidle w'.
    destruct (sendMessage_idle v p t text w Hidle) as (Hm & Hstr & _).
    destruct (sendMessage_invalid_endpoint v p w t text Hidle Hbad) as (_ & _ & Ha & He).
    done.
Qed.

(** The first message sent through a chat component left with its default
    endpoint. *)
Lemma invalid_endpoint_never_connects_witness :
  let w := run V2 defaultProps
             [(1, SendMessage "hiking"); (2, Reconnect); (3, SendMessage "hiking")]
             initialWorld in
  sources w = [] /\ eventSourceRef (hook w) = None
  /\ isConnected (hook w) = false /\ attempts w = 0%nat.
Proof.
  exact (proj1 (invalid_endpoint_never_connects V2 defaultProps eq_refl)
           [(1, SendMessage "hiking"); (2, Reconnect); (3, SendMessage "hiking")]).
Defined.

End EndpointMore.

Section PayloadMore.
Import Consumer ChatUI.

(** Updates are merged one level deep.  When the activities of a stream
    are followed by the images of one of them, the message being assembled
    carries both lists, but its metadata is that of the images alone: the
    total count and the search query that came with the activities are
    gone.  The store's list of activities is the one found. *)
Theorem images_replace_metadata (v : Version) (w : World) (m : Message) (t1 t2 : Z)
  (found : list Activity) (total : Z) (query : option string)
  (activity : string) (loaded : list ActivityImage) :
  accumulating w m ->
  let w' := receive v
              [ (t1, Single (Parsed (ACTIVITIES_FOUND found total query)));
                (t2, Single (Parsed (IMAGES_LOADED activity loaded))) ] w in
  activities (store w') = found
  /\ assembling w'
     = Some (mkMessage (msg_id m) (msg_type m) (msg_content m) (msg_timestamp m)
               (msg_isStreaming m) (Some found) (Some loaded)
               (Some (mkMetadata None None (Some activity))))
  /\ length (messages (store w')) = length (messages (store w)).
Proof.
  intros (Hlast & Hid & _) w'. subst w'. unfold receive, assembling in *.
  cbn -[updateMessages]. rewrite !length_updateMessages, !updateMessages_last, Hlast.
  cbn. rewrite Hid, String.eqb_refl. cbn. rewrite String.eqb_refl. done.
Qed.

Lemma images_replace_metadata_witness :
  let w := receive V2 [(1, Single (Parsed (STREAMING_START (Some "msg-1"))))] initialWorld in
  let w' := receive V2
              [ (2, Single (Parsed (ACTIVITIES_FOUND [mkActivity "a1"] 12 (Some "hiking"))));
                (3, Single (Parsed (IMAGES_LOADED "a1" [mkActivityImage "i1"]))) ] w in
  (msg_metadata <$> assembling w') = Some (Some (mkMetadata None None (Some "a1"))).
Proof.
  intros w w'.
  assert (accumulating w (mkMessage "msg-1" assistant "" 1 (Some true) None None None)) as Hacc
    by (by split; [|split]).
  destruct (images_replace_metadata V2 w _ 2 3 [mkActivity "a1"] 12 (Some "hiking")
              "a1" [mkActivityImage "i1"] Hacc) as (_ & Hm & _).
  fold w' in Hm. by rewrite Hm.
Defined.

Lemma lastTool_snoc (name : string) (calls : list Callback) (c : Callback) :
  lastTool name (calls ++ [c])
  = match c with
    | onToolExecution n b => if String.eqb n name then Some b else lastTool name calls
    | onError _ => lastTool name calls
    end.
Proof.
  induction calls as [|x calls IH].
  - cbn. destruct c as [|n b]; [done|]. by destruct (String.eqb n name).
  - cbn [app lastTool]. rewrite IH. destruct c as [|n b]; [done|].
    by destruct (String.eqb n name).
Qed.

(** The component tracks the tools at work by name, not by execution: after
    any calls of the hook's callbacks, a tool is in the set exactly when
    the last event for its name was a start, however many executions of it
    have started and not ended; and the hook calls [onToolExecution] once
    for each tool event it handles. *)
Theorem tool_executions_by_name :
  (forall (calls : list Callback) (toolName : string),
     toolName ∈ toolExecutions calls <-> lastTool toolName calls = Some true)
  /\ (forall (v : Version) (t : Z) (toolName : string) (w : World),
        calls (handleAGUIEvent v t (TOOL_EXECUTION_START toolName) w)
        = calls w ++ [onToolExecution toolName true]
        /\ calls (handleAGUIEvent v t (TOOL_EXECUTION_END toolName) w)
           = calls w ++ [onToolExecution toolName false])
  /\ (forall toolName : string,
        hasActiveTools [onToolExecution toolName true; onToolExecution toolName true;
                        onToolExecution toolName false] = false).
Proof.
  split; [|split; [done|]].
  - intros calls name. unfold toolExecutions. rewrite <- (rev_involutive calls).
    induction (rev calls) as [|c l IH].
    + cbn. split; [by intros ?%not_elem_of_empty|done].
    + cbn [rev]. rewrite fold_left_app, lastTool_snoc. cbn [fold_left].
      destruct c as [e|n b]; [exact IH|]. unfold toolExecution.
      destruct (String.eqb_spec n name) as [->|Hne].
      * destruct b; [|split; [|done]].
        -- split; [done|]. intros _. apply elem_of_union_l. by apply elem_of_singleton.
        -- intros [_ Hn]%elem_of_difference. exfalso. apply Hn. by apply elem_of_singleton.
      * rewrite <- IH. destruct b.
        -- rewrite elem_of_union, elem_of_singleton. split; [|by right].
           intros [?|?]; [congruence|done].
        -- rewrite elem_of_difference, elem_of_singleton. split; [by intros [? _]|].
           intros ?. split; [done|congruence].
  - intros name. unfold hasActiveTools. apply bool_decide_eq_false. intros H. apply H.
    unfold toolExecutions, toolExecution. cbn. apply set_eq. intros x.
    rewrite elem_of_difference, !elem_of_union, elem_of_singleton.
    split; [|by intros ?%not_elem_of_empty].
    intros [[?|[?|?%not_elem_of_empty]] ?]; done.
Qed.

End PayloadMore.
